(** * Cargo Semver Labeler Action: result classification, PR-context
      resolution, retry policy and label reconciliation

    A shallow embedding of [src/index.ts] and [src/stdio.ts].

    - JavaScript strings are sequences of UTF-16 code units: [list N].
    - Regular-expression literals are values of a small syntax [regex],
      run by a backtracking matcher that lists the successful matches in
      the priority order of the ECMAScript matcher, so that its first
      element is the match [RegExp.prototype.exec] reports.
    - Code that calls the platform, the file system or the network runs
      in a state monad over an abstract world and a log of the calls made;
      a computation returns, throws, or never returns. *)

From Stdlib Require Import String Ascii DecimalString.
From Stdlib Require Import List NArith ZArith Lia Bool.
From Equations Require Import Equations.
Import ListNotations.

(* ===================================================================== *)
(** * JavaScript strings *)
(* ===================================================================== *)

Definition jsstring := list N.

(** A string literal of the source (all literals of the source are ASCII). *)
Definition js (s : String.string) : jsstring :=
  List.map Ascii.N_of_ascii (String.list_ascii_of_string s).

Arguments js s%_string.

Fixpoint jsstring_eqb (a b : jsstring) : bool :=
  match a, b with
  | [], [] => true
  | x :: a', y :: b' => N.eqb x y && jsstring_eqb a' b'
  | _, _ => false
  end.

(** [a || b] on strings: the empty string is falsy. *)
Definition or_str (a b : jsstring) : jsstring :=
  match a with [] => b | _ => a end.

(** [a || b] on possibly-undefined strings. *)
Definition or_else (a : option jsstring) (b : option jsstring) : option jsstring :=
  match a with
  | Some (_ :: _) => a
  | _ => b
  end.

(** Truthiness of a possibly-undefined string. *)
Definition truthy_str (a : option jsstring) : bool :=
  match a with Some (_ :: _) => true | _ => false end.

(** [String.prototype.startsWith]. *)
Fixpoint startsWith (s p : jsstring) : bool :=
  match p, s with
  | [], _ => true
  | x :: p', y :: s' => N.eqb x y && startsWith s' p'
  | _ :: _, [] => false
  end.

(** [String.prototype.includes]. *)
Fixpoint includes (s p : jsstring) : bool :=
  startsWith s p ||
  match s with
  | [] => false
  | _ :: s' => includes s' p
  end.

(** [Array.prototype.join]. *)
Fixpoint join (sep : jsstring) (l : list jsstring) : jsstring :=
  match l with
  | [] => []
  | [x] => x
  | x :: l' => x ++ sep ++ join sep l'
  end.

(** WhiteSpace and LineTerminator code units: the set [\s] of a regular
    expression, which is also what [String.prototype.trim] removes. *)
Definition is_space (c : N) : bool :=
  ((9 <=? c) && (c <=? 13) || (c =? 32) || (c =? 160) || (c =? 5760)
   || (8192 <=? c) && (c <=? 8202) || (c =? 8232) || (c =? 8233)
   || (c =? 8239) || (c =? 8287) || (c =? 12288) || (c =? 65279))%N.

Fixpoint trimStart (s : jsstring) : jsstring :=
  match s with
  | c :: s' => if is_space c then trimStart s' else s
  | [] => []
  end.

Definition trimEnd (s : jsstring) : jsstring := rev (trimStart (rev s)).

Definition trim (s : jsstring) : jsstring := trimEnd (trimStart s).

(** [String.prototype.toLowerCase] on the ASCII range; the strings it is
    applied to in this program (the captured severity word) hold ASCII
    letters only, see [phrase_capture_ascii]. *)
Definition lower (c : N) : N :=
  if ((65 <=? c) && (c <=? 90))%N then (c + 32)%N else c.

Definition toLowerCase (s : jsstring) : jsstring := List.map lower s.

(** The line feed and the double quote of the source's literals. *)
Definition NL : jsstring := [10%N].
Definition QUOTE : jsstring := [34%N].

(** ** Numbers in template literals

    The numbers the program renders are integers: counts, exit statuses
    and pull-request numbers. A Number is a double: an integer from 2^53
    on is [m * 2^e] with [2^52 <= m < 2^53], and an integer that no
    double is stands for the double nearest to it. *)

Definition digits (x : Z) : jsstring :=
  js (DecimalString.NilZero.string_of_uint (N.to_uint (Z.to_N x))).

(** The double nearest to an integer from 2^53 on, the one with the
    even mantissa of two as near: the Number an integer literal is. *)
Definition nearest_double (x : Z) : Z :=
  let e := (Z.log2 x - 52)%Z in
  let m := Z.shiftr x e in
  let low := (m * 2 ^ e)%Z in
  let high := ((m + 1) * 2 ^ e)%Z in
  if (x - low <? high - x)%Z then low
  else if (high - x <? x - low)%Z then high
  else if Z.even m then low else high.

(** The real number [v] is rounded to the double [x] (for [2^53 <= x]):
    it lies within half a gap of [x], the ends counted when the mantissa
    of [x] is even. Below a power of two the gap is half as wide. *)
Definition rounds_to (x v : Z) : bool :=
  let e := (Z.log2 x - 52)%Z in
  let m := Z.shiftr x e in
  let above := (2 ^ e)%Z in
  let below := (if m =? 2 ^ 52 then 2 ^ (e - 1) else 2 ^ e)%Z in
  let d := (2 * (v - x))%Z in
  if Z.even m
  then ((- below <=? d) && (d <=? above))%Z
  else ((- below <? d) && (d <? above))%Z.

(** The number [s * 10^(n-k)] with the least [k], counted up from [k],
    that is rounded to [x]; of two with the same [k] the closer one, and
    of two as close the one with [s] even. *)
Fixpoint shortest (fuel : nat) (x : Z) (n k : nat) : Z :=
  match fuel with
  | O => x
  | S fuel' =>
      let p := (10 ^ Z.of_nat (n - k))%Z in
      let s := (x / p)%Z in
      let lo := (s * p)%Z in
      let hi := (lo + p)%Z in
      match rounds_to x lo, rounds_to x hi with
      | true, true =>
          if (x - lo <? hi - x)%Z then lo
          else if (hi - x <? x - lo)%Z then hi
          else if Z.even s then lo else hi
      | true, false => lo
      | false, true => hi
      | false, false => shortest fuel' x n (S k)
      end
  end.

Fixpoint trimStart_zeros (s : jsstring) : jsstring :=
  match s with
  | c :: s' => if (c =? 48)%N then trimStart_zeros s' else s
  | [] => []
  end.

(** [Number::toString] on an integer that is not negative: up to 21
    digits, the digits that tell the number from the other doubles and
    zeros after them; with more, those digits with a point after the
    first, and the exponent. Below 2^53 the digits that tell the number
    from the others are all its digits. *)
Definition Number_toString (x : Z) : jsstring :=
  if (x <? 2 ^ 53)%Z then digits x
  else
    let x := nearest_double x in
    let n := length (digits x) in
    let d := digits (shortest n x n 1) in
    if (length d <=? 21)%nat then d
    else match d with
         | [] => []
         | c :: rest =>
             let fraction := rev (trimStart_zeros (rev rest)) in
             c :: match fraction with [] => [] | _ => js "." ++ fraction end
               ++ js "e+" ++ digits (Z.of_nat (length rest))
         end.

(** A number in a template literal. *)
Definition render_Z (z : Z) : jsstring :=
  match z with
  | Z.neg p => js "-" ++ Number_toString (Z.pos p)
  | _ => Number_toString z
  end.

Definition render_nat (n : nat) : jsstring := render_Z (Z.of_nat n).

(* ===================================================================== *)
(** * Regular expressions *)
(* ===================================================================== *)

Module Regex.

(** A pattern character or a character class. *)
Inductive atom :=
| AChar (c : N)
| AClass (p : N -> bool).

(** The pattern syntax the source uses: characters, classes, [*] and [+]
    on a character or class, concatenation, alternation and one capture
    group. *)
Inductive regex :=
| REps
| RAtom (a : atom)
| RStar (a : atom)
| RPlus (a : atom)
| RSeq (r1 r2 : regex)
| RAlt (r1 r2 : regex)
| RGroup (r : regex).

(** Canonicalize of the ECMAScript matcher for the [i] flag without [u]:
    a code unit is mapped to its upper case, and a code unit from 128 on
    is never mapped below 128; every pattern character of this program is
    ASCII, for which only the ASCII range matters. *)
Definition canonicalize (c : N) : N :=
  if ((97 <=? c) && (c <=? 122))%N then (c - 32)%N else c.

Definition atom_ok (ignoreCase : bool) (a : atom) (c : N) : bool :=
  match a with
  | AChar p =>
      if ignoreCase then N.eqb (canonicalize p) (canonicalize c) else N.eqb p c
  | AClass p => p c
  end.

(** One successful match: the text consumed, the text left, group 1. *)
Record mres := MRes {
  consumed : jsstring;
  rest : jsstring;
  group1 : option jsstring
}.

Definition push (c : N) (m : jsstring * jsstring) : jsstring * jsstring :=
  (c :: fst m, snd m).

(** Greedy repetition of an atom: the longest run first, then shorter. *)
Fixpoint star (ic : bool) (a : atom) (s : jsstring) : list (jsstring * jsstring) :=
  match s with
  | c :: s' =>
      if atom_ok ic a c then List.map (push c) (star ic a s') ++ [([], s)]
      else [([], s)]
  | [] => [([], [])]
  end.

Definition no_group (m : jsstring * jsstring) : mres :=
  MRes (fst m) (snd m) None.

Definition then_ (m1 m2 : mres) : mres :=
  MRes (consumed m1 ++ consumed m2) (rest m2)
       (match group1 m2 with Some g => Some g | None => group1 m1 end).

(** All the ways [r] matches a prefix of [s], in backtracking order. *)
Fixpoint rmatch (ic : bool) (r : regex) (s : jsstring) : list mres :=
  match r with
  | REps => [MRes [] s None]
  | RAtom a =>
      match s with
      | c :: s' => if atom_ok ic a c then [MRes [c] s' None] else []
      | [] => []
      end
  | RStar a => List.map no_group (star ic a s)
  | RPlus a =>
      match s with
      | c :: s' =>
          if atom_ok ic a c
          then List.map no_group (List.map (push c) (star ic a s'))
          else []
      | [] => []
      end
  | RSeq r1 r2 =>
      flat_map (fun m1 => List.map (then_ m1) (rmatch ic r2 (rest m1)))
               (rmatch ic r1 s)
  | RAlt r1 r2 => rmatch ic r1 s ++ rmatch ic r2 s
  | RGroup r1 =>
      List.map (fun m => MRes (consumed m) (rest m) (Some (consumed m)))
               (rmatch ic r1 s)
  end.

(** A literal run of pattern characters. *)
Fixpoint lit (p : jsstring) : regex :=
  match p with
  | [] => REps
  | c :: p' => RSeq (RAtom (AChar c)) (lit p')
  end.

(** A regular-expression object: its pattern and its [i] flag. *)
Record RegExp := mkRegExp {
  source : regex;
  ignoreCase : bool
}.

(** The match at the start of [s], if any. *)
Definition match_here (re : RegExp) (s : jsstring) : option mres :=
  hd_error (rmatch (ignoreCase re) (source re) s).

(** The leftmost match in [s]: the text skipped before it and the match.
    The matcher is tried at every index up to and including the end. *)
Fixpoint search (re : RegExp) (s : jsstring) : option (jsstring * mres) :=
  match match_here re s with
  | Some m => Some ([], m)
  | None =>
      match s with
      | [] => None
      | c :: s' =>
          match search re s' with
          | Some (pre, m) => Some (c :: pre, m)
          | None => None
          end
      end
  end.

(** [re.test(s)] for a regular expression without the [g] flag. *)
Definition test (re : RegExp) (s : jsstring) : bool :=
  match search re s with Some _ => true | None => false end.

End Regex.
Import Regex.

(** ** What a match consumes *)

Lemma star_split ic a s m :
  In m (star ic a s) -> fst m ++ snd m = s.
Proof.
  revert m; induction s as [|c s IH]; simpl; intros m H.
  - destruct H as [<-|[]]; reflexivity.
  - destruct (atom_ok ic a c).
    + apply in_app_or in H. destruct H as [H|[<-|[]]]; [|reflexivity].
      apply in_map_iff in H. destruct H as (m' & <- & H').
      simpl. f_equal. auto.
    + destruct H as [<-|[]]; reflexivity.
Qed.

Lemma rmatch_split ic r : forall s m,
  In m (rmatch ic r s) -> consumed m ++ rest m = s.
Proof.
  induction r; simpl; intros s m H.
  - destruct H as [<-|[]]; reflexivity.
  - destruct s as [|c s]; [contradiction|].
    destruct (atom_ok ic a c); [|contradiction].
    destruct H as [<-|[]]; reflexivity.
  - apply in_map_iff in H. destruct H as (p & <- & H).
    apply (star_split _ _ _ _ H).
  - destruct s as [|c s]; [contradiction|].
    destruct (atom_ok ic a c); [|contradiction].
    apply in_map_iff in H. destruct H as (p & <- & H).
    apply in_map_iff in H. destruct H as (q & <- & H).
    simpl. f_equal. apply (star_split _ _ _ _ H).
  - apply in_flat_map in H. destruct H as (m1 & H1 & H2).
    apply in_map_iff in H2. destruct H2 as (m2 & <- & H2).
    simpl. rewrite <- app_assoc, (IHr2 _ _ H2). auto.
  - apply in_app_or in H. destruct H; auto.
  - apply in_map_iff in H. destruct H as (m' & <- & H). simpl. auto.
Qed.

Lemma match_here_split re s m :
  match_here re s = Some m -> consumed m ++ rest m = s.
Proof.
  unfold match_here. intros H.
  apply (rmatch_split (ignoreCase re) (source re)).
  destruct (rmatch (ignoreCase re) (source re) s); simpl in H; [discriminate|].
  injection H as ->. left; reflexivity.
Qed.

Lemma search_split re s pre m :
  search re s = Some (pre, m) -> pre ++ consumed m ++ rest m = s.
Proof.
  revert pre; induction s as [|c s IH]; simpl; intros pre H.
  - destruct (match_here re []) eqn:E; [|discriminate].
    injection H as <- <-. apply (match_here_split _ _ _ E).
  - destruct (match_here re (c :: s)) eqn:E.
    + injection H as <- <-. apply (match_here_split _ _ _ E).
    + destruct (search re s) as [[pre' m']|]; [|discriminate].
      injection H as <- <-. simpl. f_equal. auto.
Qed.

Lemma search_rest_length re s pre m :
  search re s = Some (pre, m) ->
  length s = length pre + length (consumed m) + length (rest m).
Proof.
  intros H. apply search_split in H. subst s.
  rewrite !length_app. lia.
Qed.

(** ** The loops over a regular expression with the [g] flag *)

(** A value together with the equation that names it. *)
Definition inspect {A} (a : A) : {b : A | a = b} := exist _ a eq_refl.

(** [s.replace(re, by)] for a regular expression with the [g] flag: every
    match, found from left to right and each search starting where the
    last match ended, is replaced; after an empty match the search moves
    one code unit on. *)
Equations? replace_g (re : RegExp) (by_ : jsstring) (s : jsstring) : jsstring
  by wf (length s) lt :=
  replace_g re by_ s with inspect (search re s) := {
    | exist _ None _ => s
    | exist _ (Some (pre, MRes [] [] _)) _ => pre ++ by_
    | exist _ (Some (pre, MRes [] (c :: s') _)) H =>
        pre ++ by_ ++ c :: replace_g re by_ s'
    | exist _ (Some (pre, MRes (_ :: _) s' _)) H =>
        pre ++ by_ ++ replace_g re by_ s' }.
Proof.
  all: apply search_rest_length in H; simpl in *; lia.
Qed.

(* ===================================================================== *)
(** * Thrown values and results *)
(* ===================================================================== *)

(** A thrown value: an [Error] object with its message and the [status]
    and [code] properties some errors carry (a request error of the
    platform client has a [status], a system error has a [code]), or a
    value that is not an object, given by its [String(...)] rendering. *)
Inductive exn :=
| Error (message : jsstring) (status : option Z) (code : option jsstring)
| Thrown (text : jsstring).

(** [new Error(message)]. *)
Definition new_Error (message : jsstring) : exn := Error message None None.

(** [error instanceof Error ? error.message : String(error)]. *)
Definition message_of (e : exn) : jsstring :=
  match e with
  | Error m _ _ => m
  | Thrown t => t
  end.

Definition status_of (e : exn) : option Z :=
  match e with
  | Error _ s _ => s
  | Thrown _ => None
  end.

(** What running a piece of code gives: a value, a thrown value, or no
    result at all (the code never returns). *)
Inductive outcome (A : Type) :=
| Ok (a : A)
| Throw (e : exn)
| Hang.

Arguments Ok {A} a.
Arguments Throw {A} e.
Arguments Hang {A}.

(** [Set.prototype.add]: a set keeps its elements in insertion order. *)
Fixpoint set_add (x : jsstring) (l : list jsstring) : list jsstring :=
  match l with
  | [] => [x]
  | y :: l' => if jsstring_eqb x y then l else y :: set_add x l'
  end.

(** [Set.prototype.has]. *)
Fixpoint set_has (x : jsstring) (l : list jsstring) : bool :=
  match l with
  | [] => false
  | y :: l' => jsstring_eqb x y || set_has x l'
  end.

(** [new Set(array)]. *)
Definition set_of (l : list jsstring) : list jsstring :=
  fold_left (fun acc x => set_add x acc) l [].

(* ===================================================================== *)
(** * The result classifier *)
(* ===================================================================== *)

Definition DEFAULT_CARGO_SEMVER_CHECKS_VERSION : jsstring := js "latest".
Definition DEFAULT_LABEL_PREFIX : jsstring := js "semver: ".
Definition ANSI_ESCAPE : N := 27%N.

Definition digit_or_semicolon (c : N) : bool :=
  ((48 <=? c) && (c <=? 57) || (c =? 59))%N.

(** [new RegExp(`${ANSI_ESCAPE}\\[[0-9;]*m`, "g")]. *)
Definition ANSI_ESCAPE_REGEX : RegExp :=
  mkRegExp
    (RSeq (RAtom (AChar ANSI_ESCAPE))
      (RSeq (RAtom (AChar 91%N))
        (RSeq (RStar (AClass digit_or_semicolon))
              (RAtom (AChar 109%N)))))
    false.

Definition GITHUB_RELEASES_BASE : jsstring :=
  js "https://github.com/obi1kenobi/cargo-semver-checks/releases".

Definition RETRYABLE_STATUS_CODES : list Z := [502; 503; 504]%Z.

Inductive SemverType := major | minor | patch.

(** The string a [SemverType] is. *)
Definition semver_name (t : SemverType) : jsstring :=
  match t with
  | major => js "major"
  | minor => js "minor"
  | patch => js "patch"
  end.

(** The captured standard streams and exit status of a finished process;
    the status is [null] when a signal ended it. *)
Record CommandResult := mkCommandResult {
  cmd_status : option Z;
  cmd_stdout : jsstring;
  cmd_stderr : jsstring
}.

Definition isRetryableError (error : exn) : bool :=
  match error with
  | Thrown _ => false
  | Error _ status _ =>
      match status with
      | Some st =>
          negb (Z.eqb st 0) && existsb (Z.eqb st) RETRYABLE_STATUS_CODES
      | None => false
      end
  end.

Definition stripAnsi (input : jsstring) : jsstring :=
  replace_g ANSI_ESCAPE_REGEX [] input.

(** [/semver requires new (major|minor|patch) version/gi]. *)
Definition REQUIRED_UPDATE_REGEX : RegExp :=
  mkRegExp
    (RSeq (lit (js "semver requires new "))
      (RSeq (RGroup (RAlt (lit (js "major"))
                      (RAlt (lit (js "minor")) (lit (js "patch")))))
            (lit (js " version"))))
    true.

(** [/no\s+(semver|public|api)/i]. *)
Definition SUCCESS_REGEX : RegExp :=
  mkRegExp
    (RSeq (lit (js "no"))
      (RSeq (RPlus (AClass is_space))
            (RGroup (RAlt (lit (js "semver"))
                      (RAlt (lit (js "public")) (lit (js "api")))))))
    true.

(** [while ((match = regex.exec(cleaned)) !== null)
       found.add(match[1].toLowerCase());]
    for a regular expression with the [g] flag, from the text [s] that
    starts at its [lastIndex]. An empty match leaves [lastIndex] where it
    is, and the loop then never ends; reading [toLowerCase] of a group
    that did not take part throws. *)
Equations? collect_matches (regex : RegExp) (s : jsstring)
  (found : list jsstring) : outcome (list jsstring) by wf (length s) lt :=
  collect_matches regex s found with inspect (search regex s) := {
    | exist _ None _ => Ok found
    | exist _ (Some (_, MRes [] _ _)) _ => Hang
    | exist _ (Some (_, MRes (_ :: _) _ None)) _ =>
        Throw (new_Error
          (js "Cannot read properties of undefined (reading 'toLowerCase')"))
    | exist _ (Some (_, MRes (_ :: _) s' (Some g))) H =>
        collect_matches regex s' (set_add (toLowerCase g) found) }.
Proof.
  apply search_rest_length in H; simpl in *; lia.
Qed.

(** [for (const regex of regexes) { ... }]. *)
Fixpoint collect_all (regexes : list RegExp) (cleaned : jsstring)
  (found : list jsstring) : outcome (list jsstring) :=
  match regexes with
  | [] => Ok found
  | regex :: more =>
      match collect_matches regex cleaned found with
      | Ok found' => collect_all more cleaned found'
      | other => other
      end
  end.

Definition extractRequiredUpdatesFromText (text : jsstring)
  : outcome (list jsstring) :=
  let found := [] in
  let cleaned := stripAnsi text in
  let regexes := [REQUIRED_UPDATE_REGEX] in
  collect_all regexes cleaned found.

(* ===================================================================== *)
(** * Effects: the world outside the action *)
(* ===================================================================== *)

(** The file-system calls of the installer. *)
Inductive fs_call :=
| WriteFileSync (path data : jsstring)
| MkdirSync (path : jsstring)
| CopyFileSync (src dest : jsstring)
| ChmodSync (path : jsstring) (mode : N)
| RmSync (path : jsstring).

(** What the action does to the world, in the order it does it. *)
Inductive event :=
| EInfo (message : jsstring)
| EWarning (message : jsstring)
| ESetFailed (message : jsstring)
| ESetOutput (name value : jsstring)
| ESleep (milliseconds : nat)
| EPullsList (head : jsstring)
| EListPullRequestsAssociatedWithCommit (commit_sha : jsstring)
| EPullsGet (pull_number : Z)
| EListLabelsOnIssue (issue_number : Z)
| ERemoveLabel (issue_number : Z) (name : jsstring)
| EGetLabel (name : jsstring)
| ECreateLabel (name color description : jsstring)
| EAddLabels (issue_number : Z) (labels : list jsstring)
| ESpawnSync (command : jsstring) (args : list jsstring)
| EGetLatestVersion
| EHttpsGet (url : jsstring)
| EMkdtempSync (prefix : jsstring)
| EExistsSync (path : jsstring)
| EFs (call : fs_call).

(** [{ base: { sha } }] and [{ number, base }] of a payload or of a
    platform response; every field may be missing. *)
Record BaseRef := mkBaseRef { base_sha : option jsstring }.

Record PullRequest := mkPullRequest {
  pr_number : option Z;
  pr_base : option BaseRef
}.

(** [github.context.payload.pull_request], whose [number] is declared. *)
Record PullRequestPayload := mkPullRequestPayload {
  prp_number : Z;
  prp_base : option BaseRef
}.

Record RepoOwner := mkRepoOwner {
  owner_login : option jsstring;
  owner_name : option jsstring
}.

Record HeadRepository := mkHeadRepository {
  repo_owner : option RepoOwner
}.

(** [github.context.payload.workflow_run]. *)
Record WorkflowRun := mkWorkflowRun {
  wr_conclusion : option jsstring;
  wr_pull_requests : option (list PullRequest);
  wr_head_repository : option HeadRepository;
  wr_head_branch : option jsstring;
  wr_head_sha : option jsstring
}.

(** [github.context]: the event and the repository. *)
Record Context := mkContext {
  eventName : jsstring;
  payload_pull_request : option PullRequestPayload;
  payload_workflow_run : option WorkflowRun;
  context_owner : jsstring;
  context_repo : jsstring
}.

Record Label := mkLabel { label_name : jsstring }.

(** What [spawnSync] returns. *)
Record SpawnSyncReturns := mkSpawn {
  spawn_error : option exn;
  spawn_result : CommandResult
}.

Record SpawnSyncOptions := mkOptions {
  opt_cwd : option jsstring;
  opt_env : list (jsstring * jsstring)
}.

Inductive PrContextResolution :=
| Skip (reason : jsstring)
| Proceed (prNumber : Z) (baseSha : jsstring).

Section Action.

(** The state of everything outside the action. *)
Variable World : Type.

Definition state : Type := World * list event.

(** A computation that may call the outside. *)
Definition M (A : Type) : Type := state -> outcome A * state.

(** A call to the outside: what it returns and how the world changes. *)
Definition hook (A : Type) : Type := World -> outcome A * World.

Definition ret {A} (a : A) : M A := fun st => (Ok a, st).

Definition bind {A B} (m : M A) (k : A -> M B) : M B :=
  fun st =>
    match m st with
    | (Ok a, st') => k a st'
    | (Throw e, st') => (Throw e, st')
    | (Hang, st') => (Hang, st')
    end.

Definition throw {A} (e : exn) : M A := fun st => (Throw e, st).

(** [try { m } catch (error) { handler error }]. *)
Definition try_catch {A} (m : M A) (handler : exn -> M A) : M A :=
  fun st =>
    match m st with
    | (Throw e, st') => handler e st'
    | other => other
    end.

(** The result of a pure piece of code. *)
Definition lift {A} (o : outcome A) : M A := fun st => (o, st).

Definition emit (e : event) : M unit :=
  fun st => (Ok tt, (fst st, snd st ++ [e])).

(** A call of a hook, entered in the log before it answers. *)
Definition call {A} (e : event) (h : hook A) : M A :=
  fun st =>
    let (r, w) := h (fst st) in (r, (w, snd st ++ [e])).

Notation "x <- m ;; k" := (bind m (fun x => k))
  (at level 61, m at next level, right associativity).
Notation "m ;; k" := (bind m (fun _ => k))
  (at level 61, right associativity).

(** The platform client. *)
Record Octokit := mkOctokit {
  pulls_list : jsstring -> jsstring -> jsstring -> hook (list PullRequest);
  repos_listPullRequestsAssociatedWithCommit :
    jsstring -> jsstring -> jsstring -> hook (list PullRequest);
  pulls_get : jsstring -> jsstring -> Z -> hook PullRequest;
  issues_listLabelsOnIssue : jsstring -> jsstring -> Z -> hook (list Label);
  issues_removeLabel : jsstring -> jsstring -> Z -> jsstring -> hook unit;
  issues_getLabel : jsstring -> jsstring -> jsstring -> hook unit;
  issues_createLabel :
    jsstring -> jsstring -> jsstring -> jsstring -> jsstring -> hook unit;
  issues_addLabels : jsstring -> jsstring -> Z -> list jsstring -> hook unit
}.

(** The process, the operating system and the network. *)
Record Host := mkHost {
  getInput : jsstring -> jsstring;
  getOctokit : jsstring -> Octokit;
  env_GITHUB_WORKSPACE : option jsstring;
  process_cwd : jsstring;
  os_platform : jsstring;
  os_arch : jsstring;
  os_tmpdir : jsstring;
  os_homedir : jsstring;
  path_join : list jsstring -> jsstring;
  setFailed : jsstring -> hook unit;
  spawnSync : jsstring -> list jsstring -> SpawnSyncOptions -> World ->
              SpawnSyncReturns * World;
  net_getLatestVersion : hook jsstring;
  net_httpsGet : jsstring -> hook jsstring;
  fs_mkdtempSync : jsstring -> hook jsstring;
  fs_existsSync : jsstring -> World -> bool * World;
  fs_do : fs_call -> hook unit
}.

Variable github_context : Context.
Variable host : Host.

(** [core.info], [core.warning], [core.setOutput]. *)
Definition info (message : jsstring) : M unit := emit (EInfo message).
Definition warning (message : jsstring) : M unit := emit (EWarning message).
Definition setOutput (name value : jsstring) : M unit :=
  emit (ESetOutput name value).

(** [await new Promise((resolve) => setTimeout(resolve, ms))]. *)
Definition sleep (ms : nat) : M unit := emit (ESleep ms).

(** The loop of [withRetries] from attempt number [attempt] on, with
    [remaining] iterations left before [attempt] exceeds [maxAttempts]. *)
Fixpoint withRetries_loop {T} (remaining attempt maxAttempts : nat)
  (operation : M T) (label : jsstring) : M T :=
  match remaining with
  | O =>
      throw (new_Error (label ++ js " failed after " ++ render_nat maxAttempts
                          ++ js " attempts."))
  | S remaining' =>
      try_catch operation (fun error =>
        let message := message_of error in
        if (maxAttempts <=? attempt)%nat || negb (isRetryableError error)
        then throw error
        else
          warning (label ++ js " failed (" ++ message ++ js "). Retrying ("
                     ++ render_nat attempt ++ js "/" ++ render_nat maxAttempts
                     ++ js ")...") ;;
          sleep (1000 * attempt) ;;
          withRetries_loop remaining' (S attempt) maxAttempts operation label)
  end.

Definition withRetries_n {T} (operation : M T) (label : jsstring)
  (maxAttempts : nat) : M T :=
  withRetries_loop maxAttempts 1 maxAttempts operation label.

(** [withRetries(operation, label)] with the default [maxAttempts = 3]. *)
Definition withRetries {T} (operation : M T) (label : jsstring) : M T :=
  withRetries_n operation label 3.

(** ** Commands *)

Definition runCommand (command : jsstring) (args : list jsstring)
  (options : SpawnSyncOptions) : M CommandResult :=
  result <- call (ESpawnSync command args)
              (fun w => let (r, w') := spawnSync host command args options w in
                        (Ok r, w')) ;;
  match spawn_error result with
  | Some error =>
      throw (new_Error (js "Failed to run " ++ QUOTE ++ command ++ js " "
                          ++ join (js " ") args ++ QUOTE ++ js ": "
                          ++ message_of error))
  | None => ret (spawn_result result)
  end.

(** [result.status === 0]. *)
Definition status_is_zero (r : CommandResult) : bool :=
  match cmd_status r with
  | Some z => Z.eqb z 0
  | None => false
  end.

Definition command_output (r : CommandResult) : jsstring :=
  trim (stripAnsi (or_str (cmd_stdout r) [] ++ NL ++ or_str (cmd_stderr r) [])).

Definition ensureGitShaAvailable (sha cwd : jsstring) : M unit :=
  info (js "Checking if base SHA " ++ sha ++ js " is available...") ;;
  check <- runCommand (js "git")
             [js "cat-file"; js "-e"; sha ++ js "^{commit}"]
             (mkOptions (Some cwd) []) ;;
  if status_is_zero check then
    info (js "Base SHA is already available.")
  else
    info (js "Fetching base SHA " ++ sha ++ js " from origin...") ;;
    fetch <- runCommand (js "git")
               [js "fetch"; js "--no-tags"; js "--depth=1"; js "origin"; sha]
               (mkOptions (Some cwd) []) ;;
    if negb (status_is_zero fetch) then
      throw (new_Error (js "Failed to fetch base SHA " ++ sha ++ js ": "
                          ++ command_output fetch))
    else
      info (js "Base SHA fetched successfully.").

(** ** Installing the checker *)

Definition getTargetTriple : option jsstring :=
  let platform := os_platform host in
  let arch := os_arch host in
  if jsstring_eqb platform (js "linux") && jsstring_eqb arch (js "x64")
  then Some (js "x86_64-unknown-linux-gnu")
  else if jsstring_eqb platform (js "linux") && jsstring_eqb arch (js "arm64")
  then Some (js "aarch64-unknown-linux-gnu")
  else if jsstring_eqb platform (js "darwin") && jsstring_eqb arch (js "x64")
  then Some (js "x86_64-apple-darwin")
  else if jsstring_eqb platform (js "darwin") && jsstring_eqb arch (js "arm64")
  then Some (js "aarch64-apple-darwin")
  else if jsstring_eqb platform (js "win32") && jsstring_eqb arch (js "x64")
  then Some (js "x86_64-pc-windows-msvc")
  else None.

(** The two network operations of the installer, as calls to the
    outside: following the redirect of the latest release, and
    downloading a file. *)
Definition getLatestVersion : M jsstring :=
  call EGetLatestVersion (net_getLatestVersion host).

Definition httpsGet (url : jsstring) : M jsstring :=
  call (EHttpsGet url) (net_httpsGet host url).

Definition fs (c : fs_call) : M unit := call (EFs c) (fs_do host c).

Definition installFromRelease (version : jsstring) : M unit :=
  match getTargetTriple with
  | None =>
      throw (new_Error (js "Unsupported platform: " ++ os_platform host
                          ++ js "-" ++ os_arch host))
  | Some triple =>
      resolvedVersion <-
        (if jsstring_eqb version DEFAULT_CARGO_SEMVER_CHECKS_VERSION then
           info (js "Resolving latest version...") ;;
           latest <- getLatestVersion ;;
           info (js "Latest version: " ++ latest) ;;
           ret latest
         else ret version) ;;
      let versionTag :=
        if startsWith resolvedVersion (js "v") then resolvedVersion
        else js "v" ++ resolvedVersion in
      let isWindows := jsstring_eqb (os_platform host) (js "win32") in
      let ext := if isWindows then js "zip" else js "tar.gz" in
      let assetName := js "cargo-semver-checks-" ++ triple ++ js "." ++ ext in
      let downloadUrl :=
        GITHUB_RELEASES_BASE ++ js "/download/" ++ versionTag ++ js "/"
          ++ assetName in
      info (js "Downloading: " ++ downloadUrl) ;;
      data <- httpsGet downloadUrl ;;
      let tmp_prefix :=
        path_join host [os_tmpdir host; js "cargo-semver-checks-"] in
      tempDir <- call (EMkdtempSync tmp_prefix) (fs_mkdtempSync host tmp_prefix) ;;
      let archivePath := path_join host [tempDir; assetName] in
      fs (WriteFileSync archivePath data) ;;
      let binDir := path_join host [os_homedir host; js ".cargo"; js "bin"] in
      present <- call (EExistsSync binDir)
                   (fun w => let (b, w') := fs_existsSync host binDir w in
                             (Ok b, w')) ;;
      (if negb present then fs (MkdirSync binDir) else ret tt) ;;
      (if isWindows then
         unzip <- runCommand (js "powershell")
                    [js "-Command";
                     js "Expand-Archive -Path '" ++ archivePath
                       ++ js "' -DestinationPath '" ++ tempDir ++ js "' -Force"]
                    (mkOptions None []) ;;
         if negb (status_is_zero unzip) then
           throw (new_Error (js "Failed to extract zip: " ++ cmd_stderr unzip))
         else
           let exePath := path_join host [tempDir; js "cargo-semver-checks.exe"] in
           fs (CopyFileSync exePath
                 (path_join host [binDir; js "cargo-semver-checks.exe"]))
       else
         tar <- runCommand (js "tar") [js "-xzf"; archivePath; js "-C"; tempDir]
                  (mkOptions None []) ;;
         if negb (status_is_zero tar) then
           throw (new_Error (js "Failed to extract tarball: " ++ cmd_stderr tar))
         else
           let binPath := path_join host [tempDir; js "cargo-semver-checks"] in
           let destPath := path_join host [binDir; js "cargo-semver-checks"] in
           fs (CopyFileSync binPath destPath) ;;
           fs (ChmodSync destPath 493%N)) ;;
      fs (RmSync tempDir) ;;
      info (js "cargo-semver-checks installed from release successfully.")
  end.

Definition installWithCargo (version cwd toolchain : jsstring) : M unit :=
  let args :=
    (match toolchain with [] => [] | _ => [js "+" ++ toolchain] end)
    ++ [js "install"; js "cargo-semver-checks"; js "--locked"]
    ++ (match version with
        | [] => []
        | _ => if negb (jsstring_eqb version DEFAULT_CARGO_SEMVER_CHECKS_VERSION)
               then [js "--version"; version] else []
        end) in
  info (js "Installing cargo-semver-checks: cargo " ++ join (js " ") args) ;;
  install <- runCommand (js "cargo") args (mkOptions (Some cwd) []) ;;
  if negb (status_is_zero install) then
    throw (new_Error (js "cargo-semver-checks install failed: "
                        ++ command_output install))
  else
    info (js "cargo-semver-checks installed successfully.").

Definition installCargoSemverChecks (version cwd toolchain : jsstring)
  (useReleaseBinary : bool) : M unit :=
  cargoCheck <- runCommand (js "cargo") [js "--version"]
                  (mkOptions (Some cwd) []) ;;
  if negb (status_is_zero cargoCheck) then
    throw (new_Error (js "cargo is not available in PATH."))
  else
    info (js "Cargo version: " ++ trim (cmd_stdout cargoCheck)) ;;
    installed <-
      (if useReleaseBinary then
         match getTargetTriple with
         | Some _ =>
             try_catch (installFromRelease version ;; ret true)
               (fun error =>
                  let message := message_of error in
                  warning (js "Failed to install from release: " ++ message
                             ++ js ". Falling back to cargo install.") ;;
                  ret false)
         | None =>
             info (js "No prebuilt binary for " ++ os_platform host ++ js "-"
                     ++ os_arch host ++ js ", using cargo install.") ;;
             ret false
         end
       else ret false) ;;
    if installed : bool then ret tt
    else installWithCargo version cwd toolchain.

(** ** Running the checker *)

Record SemverChecksOptions := mkSemverChecksOptions {
  sc_baseSha : jsstring;
  sc_cwd : jsstring;
  sc_packageName : jsstring;
  sc_toolchain : jsstring;
  sc_featureGroup : jsstring;
  sc_features : jsstring;
  sc_rustTarget : jsstring
}.

Definition truthy (s : jsstring) : bool :=
  match s with [] => false | _ => true end.

Definition runSemverChecks (options : SemverChecksOptions) : M CommandResult :=
  let env := [(js "CARGO_TERM_COLOR", js "always")] in
  let args :=
    (if truthy (sc_toolchain options) then [js "+" ++ sc_toolchain options]
     else [])
    ++ [js "semver-checks"; js "--baseline-rev"; sc_baseSha options;
        js "--release-type=patch"]
    ++ (if truthy (sc_packageName options)
        then [js "-p"; sc_packageName options] else [js "--workspace"])
    ++ (if truthy (sc_featureGroup options) then
          if jsstring_eqb (sc_featureGroup options) (js "all-features")
          then [js "--all-features"]
          else if jsstring_eqb (sc_featureGroup options) (js "default-features")
          then [js "--default-features"]
          else if jsstring_eqb (sc_featureGroup options)
                    (js "only-explicit-features")
          then [js "--only-explicit-features"]
          else []
        else [])
    ++ (if truthy (sc_features options)
        then [js "--features"; sc_features options] else [])
    ++ (if truthy (sc_rustTarget options)
        then [js "--target"; sc_rustTarget options] else []) in
  info (js "Running: cargo " ++ join (js " ") args) ;;
  info (js "---") ;;
  result <- runCommand (js "cargo") args
              (mkOptions (Some (sc_cwd options)) env) ;;
  (if truthy (cmd_stdout result) then info (cmd_stdout result) else ret tt) ;;
  (if truthy (cmd_stderr result) then info (cmd_stderr result) else ret tt) ;;
  info (js "---") ;;
  info (js "Exit code: "
          ++ match cmd_status result with
             | Some z => render_Z z
             | None => js "null"
             end) ;;
  ret result.

(** ** Classifying the checker's output *)

Definition determineSemverType (result : CommandResult) : M SemverType :=
  let combined := command_output result in
  requiredUpdates <- lift (extractRequiredUpdatesFromText combined) ;;
  let hasUpdates := (0 <? length requiredUpdates)%nat in
  let successMessage := test SUCCESS_REGEX combined in
  if negb (status_is_zero result) && negb hasUpdates && negb successMessage
  then
    throw (new_Error
             (js "cargo semver-checks failed to produce parseable output:"
                ++ NL ++ combined))
  else
    info (js "Detected required updates: "
            ++ or_str (join (js ", ") requiredUpdates) (js "none")) ;;
    if set_has (js "major") requiredUpdates then ret major
    else if set_has (js "minor") requiredUpdates then ret minor
    else ret patch.

(** ** Resolving the pull request *)

(** [pr?.base?.sha]. *)
Definition sha_of (base : option BaseRef) : option jsstring :=
  match base with
  | Some b => base_sha b
  | None => None
  end.

(** [prs[0]?.number] and [prs[0]?.base?.sha]. *)
Definition first_number (prs : list PullRequest) : option Z :=
  match prs with
  | pr :: _ => pr_number pr
  | [] => None
  end.

Definition first_sha (prs : list PullRequest) : option jsstring :=
  match prs with
  | pr :: _ => sha_of (pr_base pr)
  | [] => None
  end.

(** [!prNumber]. *)
Definition no_number (n : option Z) : bool :=
  match n with
  | Some z => Z.eqb z 0
  | None => true
  end.

(** [(headRepo?.owner?.login) || (headRepo?.owner?.name)]. *)
Definition headOwner_of (headRepo : option HeadRepository) : option jsstring :=
  match headRepo with
  | Some hr =>
      match repo_owner hr with
      | Some o => or_else (owner_login o) (owner_name o)
      | None => None
      end
  | None => None
  end.

(** The block under [if (!prNumber)] in the branch of a run without
    correlated pull request: the pull request associated with the head
    commit. It gives [prNumber] and [baseSha] as they are after it. *)
Definition resolveFromHeadSha (octokit : Octokit) (owner repo : jsstring)
  (workflowRun : WorkflowRun) (baseSha : option jsstring)
  : M (option Z * option jsstring) :=
  let headSha := wr_head_sha workflowRun in
  if negb (truthy_str headSha) then
    throw (new_Error (js "workflow_run is missing head_sha."))
  else
    let headSha := match headSha with Some h => h | None => [] end in
    info (js "Resolving PR from head_sha.") ;;
    associatedPRs <-
      call (EListPullRequestsAssociatedWithCommit headSha)
        (repos_listPullRequestsAssociatedWithCommit octokit owner repo headSha) ;;
    if negb (length associatedPRs =? 1)%nat then
      throw (new_Error
               (js "Unable to resolve PR from head_sha; found "
                  ++ render_nat (length associatedPRs) ++ js "."))
    else
      ret (first_number associatedPRs,
           or_else (first_sha associatedPRs) baseSha).

(** The part of [resolvePrContext] that finds the pull request of a
    successful run (from [const pullRequests = ...] to the end of the
    [if] on [pullRequests.length]): it gives [prNumber] and [baseSha] as
    they are after it. The messages of [core.debug], written only when
    [core.isDebug()], are left out. *)
Definition findPullRequest (octokit : Octokit) (owner repo : jsstring)
  (workflowRun : WorkflowRun) : M (option Z * option jsstring) :=
  let pullRequests :=
    match wr_pull_requests workflowRun with
    | Some prs => prs
    | None => []
    end in
  let baseSha := first_sha pullRequests in
  if (length pullRequests =? 1)%nat then
    ret (first_number pullRequests, baseSha)
  else if (length pullRequests =? 0)%nat then
    let headRepo := wr_head_repository workflowRun in
    let headBranch := wr_head_branch workflowRun in
    let headOwner := headOwner_of headRepo in
    byHead <-
      (if truthy_str headOwner && truthy_str headBranch then
         let headOwner := match headOwner with Some o => o | None => [] end in
         let headBranch := match headBranch with Some b => b | None => [] end in
         info (js "workflow_run.pull_requests is empty; resolving PR from head repository.") ;;
         let head := headOwner ++ js ":" ++ headBranch in
         headPRs <- call (EPullsList head)
                      (pulls_list octokit owner repo head) ;;
         if (length headPRs =? 1)%nat then
           ret (first_number headPRs, or_else (first_sha headPRs) baseSha)
         else if (1 <? length headPRs)%nat then
           throw (new_Error
                    (js "Unable to resolve PR from head ref; found "
                       ++ render_nat (length headPRs) ++ js "."))
         else ret (None, baseSha)
       else ret (None, baseSha)) ;;
    if no_number (fst byHead) then
      resolveFromHeadSha octokit owner repo workflowRun (snd byHead)
    else ret byHead
  else
    throw (new_Error
             (js "workflow_run must have exactly one pull request, found "
                ++ render_nat (length pullRequests) ++ js ".")).

(** The end of the branch, from [if (!prNumber)] to its [return]. *)
Definition finishResolution (octokit : Octokit) (owner repo : jsstring)
  (prNumber : option Z) (baseSha : option jsstring) : M PrContextResolution :=
  if no_number prNumber then
    throw (new_Error (js "workflow_run pull_request is missing number."))
  else
    let prNumber := match prNumber with Some n => n | None => 0%Z end in
    baseSha <-
      (if negb (truthy_str baseSha) then
         prData <- call (EPullsGet prNumber)
                     (pulls_get octokit owner repo prNumber) ;;
         ret (or_else (sha_of (pr_base prData)) None)
       else ret baseSha) ;;
    if negb (truthy_str baseSha) then
      throw (new_Error (js "Unable to determine the PR base SHA."))
    else
      ret (Proceed prNumber (match baseSha with Some b => b | None => [] end)).

(** [conclusion ? String(conclusion) : "unknown"]. *)
Definition rendered_conclusion (conclusion : option jsstring) : jsstring :=
  if truthy_str conclusion
  then match conclusion with Some c => c | None => [] end
  else js "unknown".

(** The branch [eventName === "workflow_run"] of [resolvePrContext] from
    the test of the conclusion on. *)
Definition resolveWorkflowRun (octokit : Octokit) (owner repo : jsstring)
  (workflowRun : WorkflowRun) : M PrContextResolution :=
  let conclusion := wr_conclusion workflowRun in
  if negb (match conclusion with
           | Some c => jsstring_eqb c (js "success")
           | None => false
           end)
  then
    let rendered := rendered_conclusion conclusion in
    ret (Skip (js "workflow_run conclusion is " ++ rendered
                 ++ js "; skipping semver checks."))
  else
    found <- findPullRequest octokit owner repo workflowRun ;;
    finishResolution octokit owner repo (fst found) (snd found).

Definition resolvePrContext (octokit : Octokit) (owner repo : jsstring)
  : M PrContextResolution :=
  let eventName := eventName github_context in
  if jsstring_eqb eventName (js "pull_request") then
    match payload_pull_request github_context with
    | None => throw (new_Error (js "Missing pull_request payload."))
    | Some pr =>
        let baseSha := sha_of (prp_base pr) in
        if negb (truthy_str baseSha) then
          throw (new_Error (js "Unable to determine the PR base SHA."))
        else
          ret (Proceed (prp_number pr)
                 (match baseSha with Some b => b | None => [] end))
    end
  else if jsstring_eqb eventName (js "workflow_run") then
    match payload_workflow_run github_context with
    | None => throw (new_Error (js "Missing workflow_run payload."))
    | Some workflowRun => resolveWorkflowRun octokit owner repo workflowRun
    end
  else throw (new_Error (js "Unsupported event type: " ++ eventName)).

(** ** Reconciling the label *)

(** [!error || error.status !== 404]. *)
Definition not_404 (error : exn) : bool :=
  match status_of error with
  | Some st => negb (Z.eqb st 404)
  | None => true
  end.

Definition LABEL_COLOR : jsstring := js "ededed".
Definition LABEL_DESCRIPTION : jsstring := js "Semver required update".

Definition ensureLabelExists (octokit : Octokit) (owner repo name : jsstring)
  : M unit :=
  present <-
    try_catch
      (call (EGetLabel name) (issues_getLabel octokit owner repo name) ;;
       ret true)
      (fun error => if not_404 error then throw error else ret false) ;;
  if present : bool then ret tt
  else
    call (ECreateLabel name LABEL_COLOR LABEL_DESCRIPTION)
      (issues_createLabel octokit owner repo name LABEL_COLOR LABEL_DESCRIPTION).

Definition removeLabelIfExists (octokit : Octokit) (owner repo : jsstring)
  (issueNumber : Z) (name : jsstring) : M unit :=
  try_catch
    (call (ERemoveLabel issueNumber name)
       (issues_removeLabel octokit owner repo issueNumber name))
    (fun error => if not_404 error then throw error else ret tt).

(** [for (const label of existingLabels) { ... }] of [upsertSemverLabel]. *)
Fixpoint removeOldLabels (octokit : Octokit) (owner repo : jsstring)
  (issueNumber : Z) (labelPrefix newLabel : jsstring)
  (existingLabels : list Label) : M unit :=
  match existingLabels with
  | [] => ret tt
  | label :: more =>
      (if startsWith (label_name label) labelPrefix
          && negb (jsstring_eqb (label_name label) newLabel)
       then
         info (js "Removing old label: " ++ label_name label) ;;
         removeLabelIfExists octokit owner repo issueNumber (label_name label)
       else ret tt) ;;
      removeOldLabels octokit owner repo issueNumber labelPrefix newLabel more
  end.

Definition upsertSemverLabel (octokit : Octokit) (owner repo : jsstring)
  (issueNumber : Z) (labelPrefix newLabel : jsstring) : M unit :=
  info (js "Fetching existing labels for issue #" ++ render_Z issueNumber
          ++ js "...") ;;
  existingLabels <- call (EListLabelsOnIssue issueNumber)
                      (issues_listLabelsOnIssue octokit owner repo issueNumber) ;;
  let existingNames := set_of (List.map label_name existingLabels) in
  info (js "Found " ++ render_nat (length existingLabels)
          ++ js " existing labels: "
          ++ or_str (join (js ", ") existingNames) (js "(none)")) ;;
  (if truthy labelPrefix && (0 <? length labelPrefix)%nat then
     removeOldLabels octokit owner repo issueNumber labelPrefix newLabel
       existingLabels
   else ret tt) ;;
  if negb (set_has newLabel existingNames) then
    info (js "Adding new label: " ++ newLabel) ;;
    ensureLabelExists octokit owner repo newLabel ;;
    call (EAddLabels issueNumber [newLabel])
      (issues_addLabels octokit owner repo issueNumber [newLabel])
  else
    info (js "Label " ++ QUOTE ++ newLabel ++ QUOTE
            ++ js " already exists, skipping.").

(** ** The action *)

(** [core.getInput(name, { required: true })]. *)
Definition getInput_required (name : jsstring) : M jsstring :=
  match getInput host name with
  | [] => throw (new_Error (js "Input required and not supplied: " ++ name))
  | value => ret value
  end.

Definition when (b : bool) (m : M unit) : M unit := if b then m else ret tt.

(** The end of the [try] block of [run], from [const label = ...] on. *)
Definition applyLabel (octokit : Octokit) (owner repo labelPrefix : jsstring)
  (prNumber : Z) (semverType : SemverType) : M unit :=
  let label := labelPrefix ++ semver_name semverType in
  info (js "Determined semver type: " ++ semver_name semverType) ;;
  info (js "Applying label " ++ QUOTE ++ label ++ QUOTE ++ js " to PR #"
          ++ render_Z prNumber ++ js "...") ;;
  withRetries
    (upsertSemverLabel octokit owner repo prNumber labelPrefix label)
    (js "Apply semver label") ;;
  info (js "Label applied successfully.") ;;
  setOutput (js "semver-type") (semver_name semverType).

(** The [try] block of [run] from [const { prNumber, baseSha } = prContext]
    to the classification. *)
Definition checkPullRequest (cargoVersion : jsstring) (useReleaseBinary : bool)
  (packageName toolchain featureGroup features rustTarget : jsstring)
  (prNumber : Z) (baseSha : jsstring) : M SemverType :=
  let cwd :=
    match env_GITHUB_WORKSPACE host with
    | Some (c :: cs) => c :: cs
    | _ => process_cwd host
    end in
  info (js "Event: " ++ eventName github_context) ;;
  info (js "PR number: " ++ render_Z prNumber) ;;
  info (js "Working directory: " ++ cwd) ;;
  info (js "PR base SHA: " ++ baseSha) ;;
  info (js "Use release binary: "
          ++ if useReleaseBinary then js "true" else js "false") ;;
  when (truthy toolchain) (info (js "Toolchain: " ++ toolchain)) ;;
  when (truthy packageName) (info (js "Package: " ++ packageName)) ;;
  when (truthy featureGroup) (info (js "Feature group: " ++ featureGroup)) ;;
  when (truthy features) (info (js "Features: " ++ features)) ;;
  when (truthy rustTarget) (info (js "Rust target: " ++ rustTarget)) ;;
  info [] ;;
  ensureGitShaAvailable baseSha cwd ;;
  installCargoSemverChecks cargoVersion cwd toolchain useReleaseBinary ;;
  info [] ;;
  result <- runSemverChecks
              (mkSemverChecksOptions baseSha cwd packageName toolchain
                 featureGroup features rustTarget) ;;
  determineSemverType result.

(** The [try] block of [run] once the token is read. *)
Definition runWithToken (githubToken : jsstring) : M unit :=
  let cargoVersion :=
    or_str (getInput host (js "cargo-semver-checks-version"))
           DEFAULT_CARGO_SEMVER_CHECKS_VERSION in
  let useReleaseBinaryInput := getInput host (js "use-release-binary") in
  let useReleaseBinary :=
    jsstring_eqb useReleaseBinaryInput []
    || jsstring_eqb useReleaseBinaryInput (js "true") in
  let labelPrefix := or_str (getInput host (js "label-prefix"))
                            DEFAULT_LABEL_PREFIX in
  let packageName := or_str (getInput host (js "package")) [] in
  let toolchain := or_str (getInput host (js "toolchain")) [] in
  let featureGroup := or_str (getInput host (js "feature-group")) [] in
  let features := or_str (getInput host (js "features")) [] in
  let rustTarget := or_str (getInput host (js "rust-target")) [] in
  let octokit := getOctokit host githubToken in
  let owner := context_owner github_context in
  let repo := context_repo github_context in
  prContext <- withRetries (resolvePrContext octokit owner repo)
                 (js "Resolve PR context") ;;
  match prContext with
  | Skip reason => info reason
  | Proceed prNumber baseSha =>
      semverType <- checkPullRequest cargoVersion useReleaseBinary packageName
                      toolchain featureGroup features rustTarget
                      prNumber baseSha ;;
      applyLabel octokit owner repo labelPrefix prNumber semverType
  end.

(** The [try] block of [run]. *)
Definition run_body : M unit :=
  githubToken <- getInput_required (js "github-token") ;;
  runWithToken githubToken.

Definition run : M unit :=
  try_catch run_body (fun error =>
    let message := message_of error in
    if negb (includes message (js "EPIPE")) then
      try_catch (call (ESetFailed message) (setFailed host message))
                (fun _ => ret tt)
    else ret tt).

End Action.

Arguments ret {World A} a _.
Arguments throw {World A} e _.
Arguments lift {World A} o _.
Arguments emit {World} e _.
Arguments call {World A} e h _.
Arguments bind {World A B} m k _.
Arguments try_catch {World A} m handler _.

Notation "x <- m ;; k" := (bind m (fun x => k))
  (at level 61, m at next level, right associativity).
Notation "m ;; k" := (bind m (fun _ => k))
  (at level 61, right associativity).

(* ===================================================================== *)
(** * The guards of the output streams ([src/stdio.ts]) *)
(* ===================================================================== *)

Module Stdio.

(** The flags of a [NodeJS.WriteStream] the guard reads. *)
Record WriteStream := mkStream {
  destroyed : bool;
  writableEnded : bool;
  writable : bool
}.

(** [error.code === "EPIPE"] on an object. *)
Definition isEpipe (error : exn) : bool :=
  match error with
  | Error _ _ (Some code) => jsstring_eqb code (js "EPIPE")
  | _ => false
  end.

(** Every function takes the module variable [streamBroken] and gives its
    new value back. *)
Definition shouldSkipWrite (streamBroken : bool) (stream : WriteStream)
  : bool * bool :=
  if streamBroken then (true, streamBroken)
  else if destroyed stream || writableEnded stream then (true, true)
  else (negb (writable stream), streamBroken).

Definition handleStreamError (streamBroken : bool) (error : exn) : bool :=
  match error with
  | Error _ _ (Some code) =>
      if jsstring_eqb code (js "EPIPE") then true else streamBroken
  | _ => streamBroken
  end.

(** The function [wrapStreamWrite] installs as [stream.write], given what
    the original [write] does with the same arguments. *)
Definition wrappedWrite (originalWrite : outcome bool) (streamBroken : bool)
  (stream : WriteStream) : outcome bool * bool :=
  let (skip, streamBroken) := shouldSkipWrite streamBroken stream in
  if skip then (Ok false, streamBroken)
  else
    match originalWrite with
    | Throw error =>
        if isEpipe error then (Ok false, true)
        else (Throw error, streamBroken)
    | other => (other, streamBroken)
    end.

(** What a handler of the process decides. *)
Inductive fate :=
| Continue
| Exit (code : Z) (report : jsstring).

(** [process.on("uncaughtException", ...)]; [rendered] is [`${error}`]. *)
Definition onUncaughtException (streamBroken : bool) (error : exn)
  (rendered : jsstring) : fate * bool :=
  if isEpipe error then (Continue, true)
  else (Exit 1 (js "Uncaught exception: " ++ rendered ++ NL), streamBroken).

(** [process.on("unhandledRejection", ...)]. *)
Definition onUnhandledRejection (streamBroken : bool) (reason : exn)
  (rendered : jsstring) : fate * bool :=
  if isEpipe reason then (Continue, true)
  else (Exit 1 (js "Unhandled rejection: " ++ rendered ++ NL), streamBroken).

End Stdio.

Arguments info {World} message _.
Arguments warning {World} message _.
Arguments setOutput {World} name value _.
Arguments sleep {World} ms _.
Arguments withRetries_loop {World T} remaining attempt maxAttempts operation label _.
Arguments withRetries_n {World T} operation label maxAttempts _.
Arguments withRetries {World T} operation label _.
Arguments determineSemverType {World} result _.
Arguments resolveFromHeadSha {World} octokit owner repo workflowRun baseSha _.
Arguments findPullRequest {World} octokit owner repo workflowRun _.
Arguments finishResolution {World} octokit owner repo prNumber baseSha _.
Arguments resolveWorkflowRun {World} octokit owner repo workflowRun _.
Arguments resolvePrContext {World} github_context octokit owner repo _.
Arguments ensureLabelExists {World} octokit owner repo name _.
Arguments removeLabelIfExists {World} octokit owner repo issueNumber name _.
Arguments removeOldLabels {World} octokit owner repo issueNumber labelPrefix newLabel existingLabels _.
Arguments upsertSemverLabel {World} octokit owner repo issueNumber labelPrefix newLabel _.
Arguments pulls_list {World} o _ _ _ _.
Arguments repos_listPullRequestsAssociatedWithCommit {World} o _ _ _ _.
Arguments pulls_get {World} o _ _ _ _.
Arguments issues_listLabelsOnIssue {World} o _ _ _ _.
Arguments issues_removeLabel {World} o _ _ _ _ _.
Arguments issues_getLabel {World} o _ _ _ _.
Arguments issues_createLabel {World} o _ _ _ _ _ _.
Arguments issues_addLabels {World} o _ _ _ _ _.
Arguments mkOctokit {World} _ _ _ _ _ _ _ _.
Arguments mkHost {World} _ _ _ _ _ _ _ _ _ _ _ _ _ _ _ _.
Arguments getInput {World} h _.
Arguments getOctokit {World} h _.
Arguments setFailed {World} h _ _.
Arguments spawnSync {World} h _ _ _ _.
Arguments net_getLatestVersion {World} h _.
Arguments net_httpsGet {World} h _ _.
Arguments runCommand {World} host command args options _.
Arguments ensureGitShaAvailable {World} host sha cwd _.
Arguments getTargetTriple {World} host.
Arguments getLatestVersion {World} host _.
Arguments httpsGet {World} host url _.
Arguments fs {World} host c _.
Arguments installWithCargo {World} host version cwd toolchain _.
Arguments runSemverChecks {World} host options _.
Arguments getInput_required {World} host name _.
Arguments when {World} b m _.
Arguments installFromRelease {World} host version _.
Arguments installCargoSemverChecks {World} host version cwd toolchain useReleaseBinary _.
Arguments applyLabel {World} octokit owner repo labelPrefix prNumber semverType _.
Arguments checkPullRequest {World} github_context host cargoVersion useReleaseBinary packageName toolchain featureGroup features rustTarget prNumber baseSha _.
Arguments runWithToken {World} github_context host githubToken _.
Arguments run_body {World} github_context host _.
Arguments run {World} github_context host _.

(** What a computation gives from a state, and the log it leaves. *)
Definition result_of {World A} (x : outcome A * state World) : outcome A := fst x.
Definition log_of {World A} (x : outcome A * state World) : list event :=
  snd (snd x).
Definition world_of {World A} (x : outcome A * state World) : World :=
  fst (snd x).

(* ===================================================================== *)
(** * The requests of the installer *)
(* ===================================================================== *)

(** What [getLatestVersion] and [httpsGet] do with the answer to their
    request. The installer above takes the two as calls to the outside;
    here the request itself, [https.get], is the call to the outside. *)

Module Net.

(** The response as the callback reads it: the status code, the
    [location] header, and what the body does after the callback has
    registered its listeners: [data] events and then [end], an [error]
    event, or nothing more. *)
Record IncomingMessage := mkIncomingMessage {
  statusCode : option Z;
  headers_location : option jsstring;
  body : outcome (list jsstring)
}.

(** What follows [https.get(url, callback)]: an [error] event of the
    request, a call of the callback, or neither. *)
Inductive reply :=
| RequestError (error : exn)
| Response (response : IncomingMessage)
| Silence.

(** [response.statusCode! >= 300 && response.statusCode! < 400 &&
    response.headers.location]. *)
Definition is_redirect (response : IncomingMessage) : bool :=
  match statusCode response with
  | Some code => (300 <=? code)%Z && (code <? 400)%Z
  | None => false
  end && truthy_str (headers_location response).

Definition location (response : IncomingMessage) : jsstring :=
  match headers_location response with Some l => l | None => [] end.

(** [`${response.statusCode}`]. *)
Definition render_status (code : option Z) : jsstring :=
  match code with
  | Some z => render_Z z
  | None => js "undefined"
  end.

(** The set [.] of a regular expression without the [s] flag. *)
Definition not_line_terminator (c : N) : bool :=
  negb ((c =? 10) || (c =? 13) || (c =? 8232) || (c =? 8233))%N.

(** [/\/tag\/v?(.+)$/]: the pattern before its [$]. *)
Definition LATEST_TAG_REGEX : RegExp :=
  mkRegExp
    (RSeq (lit (js "/tag/"))
      (RSeq (RAlt (RAtom (AChar 118%N)) REps)
            (RGroup (RPlus (AClass not_line_terminator)))))
    false.

Definition at_end (m : mres) : bool :=
  match rest m with [] => true | _ => false end.

(** The match at the start of [s] of a pattern followed by [$], without
    the [m] flag: the first, in backtracking order, of the matches of the
    pattern that end where the text ends. *)
Definition match_here_end (re : RegExp) (s : jsstring) : option mres :=
  find at_end (rmatch (ignoreCase re) (source re) s).

(** [s.match(re)] for such a pattern without the [g] flag: the leftmost
    match, with the text before it. *)
Fixpoint match_end (re : RegExp) (s : jsstring) : option (jsstring * mres) :=
  match match_here_end re s with
  | Some m => Some ([], m)
  | None =>
      match s with
      | [] => None
      | c :: s' =>
          match match_end re s' with
          | Some (pre, m) => Some (c :: pre, m)
          | None => None
          end
      end
  end.

Section Requests.

Variable World : Type.

(** [https.get]. *)
Variable https_get : jsstring -> World -> reply * World.

(** The callback of [getLatestVersion] and its [error] listener; the
    value is [match[1]]. *)
Definition latestVersion_of (r : reply) : outcome (option jsstring) :=
  match r with
  | RequestError error => Throw error
  | Silence => Hang
  | Response response =>
      match
        (if is_redirect response
         then match_end LATEST_TAG_REGEX (location response)
         else None)
      with
      | Some (_, m) => Ok (group1 m)
      | None => Throw (new_Error (js "Failed to determine latest version"))
      end
  end.

Definition getLatestVersion (w : World) : outcome (option jsstring) * World :=
  let url := GITHUB_RELEASES_BASE ++ js "/latest" in
  let (r, w') := https_get url w in
  (latestVersion_of r, w').

(** [httpsGet(url)], with a bound on the number of requests it may make:
    a chain of redirects that goes beyond it gives no result. The value
    is [Buffer.concat(chunks)]. *)
Fixpoint httpsGet (requests : nat) (url : jsstring) (w : World)
  : outcome jsstring * World :=
  match requests with
  | O => (Hang, w)
  | S requests' =>
      match https_get url w with
      | (RequestError error, w') => (Throw error, w')
      | (Silence, w') => (Hang, w')
      | (Response response, w') =>
          if is_redirect response
          then httpsGet requests' (location response) w'
          else if negb (match statusCode response with
                        | Some code => Z.eqb code 200
                        | None => false
                        end)
          then (Throw (new_Error (js "HTTP " ++ render_status (statusCode response)
                                    ++ js " for " ++ url)), w')
          else
            (match body response with
             | Ok chunks => Ok (List.concat chunks)
             | Throw error => Throw error
             | Hang => Hang
             end, w')
      end
  end.

End Requests.

End Net.

(* ===================================================================== *)
(** * Searching *)
(* ===================================================================== *)

Lemma search_here re s m :
  match_here re s = Some m -> search re s = Some ([], m).
Proof. destruct s; simpl; intros ->; reflexivity. Qed.

Lemma search_skip re c s :
  match_here re (c :: s) = None ->
  search re (c :: s) =
  match search re s with
  | Some (pre, m) => Some (c :: pre, m)
  | None => None
  end.
Proof. simpl. intros ->. reflexivity. Qed.

(** A search that fails finds no match at any index. *)
Lemma search_none re s :
  search re s = None -> forall u v, s = u ++ v -> match_here re v = None.
Proof.
  induction s as [|c s IH]; intros H u v E.
  - destruct u; [|discriminate]. simpl in E. subst v.
    simpl in H. destruct (match_here re []); [discriminate|reflexivity].
  - simpl in H. destruct (match_here re (c :: s)) eqn:Hh; [discriminate|].
    destruct u as [|c' u]; simpl in E.
    + subst v. exact Hh.
    + injection E as <- E. apply (IH) with (u := u); [|exact E].
      destruct (search re s) as [[? ?]|]; [discriminate|reflexivity].
Qed.

(** A search that succeeds reports the match at the first index that has
    one. *)
Lemma search_some re s pre m :
  search re s = Some (pre, m) ->
  s = pre ++ consumed m ++ rest m /\
  match_here re (consumed m ++ rest m) = Some m /\
  forall u c v, pre = u ++ c :: v ->
    match_here re (c :: v ++ consumed m ++ rest m) = None.
Proof.
  revert pre; induction s as [|c s IH]; intros pre H.
  - simpl in H. destruct (match_here re []) eqn:Hh; [|discriminate].
    injection H as <- <-. pose proof (match_here_split _ _ _ Hh) as E.
    rewrite E. repeat split; auto.
    intros u c v E'. destruct u; discriminate.
  - simpl in H. destruct (match_here re (c :: s)) eqn:Hh.
    + injection H as <- <-. pose proof (match_here_split _ _ _ Hh) as E.
      rewrite E. repeat split; auto.
      intros u c' v E'. destruct u; discriminate.
    + destruct (search re s) as [[pre' m']|] eqn:Hs; [|discriminate].
      injection H as <- <-.
      destruct (IH _ eq_refl) as (E & Hm & Hl).
      repeat split; auto.
      * simpl. f_equal. exact E.
      * intros u c' v E'. destruct u as [|x u]; simpl in E'.
        -- injection E' as <- <-. rewrite <- E. exact Hh.
        -- injection E' as <- E'. eapply Hl; eauto.
Qed.

(** ** Unfolding the loops *)

Lemma replace_g_none re by_ s :
  search re s = None -> replace_g re by_ s = s.
Proof.
  intros H. rewrite replace_g_equation_1. 
  unfold replace_g_unfold_clause_1.
  generalize (inspect (search re s)). rewrite H. intros [x e]. 
  destruct x; [discriminate|]. reflexivity.
Qed.

Lemma replace_g_some re by_ s pre c w r g :
  search re s = Some (pre, MRes (c :: w) r g) ->
  replace_g re by_ s = pre ++ by_ ++ replace_g re by_ r.
Proof.
  intros H. rewrite replace_g_equation_1.
  unfold replace_g_unfold_clause_1.
  generalize (inspect (search re s)). rewrite H. intros [x e].
  destruct x as [[pre' [[|c' w'] r' g']]|]; try discriminate.
  injection e as <- <- <- <- <-. reflexivity.
Qed.

Lemma collect_matches_none re s found :
  search re s = None -> collect_matches re s found = Ok found.
Proof.
  intros H. rewrite collect_matches_equation_1.
  unfold collect_matches_unfold_clause_1.
  generalize (inspect (search re s)). rewrite H. intros [x e].
  destruct x; [discriminate|]. reflexivity.
Qed.

Lemma collect_matches_some re s found pre c w r g :
  search re s = Some (pre, MRes (c :: w) r (Some g)) ->
  collect_matches re s found =
  collect_matches re r (set_add (toLowerCase g) found).
Proof.
  intros H. rewrite collect_matches_equation_1.
  unfold collect_matches_unfold_clause_1.
  generalize (inspect (search re s)). rewrite H. intros [x e].
  destruct x as [[pre' [[|c' w'] r' [g'|]]]|]; try discriminate.
  injection e as <- <- <- <- <-. reflexivity.
Qed.

(* ===================================================================== *)
(** * Literals *)
(* ===================================================================== *)

(** Equality of two texts up to the case of their ASCII letters. *)
Definition ci_eq (a b : jsstring) : Prop :=
  List.map canonicalize a = List.map canonicalize b.

Lemma ci_eq_length a b : ci_eq a b -> length a = length b.
Proof.
  unfold ci_eq. intros H. apply (f_equal (@length N)) in H.
  rewrite !length_map in H. exact H.
Qed.

Lemma ci_eq_sym a b : ci_eq a b -> ci_eq b a.
Proof. unfold ci_eq; intros H; symmetry; exact H. Qed.

Lemma ci_eq_trans a b c : ci_eq a b -> ci_eq b c -> ci_eq a c.
Proof. unfold ci_eq; intros H1 H2; rewrite H1; exact H2. Qed.

Lemma ci_eq_app a a' b b' : ci_eq a b -> ci_eq a' b' -> ci_eq (a ++ a') (b ++ b').
Proof. unfold ci_eq. rewrite !map_app. intros -> ->. reflexivity. Qed.

(** A text equal to [b ++ b'] up to case splits the same way. *)
Lemma ci_eq_app_inv w b b' :
  ci_eq w (b ++ b') ->
  exists a a', w = a ++ a' /\ ci_eq a b /\ ci_eq a' b'.
Proof.
  revert w; induction b as [|x b IH]; intros w H.
  - exists [], w. repeat split; auto.
  - destruct w as [|c w]; [discriminate|].
    unfold ci_eq in H. simpl in H. injection H as Hc H.
    destruct (IH w H) as (a & a' & -> & Ha & Ha').
    exists (c :: a), a'. repeat split; auto.
    unfold ci_eq. simpl. rewrite Hc. f_equal. exact Ha.
Qed.

(** Two splits of one text at the same length are the same split. *)
Lemma app_eq_length (a b c d : jsstring) :
  a ++ b = c ++ d -> length a = length c -> a = c /\ b = d.
Proof.
  revert c; induction a as [|x a IH]; intros [|y c] H L; try discriminate.
  - auto.
  - simpl in *. injection H as -> H. injection L as L.
    destruct (IH _ H L) as [-> ->]. auto.
Qed.

Lemma rmatch_lit_inv p : forall s m,
  In m (rmatch true (lit p) s) -> ci_eq (consumed m) p /\ group1 m = None.
Proof.
  induction p as [|x p IH]; simpl; intros s m H.
  - destruct H as [<-|[]]. split; reflexivity.
  - apply in_flat_map in H. destruct H as (m1 & H1 & H2).
    apply in_map_iff in H2. destruct H2 as (m2 & <- & H2).
    destruct s as [|c s]; [contradiction|].
    destruct (N.eqb_spec (canonicalize x) (canonicalize c)) as [E|E];
      [|contradiction].
    destruct H1 as [<-|[]]. simpl in *.
    destruct (IH _ _ H2) as [Hc Hg]. rewrite Hg. split; [|reflexivity].
    unfold ci_eq in *. simpl. rewrite Hc, E. reflexivity.
Qed.

Lemma rmatch_lit p : forall w r,
  ci_eq w p -> rmatch true (lit p) (w ++ r) = [MRes w r None].
Proof.
  induction p as [|x p IH]; intros [|c w] r H; try discriminate.
  - reflexivity.
  - unfold ci_eq in H. simpl in H. injection H as Hc H.
    simpl. rewrite Hc, N.eqb_refl. simpl.
    rewrite (IH w r H). reflexivity.
Qed.

(** A literal matches in at most one way. *)
Lemma rmatch_lit_cases p s :
  rmatch true (lit p) s = [] \/
  exists w r, s = w ++ r /\ ci_eq w p /\ rmatch true (lit p) s = [MRes w r None].
Proof.
  destruct (rmatch true (lit p) s) as [|m l] eqn:E; [left; reflexivity|right].
  assert (Hin : In m (rmatch true (lit p) s)) by (rewrite E; left; reflexivity).
  destruct (rmatch_lit_inv _ _ _ Hin) as [Hc _].
  pose proof (rmatch_split _ _ _ _ Hin) as Hs.
  exists (consumed m), (rest m). repeat split; auto.
  rewrite <- E, <- Hs. apply rmatch_lit. exact Hc.
Qed.

(* ===================================================================== *)
(** * The severity phrase *)
(* ===================================================================== *)

Definition PHRASE_HEAD : jsstring := js "semver requires new ".
Definition PHRASE_TAIL : jsstring := js " version".

(** The phrase that asks for a bump of severity [t]. *)
Definition phrase (t : SemverType) : jsstring :=
  PHRASE_HEAD ++ semver_name t ++ PHRASE_TAIL.

(** The text [t] contains, in any case of its letters, the phrase of
    severity [S]. *)
Definition mentions (t : jsstring) (S : SemverType) : Prop :=
  exists u w v, t = u ++ w ++ v /\ ci_eq w (phrase S).

Definition SEVERITY_WORDS : regex :=
  RAlt (lit (js "major")) (RAlt (lit (js "minor")) (lit (js "patch"))).

Lemma REQUIRED_UPDATE_REGEX_source :
  source REQUIRED_UPDATE_REGEX =
  RSeq (lit PHRASE_HEAD) (RSeq (RGroup SEVERITY_WORDS) (lit PHRASE_TAIL)).
Proof. reflexivity. Qed.

Lemma rmatch_seq ic r1 r2 s :
  rmatch ic (RSeq r1 r2) s =
  flat_map (fun m1 => List.map (then_ m1) (rmatch ic r2 (rest m1))) (rmatch ic r1 s).
Proof. reflexivity. Qed.

Lemma rmatch_alt ic r1 r2 s :
  rmatch ic (RAlt r1 r2) s = rmatch ic r1 s ++ rmatch ic r2 s.
Proof. reflexivity. Qed.

Lemma rmatch_group ic r s :
  rmatch ic (RGroup r) s =
  List.map (fun m => MRes (consumed m) (rest m) (Some (consumed m))) (rmatch ic r s).
Proof. reflexivity. Qed.

Lemma severity_words_sound s m :
  In m (rmatch true SEVERITY_WORDS s) ->
  exists S, ci_eq (consumed m) (semver_name S).
Proof.
  unfold SEVERITY_WORDS. rewrite !rmatch_alt. intros H.
  apply in_app_or in H. destruct H as [H|H].
  - exists major. apply (rmatch_lit_inv _ _ _ H).
  - apply in_app_or in H. destruct H as [H|H].
    + exists minor. apply (rmatch_lit_inv _ _ _ H).
    + exists patch. apply (rmatch_lit_inv _ _ _ H).
Qed.

Lemma rmatch_lit_other p q w r :
  ci_eq w q -> length p = length q -> ~ ci_eq q p ->
  rmatch true (lit p) (w ++ r) = [].
Proof.
  intros Hw L N.
  destruct (rmatch_lit_cases p (w ++ r)) as [E|(w' & r' & E & Hc & _)]; [exact E|].
  exfalso. apply N.
  apply app_eq_length in E as [-> _].
  - apply ci_eq_trans with w'; [apply ci_eq_sym; exact Hw | exact Hc].
  - rewrite (ci_eq_length _ _ Hw), (ci_eq_length _ _ Hc). symmetry. exact L.
Qed.

Lemma severity_words_complete S w r :
  ci_eq w (semver_name S) ->
  rmatch true SEVERITY_WORDS (w ++ r) = [MRes w r None].
Proof.
  intros H. unfold SEVERITY_WORDS. rewrite !rmatch_alt.
  destruct S; simpl semver_name in H.
  - rewrite (rmatch_lit _ _ r H).
    rewrite (rmatch_lit_other (js "minor") _ _ r H), (rmatch_lit_other (js "patch") _ _ r H);
      try reflexivity; intros E; discriminate E.
  - rewrite (rmatch_lit _ _ r H).
    rewrite (rmatch_lit_other (js "major") _ _ r H), (rmatch_lit_other (js "patch") _ _ r H);
      try reflexivity; intros E; discriminate E.
  - rewrite (rmatch_lit _ _ r H).
    rewrite (rmatch_lit_other (js "major") _ _ r H), (rmatch_lit_other (js "minor") _ _ r H);
      try reflexivity; intros E; discriminate E.
Qed.

(** Every match of the pattern is a phrase, and group 1 is its severity
    word. *)
Lemma phrase_sound s m :
  In m (rmatch true (source REQUIRED_UPDATE_REGEX) s) ->
  exists S mid,
    ci_eq (consumed m) (phrase S) /\ group1 m = Some mid /\
    ci_eq mid (semver_name S).
Proof.
  rewrite REQUIRED_UPDATE_REGEX_source, rmatch_seq. intros H.
  apply in_flat_map in H. destruct H as (m1 & H1 & H).
  apply in_map_iff in H. destruct H as (m23 & <- & H).
  rewrite rmatch_seq in H.
  apply in_flat_map in H. destruct H as (m2 & H2 & H).
  apply in_map_iff in H. destruct H as (m3 & <- & H3).
  rewrite rmatch_group in H2.
  apply in_map_iff in H2. destruct H2 as (m2' & <- & H2).
  destruct (severity_words_sound _ _ H2) as (S & HS).
  destruct (rmatch_lit_inv _ _ _ H1) as [Hh _].
  destruct (rmatch_lit_inv _ _ _ H3) as [Ht Hg].
  exists S, (consumed m2'). simpl. rewrite Hg. repeat split; auto.
  unfold phrase. repeat apply ci_eq_app; assumption.
Qed.

(** A phrase at the start of the text is matched, in exactly one way. *)
Lemma phrase_complete S w r :
  ci_eq w (phrase S) ->
  exists mid,
    ci_eq mid (semver_name S) /\
    rmatch true (source REQUIRED_UPDATE_REGEX) (w ++ r) = [MRes w r (Some mid)].
Proof.
  unfold phrase. intros H.
  apply ci_eq_app_inv in H. destruct H as (wh & w' & -> & Hh & H).
  apply ci_eq_app_inv in H. destruct H as (mid & wt & -> & Hm & Ht).
  exists mid. split; [exact Hm|].
  rewrite REQUIRED_UPDATE_REGEX_source, rmatch_seq.
  rewrite <- app_assoc, (rmatch_lit _ _ _ Hh).
  cbn [flat_map List.map app rest].
  rewrite rmatch_seq, rmatch_group.
  rewrite <- app_assoc, (severity_words_complete _ _ _ Hm).
  cbn [flat_map List.map app rest consumed].
  rewrite (rmatch_lit _ _ _ Ht).
  cbn [flat_map List.map app rest consumed then_ group1].
  reflexivity.
Qed.

Lemma match_here_phrase S w r :
  ci_eq w (phrase S) ->
  exists mid,
    ci_eq mid (semver_name S) /\
    match_here REQUIRED_UPDATE_REGEX (w ++ r) = Some (MRes w r (Some mid)).
Proof.
  intros H. destruct (phrase_complete S w r H) as (mid & Hm & E).
  exists mid. split; [exact Hm|]. unfold match_here.
  change (ignoreCase REQUIRED_UPDATE_REGEX) with true. rewrite E. reflexivity.
Qed.

Lemma match_here_phrase_inv s m :
  match_here REQUIRED_UPDATE_REGEX s = Some m ->
  exists S mid,
    ci_eq (consumed m) (phrase S) /\ group1 m = Some mid /\
    ci_eq mid (semver_name S).
Proof.
  unfold match_here. change (ignoreCase REQUIRED_UPDATE_REGEX) with true.
  intros H. apply (phrase_sound s).
  destruct (rmatch true (source REQUIRED_UPDATE_REGEX) s); [discriminate|].
  injection H as ->. left; reflexivity.
Qed.

(** ** The captured word in lower case *)

Definition lower_letter (c : N) : Prop := (97 <= c <= 122)%N.

Lemma lower_canonicalize c p :
  lower_letter p -> canonicalize c = canonicalize p -> lower c = p.
Proof.
  unfold lower_letter, canonicalize, lower. intros Hp.
  destruct (N.leb_spec 97 p), (N.leb_spec p 122); try lia.
  destruct (N.leb_spec 97 c), (N.leb_spec c 122),
           (N.leb_spec 65 c), (N.leb_spec c 90); simpl; lia.
Qed.

Lemma toLowerCase_ci_eq w p :
  Forall lower_letter p -> ci_eq w p -> toLowerCase w = p.
Proof.
  intros Hp. revert w. induction Hp as [|x p Hx Hp IH]; intros [|c w] H;
    try discriminate; [reflexivity|].
  unfold ci_eq in H. simpl in H. injection H as Hc H.
  simpl. f_equal; [apply lower_canonicalize; assumption | apply IH; exact H].
Qed.

Lemma semver_name_lower S : Forall lower_letter (semver_name S).
Proof.
  destruct S; repeat constructor; unfold lower_letter; simpl; lia.
Qed.

(** The captured word holds ASCII letters only, and its lower case is the
    name of its severity. *)
Lemma phrase_capture_ascii mid S :
  ci_eq mid (semver_name S) ->
  Forall (fun c => (c < 128)%N) mid /\ toLowerCase mid = semver_name S.
Proof.
  intros H. split; [|apply toLowerCase_ci_eq; [apply semver_name_lower|exact H]].
  pose proof (semver_name_lower S) as L. revert mid H.
  induction L as [|x p Hx Hp IH]; intros [|c w] H; try discriminate; constructor.
  - unfold ci_eq in H. simpl in H. injection H as Hc _.
    unfold lower_letter, canonicalize in *.
    destruct (N.leb_spec 97 x), (N.leb_spec x 122); try lia.
    destruct (N.leb_spec 97 c), (N.leb_spec c 122); simpl in Hc; lia.
  - apply IH. unfold ci_eq in *. simpl in H. injection H as _ H. exact H.
Qed.

(** ** Two phrases never overlap *)

Definition canon_phrase (S : SemverType) : jsstring :=
  List.map canonicalize (phrase S).

Definition overlap_at (S1 S2 : SemverType) (d : nat) : bool :=
  jsstring_eqb (skipn d (canon_phrase S1)) (firstn (33 - d) (canon_phrase S2)).

Definition severities : list SemverType := [major; minor; patch].

Definition no_overlap_check : bool :=
  forallb (fun S1 => forallb (fun S2 =>
    forallb (fun d => negb (overlap_at S1 S2 d)) (seq 1 32)) severities) severities.

Lemma jsstring_eqb_eq a b : jsstring_eqb a b = true <-> a = b.
Proof.
  revert b; induction a as [|x a IH]; intros [|y b]; simpl; split; intros H;
    try reflexivity; try discriminate.
  - apply andb_true_iff in H as [H1 H2]. apply N.eqb_eq in H1. apply IH in H2.
    subst; reflexivity.
  - injection H as -> ->. rewrite N.eqb_refl. apply IH. reflexivity.
Qed.

Lemma in_severities S : In S severities.
Proof. destruct S; simpl; auto. Qed.

Lemma phrase_length S : length (phrase S) = 33.
Proof. destruct S; reflexivity. Qed.

(** A phrase that starts inside another phrase starts at its first
    index. *)
Lemma phrases_do_not_overlap S1 S2 d :
  1 <= d <= 32 ->
  skipn d (canon_phrase S1) <> firstn (33 - d) (canon_phrase S2).
Proof.
  intros Hd E.
  assert (C : no_overlap_check = true) by (vm_compute; reflexivity).
  unfold no_overlap_check in C.
  rewrite forallb_forall in C. specialize (C S1 (in_severities S1)).
  rewrite forallb_forall in C. specialize (C S2 (in_severities S2)).
  rewrite forallb_forall in C. specialize (C d).
  rewrite in_seq in C. specialize (C ltac:(lia)).
  unfold overlap_at in C. apply negb_true_iff in C.
  apply jsstring_eqb_eq in E. congruence.
Qed.

Lemma ci_eq_phrase_length w S : ci_eq w (phrase S) -> length w = 33.
Proof. intros H. rewrite (ci_eq_length _ _ H). apply phrase_length. Qed.

Lemma ci_eq_phrase_inj w S1 S2 :
  ci_eq w (phrase S1) -> ci_eq w (phrase S2) -> S1 = S2.
Proof.
  unfold ci_eq. intros -> H. destruct S1, S2; try reflexivity; discriminate H.
Qed.

(** Where a phrase can lie with respect to another one in the same text:
    it starts earlier, it is the same one, or it lies after its end. *)
Lemma phrase_positions pre w1 r1 u w2 v S1 S2 :
  pre ++ w1 ++ r1 = u ++ w2 ++ v ->
  ci_eq w1 (phrase S1) -> ci_eq w2 (phrase S2) ->
  (exists c l, pre = u ++ c :: l) \/
  (u = pre /\ S1 = S2) \/
  (exists u', r1 = u' ++ w2 ++ v).
Proof.
  intros E H1 H2.
  pose proof (ci_eq_phrase_length _ _ H1) as L1.
  pose proof (ci_eq_phrase_length _ _ H2) as L2.
  apply app_eq_app in E. destruct E as (l & [[Ep E]|[Eu E]]).
  - destruct l as [|c l].
    + right; left. rewrite app_nil_r in Ep. split; [symmetry; exact Ep|].
      simpl in E. symmetry in E. apply app_eq_length in E as [-> _]; [|congruence].
      eapply ci_eq_phrase_inj; eauto.
    + left. exists c, l. exact Ep.
  - destruct l as [|c l].
    + right; left. rewrite app_nil_r in Eu. split; [exact Eu|].
      simpl in E. apply app_eq_length in E as [-> _]; [|congruence].
      eapply ci_eq_phrase_inj; eauto.
    + right; right. apply app_eq_app in E. destruct E as (l' & [[Ew E]|[El E]]).
      * destruct l' as [|c' l'].
        -- exists []. simpl in E. symmetry. exact E.
        -- exfalso. symmetry in E. apply app_eq_app in E.
           assert (Hd : 1 <= length (c :: l) <= 32).
           { subst w1. rewrite length_app in L1. simpl in *. lia. }
           assert (Hy : exists z, w2 = (c' :: l') ++ z).
           { destruct E as (z & [[Ez E]|[Ez E]]).
             - destruct z as [|x z].
               + exists []. rewrite app_nil_r. rewrite app_nil_r in Ez.
                 symmetry; exact Ez.
               + exfalso. subst w1. rewrite Ez in L1.
                 rewrite !length_app in L1. simpl in L1. lia.
             - exists z. exact Ez. }
           destruct Hy as (z & Hz).
           apply (phrases_do_not_overlap S1 S2 (length (c :: l)) Hd).
           unfold canon_phrase. unfold ci_eq in H1, H2. rewrite <- H1, <- H2.
           subst w1 w2. rewrite !map_app.
           rewrite skipn_app, skipn_all2 by (rewrite length_map; lia).
           rewrite length_map, Nat.sub_diag. simpl skipn at 1.
           rewrite firstn_app.
           replace (33 - length (c :: l)) with (length (List.map canonicalize (c' :: l')))
             by (rewrite length_map; rewrite length_app in L1; lia).
           rewrite firstn_all, Nat.sub_diag. simpl firstn.
           rewrite app_nil_r. reflexivity.
      * exists l'. exact E.
Qed.

(* ===================================================================== *)
(** * What the scan collects *)
(* ===================================================================== *)

Lemma set_has_add x y l :
  set_has x (set_add y l) = true <-> x = y \/ set_has x l = true.
Proof.
  induction l as [|z l IH]; simpl.
  - rewrite orb_false_r, jsstring_eqb_eq. intuition discriminate.
  - destruct (jsstring_eqb y z) eqn:E; simpl.
    + apply jsstring_eqb_eq in E. subst z.
      rewrite orb_true_iff, jsstring_eqb_eq. intuition.
    + rewrite !orb_true_iff, IH, jsstring_eqb_eq. intuition.
Qed.

Lemma mentions_here pre w r S :
  ci_eq w (phrase S) -> mentions (pre ++ w ++ r) S.
Proof. intros H. exists pre, w, r. auto. Qed.

Lemma mentions_later pre w r S :
  mentions r S -> mentions (pre ++ w ++ r) S.
Proof.
  intros (u & w' & v & -> & H). exists (pre ++ w ++ u), w', v.
  split; [|exact H]. rewrite <- !app_assoc. reflexivity.
Qed.

(** The scan ends, and it adds exactly the severities whose phrase the
    text contains. *)
Lemma collect_matches_spec : forall n s found,
  length s <= n ->
  exists found',
    collect_matches REQUIRED_UPDATE_REGEX s found = Ok found' /\
    forall x, set_has x found' = true <->
              set_has x found = true \/
              exists S, x = semver_name S /\ mentions s S.
Proof.
  induction n as [|n IH]; intros s found Hn.
  - destruct s; [|simpl in Hn; lia].
    exists found. split; [reflexivity|].
    intros x. split; [auto|]. intros [H|(S & _ & u & w & v & E & H)]; [exact H|].
    apply ci_eq_phrase_length in H.
    symmetry in E. apply app_eq_nil in E as [_ E]. apply app_eq_nil in E as [-> _].
    discriminate.
  - destruct (search REQUIRED_UPDATE_REGEX s) as [[pre m]|] eqn:Hs.
    + destruct (search_some _ _ _ _ Hs) as (E & Hm & Hleft).
      destruct (match_here_phrase_inv _ _ Hm) as (S0 & mid & Hc & Hg & Hmid).
      destruct m as [w r g]. simpl in *. subst g.
      pose proof (ci_eq_phrase_length _ _ Hc) as Lw.
      destruct w as [|c w]; [discriminate|].
      rewrite (collect_matches_some _ _ _ _ _ _ _ _ Hs).
      destruct (phrase_capture_ascii _ _ Hmid) as [_ ->].
      destruct (IH r (set_add (semver_name S0) found)) as (found' & Hf & Hx).
      { subst s. rewrite !length_app in Hn. simpl in *. lia. }
      exists found'. split; [exact Hf|].
      intros x. rewrite Hx, set_has_add. split.
      * intros [[->|H]|(S & -> & H)]; auto.
        -- right. exists S0. split; [reflexivity|]. subst s.
           apply mentions_here. exact Hc.
        -- right. exists S. split; [reflexivity|]. subst s.
           apply mentions_later. exact H.
      * intros [H|(S & -> & u & w2 & v & E2 & H2)]; auto.
        rewrite E in E2.
        destruct (phrase_positions _ _ _ _ _ _ _ _ E2 Hc H2)
          as [(c' & l & Ep)|[[_ <-]|(u' & Er)]].
        -- exfalso. specialize (Hleft _ _ _ Ep).
           assert (Ev : c' :: l ++ (c :: w) ++ r = w2 ++ v).
           { subst pre. rewrite <- app_assoc in E2. apply app_inv_head in E2.
             exact E2. }
           rewrite Ev in Hleft.
           destruct (match_here_phrase _ _ v H2) as (mid' & _ & Hh).
           congruence.
        -- auto.
        -- right. exists S. split; [reflexivity|]. exists u', w2, v. auto.
    + exists found. split; [apply collect_matches_none; exact Hs|].
      intros x. split; [auto|]. intros [H|(S & _ & u & w & v & E & H)]; [exact H|].
      exfalso. pose proof (search_none _ _ Hs u (w ++ v) E) as Hnone.
      destruct (match_here_phrase _ _ v H) as (mid & _ & Hh). congruence.
Qed.

(** The text the scan reads: the cleaned output, cleaned once more. *)
Lemma extractRequiredUpdatesFromText_spec text :
  exists found,
    extractRequiredUpdatesFromText text = Ok found /\
    forall x, set_has x found = true <->
              exists S, x = semver_name S /\ mentions (stripAnsi text) S.
Proof.
  unfold extractRequiredUpdatesFromText. simpl collect_all.
  destruct (collect_matches_spec (length (stripAnsi text)) (stripAnsi text) []
              (le_n _)) as (found & -> & H).
  exists found. split; [reflexivity|].
  intros x. rewrite H. simpl. intuition discriminate.
Qed.

(* ===================================================================== *)
(** * The success phrase *)
(* ===================================================================== *)

Definition all_true (p : N -> bool) (l : jsstring) : Prop :=
  Forall (fun c => p c = true) l.



Lemma in_rmatch_seq ic r1 r2 s m :
  In m (rmatch ic (RSeq r1 r2) s) <->
  exists m1 m2, In m1 (rmatch ic r1 s) /\ In m2 (rmatch ic r2 (rest m1)) /\
                m = then_ m1 m2.
Proof.
  rewrite rmatch_seq, in_flat_map. split.
  - intros (m1 & H1 & H). apply in_map_iff in H. destruct H as (m2 & <- & H2).
    exists m1, m2. auto.
  - intros (m1 & m2 & H1 & H2 & ->). exists m1. split; [exact H1|].
    apply in_map_iff. exists m2. auto.
Qed.











(* ===================================================================== *)
(** * The classification *)
(* ===================================================================== *)

(** The text the scan of [determineSemverType] reads. *)
Definition scanned_text (r : CommandResult) : jsstring :=
  stripAnsi (command_output r).

Definition UNPARSEABLE (r : CommandResult) : exn :=
  new_Error (js "cargo semver-checks failed to produce parseable output:"
               ++ NL ++ command_output r).

Lemma set_has_nonempty l :
  (0 <? length l)%nat = true <-> exists x, set_has x l = true.
Proof.
  destruct l as [|y l]; simpl.
  - split; [discriminate|intros (x & H); discriminate].
  - split; [|reflexivity]. intros _. exists y.
    rewrite (proj2 (jsstring_eqb_eq y y) eq_refl). reflexivity.
Qed.

Lemma semver_name_inj S S' : semver_name S = semver_name S' -> S = S'.
Proof. destruct S, S'; simpl; intros H; try reflexivity; discriminate H. Qed.

(** What [determineSemverType] does, in terms of the phrases of the
    scanned text. *)
Lemma determineSemverType_cases W (r : CommandResult) (st : state W) :
  (status_is_zero r = false /\ (forall S, ~ mentions (scanned_text r) S) /\
   test SUCCESS_REGEX (command_output r) = false /\
   result_of (determineSemverType r st) = Throw (UNPARSEABLE r)) \/
  ((status_is_zero r = true \/ (exists S, mentions (scanned_text r) S) \/
    test SUCCESS_REGEX (command_output r) = true) /\
   ((mentions (scanned_text r) major /\
     result_of (determineSemverType r st) = Ok major) \/
    (~ mentions (scanned_text r) major /\ mentions (scanned_text r) minor /\
     result_of (determineSemverType r st) = Ok minor) \/
    (~ mentions (scanned_text r) major /\ ~ mentions (scanned_text r) minor /\
     result_of (determineSemverType r st) = Ok patch))).
Proof.
  destruct (extractRequiredUpdatesFromText_spec (command_output r))
    as (found & Hf & Hx).
  fold (scanned_text r) in Hx.
  assert (Hmaj : set_has (js "major") found = true <-> mentions (scanned_text r) major).
  { rewrite Hx. split.
    - intros (S & E & H). apply (semver_name_inj major S) in E. subst S. exact H.
    - intros H. exists major. auto. }
  assert (Hmin : set_has (js "minor") found = true <-> mentions (scanned_text r) minor).
  { rewrite Hx. split.
    - intros (S & E & H). apply (semver_name_inj minor S) in E. subst S. exact H.
    - intros H. exists minor. auto. }
  assert (Hany : (0 <? length found)%nat = true <-> exists S, mentions (scanned_text r) S).
  { rewrite set_has_nonempty. split.
    - intros (x & H). apply Hx in H. destruct H as (S & _ & H). exists S. exact H.
    - intros (S & H). exists (semver_name S). apply Hx. exists S. auto. }
  unfold determineSemverType, result_of, bind, lift. rewrite Hf.
  destruct (status_is_zero r) eqn:Est;
  destruct (0 <? length found)%nat eqn:Eany;
  destruct (test SUCCESS_REGEX (command_output r)) eqn:Etest; simpl negb; simpl andb; cbv iota.
  all: try (left; repeat split; try reflexivity;
            intros S HS;
            assert (false = true) by (apply Hany; exists S; exact HS);
            discriminate).
  all: right; split;
    [ first [ left; reflexivity
            | right; left; apply Hany; reflexivity
            | right; right; reflexivity ] | ].
  all: unfold info, emit; cbv beta iota;
    destruct (set_has (js "major") found) eqn:Emaj;
    [ left; split; [apply Hmaj; reflexivity | reflexivity] | right ];
    destruct (set_has (js "minor") found) eqn:Emin;
    [ left | right ];
    (split; [intros H; apply Hmaj in H; discriminate|]);
    (split; [first [apply Hmin; reflexivity | intros H; apply Hmin in H; discriminate]|]);
    reflexivity.
Qed.

(* ===================================================================== *)
(** * Escape sequences *)
(* ===================================================================== *)

(** ESC, [[], digits and semicolons, [m]. *)
Definition ansi_sequence (w : jsstring) : Prop :=
  exists ds, all_true digit_or_semicolon ds /\
             w = ANSI_ESCAPE :: 91%N :: ds ++ [109%N].

(** The start of an escape sequence, up to any point before its [m]. *)
Definition open_sequence (t : jsstring) : Prop :=
  t = [ANSI_ESCAPE] \/
  exists ds, all_true digit_or_semicolon ds /\ t = ANSI_ESCAPE :: 91%N :: ds.

(** The end of the text [u] lies inside an escape sequence. *)
Definition inside_sequence (u : jsstring) : Prop :=
  exists u' t, u = u' ++ t /\ open_sequence t.

Lemma star_class_sound ic p : forall s m,
  In m (star ic (AClass p) s) -> all_true p (fst m) /\ s = fst m ++ snd m.
Proof.
  induction s as [|c s IH]; simpl; intros m H.
  - destruct H as [<-|[]]. split; [constructor|reflexivity].
  - destruct (p c) eqn:E.
    + apply in_app_or in H. destruct H as [H|[<-|[]]].
      * apply in_map_iff in H. destruct H as (m' & <- & H).
        destruct (IH _ H) as [Ha Hs]. simpl. split; [constructor; auto|].
        f_equal. exact Hs.
      * split; [constructor|reflexivity].
    + destruct H as [<-|[]]. split; [constructor|reflexivity].
Qed.

(** The longest run comes first. *)
Lemma star_class_greedy ic p ds c r :
  all_true p ds -> p c = false ->
  exists more, star ic (AClass p) (ds ++ c :: r) = (ds, c :: r) :: more.
Proof.
  intros Hds Hc. induction Hds as [|d ds Hd Hds IH]; simpl.
  - rewrite Hc. exists []. reflexivity.
  - rewrite Hd. destruct IH as (more & ->). simpl. eexists. reflexivity.
Qed.

Lemma run_split_unique p ds ds' x y r r' :
  all_true p ds -> all_true p ds' -> p x = false -> p y = false ->
  ds ++ x :: r = ds' ++ y :: r' -> ds = ds' /\ x = y /\ r = r'.
Proof.
  intros Hds. revert ds'. induction Hds as [|d ds Hd Hds IH];
    intros ds' Hds' Hx Hy E; destruct Hds' as [|d' ds' Hd' Hds']; simpl in E.
  - injection E as -> ->. auto.
  - injection E as -> _. congruence.
  - injection E as -> _. congruence.
  - injection E as -> E. destruct (IH _ Hds' Hx Hy E) as (-> & -> & ->). auto.
Qed.

Lemma run_split p (l : jsstring) :
  exists ds rem, l = ds ++ rem /\ all_true p ds /\
    (rem = [] \/ exists x rem', rem = x :: rem' /\ p x = false).
Proof.
  induction l as [|c l (ds & rem & -> & Hds & Hrem)].
  - exists [], []. repeat split; auto. constructor.
  - destruct (p c) eqn:E.
    + exists (c :: ds), rem. repeat split; auto. constructor; assumption.
    + exists [], (c :: ds ++ rem). repeat split; [constructor|].
      right. eauto.
Qed.

Lemma ANSI_ESCAPE_REGEX_source :
  source ANSI_ESCAPE_REGEX =
  RSeq (RAtom (AChar ANSI_ESCAPE))
    (RSeq (RAtom (AChar 91%N))
      (RSeq (RStar (AClass digit_or_semicolon)) (RAtom (AChar 109%N)))).
Proof. reflexivity. Qed.

Lemma in_rmatch_char c s m :
  In m (rmatch false (RAtom (AChar c)) s) <-> s = c :: rest m /\ m = MRes [c] (rest m) None.
Proof.
  simpl. destruct s as [|x s];
    [split; [contradiction|intros [E _]; discriminate]|].
  destruct (N.eqb_spec c x) as [->|Hn]; simpl.
  - split.
    + intros [<-|[]]. auto.
    + intros [E Em]. injection E as E. rewrite Em, <- E. left; reflexivity.
  - split; [contradiction|]. intros [E _]. congruence.
Qed.

(** Every match of the pattern is an escape sequence. *)
Lemma ansi_sound s m :
  In m (rmatch false (source ANSI_ESCAPE_REGEX) s) ->
  ansi_sequence (consumed m) /\ group1 m = None.
Proof.
  rewrite ANSI_ESCAPE_REGEX_source. intros H.
  apply in_rmatch_seq in H. destruct H as (m1 & m' & H1 & H & ->).
  apply in_rmatch_seq in H. destruct H as (m2 & m'' & H2 & H & ->).
  apply in_rmatch_seq in H. destruct H as (m3 & m4 & H3 & H4 & ->).
  apply in_rmatch_char in H1. destruct H1 as [_ ->].
  apply in_rmatch_char in H2. destruct H2 as [_ ->].
  apply in_rmatch_char in H4. destruct H4 as [_ ->].
  simpl in H3. apply in_map_iff in H3. destruct H3 as (q & <- & H3).
  apply star_class_sound in H3. destruct H3 as [Hds _].
  simpl. split; [|reflexivity]. exists (fst q). auto.
Qed.

(** An escape sequence at the start of the text is the match there. *)
Lemma match_here_ansi w r :
  ansi_sequence w -> match_here ANSI_ESCAPE_REGEX (w ++ r) = Some (MRes w r None).
Proof.
  intros (ds & Hds & ->). unfold match_here.
  change (ignoreCase ANSI_ESCAPE_REGEX) with false.
  rewrite ANSI_ESCAPE_REGEX_source.
  cbn [app]. rewrite <- app_assoc. cbn [app].
  destruct (star_class_greedy false digit_or_semicolon ds 109%N r Hds eq_refl)
    as (more & E).
  cbn [rmatch atom_ok flat_map List.map rest app].
  rewrite N.eqb_refl.
  cbn [flat_map List.map rest app N.eqb Pos.eqb]. rewrite E.
  cbn [flat_map List.map rest app N.eqb Pos.eqb no_group fst snd hd_error
       then_ consumed group1].
  reflexivity.
Qed.

Lemma match_here_ansi_inv s m :
  match_here ANSI_ESCAPE_REGEX s = Some m ->
  ansi_sequence (consumed m) /\ group1 m = None /\ s = consumed m ++ rest m.
Proof.
  intros H. pose proof (match_here_split _ _ _ H) as E.
  unfold match_here in H. change (ignoreCase ANSI_ESCAPE_REGEX) with false in H.
  destruct (rmatch false (source ANSI_ESCAPE_REGEX) s) as [|m' l] eqn:R;
    [discriminate|]. injection H as ->.
  destruct (ansi_sound s m) as [Ha Hg]; [rewrite R; left; reflexivity|].
  auto.
Qed.

Lemma match_here_ansi_other c s :
  c <> ANSI_ESCAPE -> match_here ANSI_ESCAPE_REGEX (c :: s) = None.
Proof.
  intros Hc. destruct (match_here ANSI_ESCAPE_REGEX (c :: s)) as [m|] eqn:E;
    [|reflexivity].
  apply match_here_ansi_inv in E. destruct E as ((ds & _ & Ew) & _ & E).
  rewrite Ew in E. injection E as E _. congruence.
Qed.

(** ** Stripping *)

Lemma ansi_sequence_nonempty w : ansi_sequence w -> exists c w', w = c :: w'.
Proof. intros (ds & _ & ->). eauto. Qed.

(** A code unit that starts no escape sequence is kept. *)
Lemma stripAnsi_keep c s :
  match_here ANSI_ESCAPE_REGEX (c :: s) = None ->
  stripAnsi (c :: s) = c :: stripAnsi s.
Proof.
  intros H. unfold stripAnsi.
  pose proof (search_skip ANSI_ESCAPE_REGEX c s H) as E.
  destruct (search ANSI_ESCAPE_REGEX s) as [[pre m]|] eqn:Es.
  - destruct (search_some _ _ _ _ Es) as (_ & Hm & _).
    apply match_here_ansi_inv in Hm. destruct Hm as (Ha & _ & _).
    destruct m as [w r g]. simpl in Ha.
    destruct (ansi_sequence_nonempty _ Ha) as (x & w' & ->).
    rewrite (replace_g_some _ _ _ _ _ _ _ _ E).
    rewrite (replace_g_some _ _ _ _ _ _ _ _ Es). reflexivity.
  - rewrite (replace_g_none _ _ _ E), (replace_g_none _ _ _ Es). reflexivity.
Qed.

(** An escape sequence at the start of the text is removed. *)
Lemma stripAnsi_sequence w s :
  ansi_sequence w -> stripAnsi (w ++ s) = stripAnsi s.
Proof.
  intros H. pose proof (match_here_ansi w s H) as Hm.
  apply search_here in Hm.
  destruct (ansi_sequence_nonempty _ H) as (x & w' & E). subst w.
  unfold stripAnsi. rewrite (replace_g_some _ _ _ _ _ _ _ _ Hm). reflexivity.
Qed.

Lemma inside_sequence_cons c u : inside_sequence u -> inside_sequence (c :: u).
Proof. intros (u' & t & -> & H). exists (c :: u'), t. auto. Qed.

Lemma inside_sequence_app a u : inside_sequence u -> inside_sequence (a ++ u).
Proof.
  intros (u' & t & -> & H). exists (a ++ u'), t. rewrite app_assoc. auto.
Qed.

(** What the text after a point does to a match before it: unless the
    text up to the point is itself the start of an escape sequence, the
    match at its first index is decided by that text alone. *)
Lemma ansi_here_local u :
  ~ open_sequence u ->
  (exists w u', u = w ++ u' /\ ansi_sequence w) \/
  (forall x, u ++ x <> [] -> match_here ANSI_ESCAPE_REGEX (u ++ x) = None) \/
  u = [].
Proof.
  intros Hopen. destruct u as [|c u]; [right; right; reflexivity|].
  destruct (N.eq_dec c ANSI_ESCAPE) as [->|Hc].
  2:{ right; left. intros x _. apply match_here_ansi_other. exact Hc. }
  destruct u as [|c2 u].
  { exfalso. apply Hopen. left. reflexivity. }
  assert (Hfail : forall x y rem,
    (c2 <> 91%N \/ exists ds, all_true digit_or_semicolon ds /\
        u = ds ++ y :: rem /\ digit_or_semicolon y = false /\ y <> 109%N) ->
    match_here ANSI_ESCAPE_REGEX ((ANSI_ESCAPE :: c2 :: u) ++ x) = None).
  { intros x y rem Hcase.
    destruct (match_here ANSI_ESCAPE_REGEX ((ANSI_ESCAPE :: c2 :: u) ++ x))
      as [m|] eqn:E; [exfalso|reflexivity].
    apply match_here_ansi_inv in E. destruct E as ((ds' & Hds' & Ew) & _ & E).
    rewrite Ew in E. simpl in E. injection E as E2 E.
    destruct Hcase as [Hn|(ds & Hds & -> & Hy & Hy')]; [congruence|].
    rewrite <- !app_assoc in E. simpl in E.
    destruct (run_split_unique digit_or_semicolon ds ds' y 109%N _ _ Hds Hds'
                Hy eq_refl E) as (_ & E' & _).
    congruence. }
  destruct (N.eq_dec c2 91%N) as [->|Hc2].
  2:{ right; left. intros x _. apply (Hfail x 0%N []). left. exact Hc2. }
  destruct (run_split digit_or_semicolon u) as (ds & rem & -> & Hds & Hrem).
  destruct Hrem as [->|(y & rem' & -> & Hy)].
  { exfalso. apply Hopen. right. exists ds. rewrite app_nil_r. auto. }
  destruct (N.eq_dec y 109%N) as [->|Hy'].
  - left. exists (ANSI_ESCAPE :: 91%N :: ds ++ [109%N]), rem'.
    split; [simpl; rewrite <- app_assoc; reflexivity|]. exists ds. auto.
  - right; left. intros x _. apply (Hfail x y rem'). right. exists ds. auto.
Qed.

(** Inserting an escape sequence at a point that is not inside an escape
    sequence leaves the stripped text as it was. *)
Lemma stripAnsi_insert : forall n u w v,
  length u <= n -> ansi_sequence w -> ~ inside_sequence u ->
  stripAnsi (u ++ w ++ v) = stripAnsi (u ++ v).
Proof.
  induction n as [|n IH]; intros u w v Hn Hw Hu.
  - destruct u; [|simpl in Hn; lia]. simpl. apply stripAnsi_sequence. exact Hw.
  - destruct (ansi_here_local u) as [(w0 & u' & -> & Hw0)|[Hnone| ->]].
    + intros Ho. apply Hu. exists [], u. auto.
    + rewrite <- !app_assoc. rewrite !(stripAnsi_sequence _ _ Hw0).
      apply IH; auto.
      * destruct (ansi_sequence_nonempty _ Hw0) as (x & w' & ->).
        rewrite length_app in Hn. simpl in Hn. lia.
      * intros Hi. apply Hu. apply inside_sequence_app. exact Hi.
    + destruct u as [|c u]; [simpl; apply stripAnsi_sequence; exact Hw|].
      simpl. rewrite !stripAnsi_keep.
      * f_equal. apply IH; auto; [simpl in Hn; lia|].
        intros Hi. apply Hu. apply inside_sequence_cons. exact Hi.
      * apply (Hnone v). discriminate.
      * apply (Hnone (w ++ v)). discriminate.
    + simpl. apply stripAnsi_sequence. exact Hw.
Qed.

(** A text obtained from another by inserting escape sequences one at a
    time, each at a point that is not inside an escape sequence of the
    text as it then is. *)
Inductive escaped : jsstring -> jsstring -> Prop :=
| escaped_same s : escaped s s
| escaped_insert u w v s' :
    ansi_sequence w -> ~ inside_sequence u ->
    escaped (u ++ w ++ v) s' -> escaped (u ++ v) s'.

(** The same with no condition on the point of insertion. *)
Inductive escaped_anywhere : jsstring -> jsstring -> Prop :=
| anywhere_same s : escaped_anywhere s s
| anywhere_insert u w v s' :
    ansi_sequence w ->
    escaped_anywhere (u ++ w ++ v) s' -> escaped_anywhere (u ++ v) s'.

Lemma open_sequence_head t :
  open_sequence t -> exists t', t = ANSI_ESCAPE :: t' /\ ~ In 10%N t'.
Proof.
  intros [->|(ds & Hds & ->)].
  - exists []. split; [reflexivity|]. intros [].
  - exists (91%N :: ds). split; [reflexivity|].
    intros [H|H]; [discriminate|].
    unfold all_true in Hds. rewrite Forall_forall in Hds.
    specialize (Hds _ H). discriminate.
Qed.

(** A line feed closes whatever came before it. *)
Lemma inside_sequence_after_line a u :
  inside_sequence (a ++ NL ++ u) -> inside_sequence u.
Proof.
  intros (u' & t & E & Ht).
  destruct (open_sequence_head t Ht) as (t' & -> & Hnl).
  apply app_eq_app in E. destruct E as (l & [[Ea E]|[Eu E]]).
  - exfalso. destruct l as [|x l]; simpl in E.
    + discriminate.
    + injection E as <- E. apply Hnl. rewrite E, in_app_iff. right. left. reflexivity.
  - destruct l as [|x l]; simpl in E.
    + discriminate.
    + injection E as <- E. exists l, (ANSI_ESCAPE :: t'). auto.
Qed.

Definition open_sequenceb (t : jsstring) : bool :=
  match t with
  | c :: t' =>
      N.eqb c ANSI_ESCAPE &&
      match t' with
      | [] => true
      | c' :: ds => N.eqb c' 91 && forallb digit_or_semicolon ds
      end
  | [] => false
  end.

Fixpoint inside_sequenceb (u : jsstring) : bool :=
  open_sequenceb u ||
  match u with
  | [] => false
  | _ :: u' => inside_sequenceb u'
  end.

Lemma open_sequenceb_complete t : open_sequence t -> open_sequenceb t = true.
Proof.
  intros [->|(ds & Hds & ->)]; [reflexivity|]. simpl.
  apply forallb_forall. intros x Hx.
  unfold all_true in Hds. rewrite Forall_forall in Hds. auto.
Qed.

Lemma inside_sequenceb_complete u :
  inside_sequenceb u = false -> ~ inside_sequence u.
Proof.
  intros H (u' & t & -> & Ht). induction u' as [|c u' IH].
  - change ([] ++ t) with t in H.
    pose proof (open_sequenceb_complete _ Ht) as Ho.
    destruct t as [|c t]; [discriminate Ho|].
    cbn [inside_sequenceb] in H. apply orb_false_iff in H as [H _].
    congruence.
  - cbn [app inside_sequenceb] in H. apply orb_false_iff in H as [_ H]. auto.
Qed.

Lemma stripAnsi_escaped_left s s' b :
  escaped s s' -> stripAnsi (s' ++ b) = stripAnsi (s ++ b).
Proof.
  induction 1 as [s|u w v s' Hw Hu _ IH]; [reflexivity|].
  rewrite IH, <- !app_assoc.
  apply (stripAnsi_insert (length u)); auto.
Qed.

Lemma stripAnsi_escaped_right a s s' :
  escaped s s' -> stripAnsi (a ++ NL ++ s') = stripAnsi (a ++ NL ++ s).
Proof.
  induction 1 as [s|u w v s' Hw Hu _ IH]; [reflexivity|].
  rewrite IH. rewrite !(app_assoc a), !(app_assoc (a ++ NL)).
  apply (stripAnsi_insert (length ((a ++ NL) ++ u))); auto.
  intros Hi. apply Hu. apply (inside_sequence_after_line a).
  rewrite app_assoc. exact Hi.
Qed.

Lemma or_str_nil s : or_str s [] = s.
Proof. destruct s; reflexivity. Qed.

Lemma command_output_escaped status out err out' err' :
  escaped out out' -> escaped err err' ->
  command_output (mkCommandResult status out' err') =
  command_output (mkCommandResult status out err).
Proof.
  intros Ho He. unfold command_output. simpl. rewrite !or_str_nil.
  rewrite (stripAnsi_escaped_left _ _ _ Ho), (stripAnsi_escaped_right _ _ _ He).
  reflexivity.
Qed.

(** The scan finds a severity exactly when the scanned text has its
    phrase. *)
Lemma mentions_scanned r S :
  mentions (scanned_text r) S <->
  exists found, extractRequiredUpdatesFromText (command_output r) = Ok found /\
                set_has (semver_name S) found = true.
Proof.
  destruct (extractRequiredUpdatesFromText_spec (command_output r))
    as (found & Hf & Hx). fold (scanned_text r) in Hx. split.
  - intros H. exists found. split; [exact Hf|]. apply Hx. exists S. auto.
  - intros (found' & Hf' & H). rewrite Hf in Hf'. injection Hf' as <-.
    apply Hx in H. destruct H as (S' & E & H).
    apply semver_name_inj in E. subst S'. exact H.
Qed.

Definition rank (t : SemverType) : nat :=
  match t with
  | major => 2
  | minor => 1
  | patch => 0
  end.

(** [t] is the highest of the severities that are [present], or [patch]
    when none is. *)
Definition highest_of (present : SemverType -> Prop) (t : SemverType) : Prop :=
  (present t /\ forall t', present t' -> rank t' <= rank t) \/
  ((forall t', ~ present t') /\ t = patch).


Lemma mentions_scanned_dec r S :
  mentions (scanned_text r) S \/ ~ mentions (scanned_text r) S.
Proof.
  destruct (extractRequiredUpdatesFromText_spec (command_output r))
    as (found & Hf & Hx). fold (scanned_text r) in Hx.
  destruct (set_has (semver_name S) found) eqn:E.
  - left. apply mentions_scanned. exists found. auto.
  - right. intros H. apply mentions_scanned in H.
    destruct H as (found' & Hf' & H). congruence.
Qed.

(** ** One pass over the text *)

(** One step of [stripAnsi]: either the text has no escape sequence and
    is left as it is, or the text up to the first escape sequence is kept,
    the sequence is dropped and the rest is cleaned. *)
Lemma stripAnsi_step s :
  (stripAnsi s = s /\
   forall u v, s = u ++ v -> match_here ANSI_ESCAPE_REGEX v = None) \/
  (exists pre w r,
     s = pre ++ w ++ r /\ ansi_sequence w /\
     stripAnsi s = pre ++ stripAnsi r /\
     forall u c v, pre = u ++ c :: v ->
       match_here ANSI_ESCAPE_REGEX (c :: v ++ w ++ r) = None).
Proof.
  destruct (search ANSI_ESCAPE_REGEX s) as [[pre m]|] eqn:Es.
  - right. destruct (search_some _ _ _ _ Es) as (E & Hm & Hleft).
    apply match_here_ansi_inv in Hm. destruct Hm as (Ha & _ & _).
    destruct m as [w r g]. cbn [consumed rest] in *.
    exists pre, w, r. split; [exact E|]. split; [exact Ha|]. split; [|exact Hleft].
    destruct (ansi_sequence_nonempty _ Ha) as (x & w' & ->).
    unfold stripAnsi. rewrite (replace_g_some _ _ _ _ _ _ _ _ Es). reflexivity.
  - left. split.
    + unfold stripAnsi. apply replace_g_none. exact Es.
    + apply search_none. exact Es.
Qed.

(** Modelled from the spec: the text stripped of its escape sequences
    (ESC, [[], digits and semicolons, [m]) in one pass from left to right:
    the first escape sequence of the text is taken out, and then the
    escape sequences of the text after it; what the pass puts together is
    not looked at again. *)
Inductive stripped : jsstring -> jsstring -> Prop :=
| stripped_none s :
    (forall u w v, s = u ++ w ++ v -> ~ ansi_sequence w) -> stripped s s
| stripped_first u w v t :
    ansi_sequence w ->
    (forall u' w' v', u ++ w ++ v = u' ++ w' ++ v' -> ansi_sequence w' ->
                      length u <= length u') ->
    stripped v t -> stripped (u ++ w ++ v) (u ++ t).

Lemma app_split_shorter (pre x u y : jsstring) :
  pre ++ x = u ++ y -> length u < length pre ->
  exists c k, pre = u ++ c :: k /\ y = c :: k ++ x.
Proof.
  intros E L. apply app_eq_app in E. destruct E as (l & [[E1 E2]|[E1 E2]]).
  - destruct l as [|c k].
    + rewrite E1, app_nil_r in L. lia.
    + exists c, k. auto.
  - rewrite E1, length_app in L. lia.
Qed.

Lemma stripAnsi_stripped_upto : forall n s, length s <= n -> stripped s (stripAnsi s).
Proof.
  induction n as [|n IH]; intros s Hn;
    destruct (stripAnsi_step s) as [[-> Hnone]|(pre & w & r & -> & Hw & -> & Hleft)].
  - apply stripped_none. intros u w v E Hw.
    specialize (Hnone u (w ++ v) E). rewrite (match_here_ansi _ _ Hw) in Hnone.
    discriminate.
  - destruct (ansi_sequence_nonempty _ Hw) as (x & w' & ->).
    rewrite !length_app in Hn. simpl in Hn. lia.
  - apply stripped_none. intros u w v E Hw.
    specialize (Hnone u (w ++ v) E). rewrite (match_here_ansi _ _ Hw) in Hnone.
    discriminate.
  - apply stripped_first; [exact Hw| |].
    + intros u' w' v' E Hw'.
      destruct (Nat.le_gt_cases (length pre) (length u')) as [L|L]; [exact L|].
      exfalso. destruct (app_split_shorter _ _ _ _ E L) as (c & k & Ep & Ey).
      specialize (Hleft _ _ _ Ep). rewrite <- Ey in Hleft.
      rewrite (match_here_ansi _ _ Hw') in Hleft. discriminate.
    + apply IH. destruct (ansi_sequence_nonempty _ Hw) as (x & w' & ->).
      rewrite !length_app in Hn. simpl in Hn. lia.
Qed.

(** [stripAnsi] is that pass. *)
Lemma stripAnsi_stripped s : stripped s (stripAnsi s).
Proof. apply (stripAnsi_stripped_upto (length s)). apply le_n. Qed.

(** The pass has one result. *)
Lemma stripped_unique s t : stripped s t -> forall t', stripped s t' -> t = t'.
Proof.
  induction 1 as [s Hs|u w v t Hw Hu Hv IH]; intros t' H'.
  - inversion H' as [s' _ E1 E2|u' w' v' t0 Hw' _ _ E1 E2]; [reflexivity|].
    subst s. destruct (Hs _ _ _ eq_refl Hw').
  - remember (u ++ w ++ v) as s eqn:Es.
    destruct H' as [s Hs|u' w' v' t0 Hw' Hu' Hv'].
    + subst s. destruct (Hs _ _ _ eq_refl Hw).
    + pose proof (Hu _ _ _ eq_refl Hw') as L1.
      pose proof (Hu' _ _ _ Es Hw) as L2.
      destruct (app_eq_length _ _ _ _ Es (Nat.le_antisymm _ _ L2 L1)) as [-> E].
      pose proof (match_here_ansi _ v' Hw') as M1.
      pose proof (match_here_ansi _ v Hw) as M2.
      rewrite E, M2 in M1. injection M1 as -> ->.
      f_equal. apply IH. exact Hv'.
Qed.

Lemma stripAnsi_plain s : ~ In ANSI_ESCAPE s -> stripAnsi s = s.
Proof.
  intros Hn. apply (stripped_unique s); [apply stripAnsi_stripped|].
  apply stripped_none. intros u w v -> (ds & _ & ->). apply Hn.
  apply in_or_app. right. left. reflexivity.
Qed.

Lemma trimStart_split s :
  exists ws, s = ws ++ trimStart s /\ all_true is_space ws.
Proof.
  induction s as [|c s (ws & E & H)]; [exists []; split; [reflexivity|constructor]|].
  simpl. destruct (is_space c) eqn:Ec.
  - exists (c :: ws). split; [simpl; f_equal; exact E|constructor; assumption].
  - exists []. split; [reflexivity|constructor].
Qed.

Lemma trimEnd_split s :
  exists ws, s = trimEnd s ++ ws /\ all_true is_space ws.
Proof.
  destruct (trimStart_split (rev s)) as (ws & E & H).
  exists (rev ws). split.
  - unfold trimEnd. rewrite <- rev_app_distr, <- E, rev_involutive. reflexivity.
  - apply Forall_rev. exact H.
Qed.

Lemma trim_split s :
  exists ws1 ws2, s = ws1 ++ trim s ++ ws2 /\
                  all_true is_space ws1 /\ all_true is_space ws2.
Proof.
  destruct (trimStart_split s) as (ws1 & E1 & H1).
  destruct (trimEnd_split (trimStart s)) as (ws2 & E2 & H2).
  exists ws1, ws2. unfold trim. rewrite <- E2. auto.
Qed.

(** The first and the last code unit of a phrase are letters, and no
    code unit of it is a line feed. *)
Lemma phrase_first c w S : ci_eq (c :: w) (phrase S) -> is_space c = false.
Proof.
  unfold ci_eq. intros H.
  assert (E : canonicalize c = 83%N) by (destruct S; injection H as H _; exact H).
  unfold canonicalize in E.
  destruct ((97 <=? c) && (c <=? 122))%N eqn:B.
  - assert (c = 115%N) by lia. subst c. reflexivity.
  - subst c. reflexivity.
Qed.

Lemma phrase_last c w S : ci_eq (w ++ [c]) (phrase S) -> is_space c = false.
Proof.
  unfold ci_eq. rewrite map_app. intros H.
  assert (E : canonicalize c = 78%N).
  { destruct S;
      match type of H with
      | _ = ?L =>
          change L with (removelast L ++ [78%N]) in H
      end; apply app_inj_tail in H as [_ H]; exact H. }
  unfold canonicalize in E.
  destruct ((97 <=? c) && (c <=? 122))%N eqn:B.
  - assert (c = 110%N) by lia. subst c. reflexivity.
  - subst c. reflexivity.
Qed.

Lemma phrase_no_line_feed w S : ci_eq w (phrase S) -> ~ In 10%N w.
Proof.
  unfold ci_eq. intros H Hi.
  apply (in_map canonicalize) in Hi. rewrite H in Hi.
  change (canonicalize 10) with 10%N in Hi.
  destruct S; cbn in Hi;
    repeat (destruct Hi as [Hi|Hi]; [discriminate Hi|]); exact Hi.
Qed.

Lemma phrase_nonempty w S : ci_eq w (phrase S) -> w <> [].
Proof. intros H ->. apply ci_eq_phrase_length in H. discriminate. Qed.

Lemma mentions_after_space c t S :
  is_space c = true -> (mentions (c :: t) S <-> mentions t S).
Proof.
  intros Hc. split.
  - intros (u & w & v & E & H). destruct u as [|x u].
    + destruct w as [|x w]; [destruct (phrase_nonempty _ _ H eq_refl)|].
      simpl in E. injection E as <- _.
      rewrite (phrase_first _ _ _ H) in Hc. discriminate.
    + simpl in E. injection E as _ ->. exists u, w, v. auto.
  - intros (u & w & v & -> & H). exists (c :: u), w, v. auto.
Qed.

Lemma mentions_before_space c t S :
  is_space c = true -> (mentions (t ++ [c]) S <-> mentions t S).
Proof.
  intros Hc. split.
  - intros (u & w & v & E & H). induction v as [|x v _] using rev_ind.
    + exfalso. destruct (exists_last (phrase_nonempty _ _ H)) as (w' & x & ->).
      rewrite app_nil_r, app_assoc in E. apply app_inj_tail in E as [_ <-].
      rewrite (phrase_last _ _ _ H) in Hc. discriminate.
    + rewrite !app_assoc in E. apply app_inj_tail in E as [-> _].
      exists u, w, v. rewrite <- app_assoc. auto.
  - intros (u & w & v & -> & H). exists u, w, (v ++ [c]).
    rewrite <- !app_assoc. auto.
Qed.

Lemma mentions_margins ws1 ws2 t S :
  all_true is_space ws1 -> all_true is_space ws2 ->
  (mentions (ws1 ++ t ++ ws2) S <-> mentions t S).
Proof.
  intros H1 H2. induction H1 as [|c ws1 Hc _ IH].
  - simpl. induction ws2 as [|c ws2 IH] using rev_ind.
    + rewrite app_nil_r. reflexivity.
    + apply Forall_app in H2 as [H2 Hc]. inversion Hc as [|? ? Hc' _]; subst.
      rewrite app_assoc, (mentions_before_space _ _ _ Hc'). apply IH. exact H2.
  - simpl. rewrite (mentions_after_space _ _ _ Hc). exact IH.
Qed.

(** Trimming takes no phrase away and brings none. *)
Lemma mentions_trim s S : mentions (trim s) S <-> mentions s S.
Proof.
  destruct (trim_split s) as (ws1 & ws2 & E & H1 & H2).
  rewrite E at 2. symmetry. apply mentions_margins; assumption.
Qed.

(** A phrase lies on one side of a line feed. *)
Lemma mentions_lines a b S :
  mentions (a ++ NL ++ b) S <-> mentions a S \/ mentions b S.
Proof.
  split.
  - intros (u & w & v & E & H). pose proof (phrase_no_line_feed _ _ H) as Hn.
    apply app_eq_app in E. destruct E as (l & [[Ea E]|[Eu E]]).
    + apply app_eq_app in E. destruct E as (l' & [[Ew E]|[El E]]).
      * destruct l' as [|x l'].
        -- left. rewrite app_nil_r in Ew. subst w.
           exists u, l, []. rewrite Ea, app_nil_r. auto.
        -- exfalso. apply Hn. simpl in E. injection E as <- _.
           rewrite Ew. apply in_or_app. right. left. reflexivity.
      * left. exists u, w, l'. rewrite Ea, El. auto.
    + destruct l as [|x l].
      * exfalso. simpl in E. destruct w as [|y w];
          [exact (phrase_nonempty _ _ H eq_refl)|].
        apply Hn. injection E as <- _. left. reflexivity.
      * right. simpl in E. injection E as _ ->. exists l, w, v. auto.
  - intros [(u & w & v & -> & H)|(u & w & v & -> & H)].
    + exists u, w, (v ++ NL ++ b). rewrite <- !app_assoc. auto.
    + exists (a ++ NL ++ u), w, v. rewrite <- !app_assoc. auto.
Qed.

Lemma trim_incl s x : In x (trim s) -> In x s.
Proof.
  destruct (trim_split s) as (ws1 & ws2 & E & _). intros H. rewrite E.
  apply in_or_app. right. apply in_or_app. left. exact H.
Qed.

(** The text the scan reads, for streams without the escape character:
    the two streams, a line feed between them, without the white space
    around. *)
Lemma scanned_text_plain r :
  ~ In ANSI_ESCAPE (cmd_stdout r) -> ~ In ANSI_ESCAPE (cmd_stderr r) ->
  scanned_text r = trim (cmd_stdout r ++ NL ++ cmd_stderr r).
Proof.
  intros Ho He. unfold scanned_text, command_output. rewrite !or_str_nil.
  assert (Hn : ~ In ANSI_ESCAPE (cmd_stdout r ++ NL ++ cmd_stderr r)).
  { intros H. apply in_app_or in H. destruct H as [H|H]; [exact (Ho H)|].
    apply in_app_or in H. destruct H as [[H|[]]|H]; [discriminate|exact (He H)]. }
  rewrite (stripAnsi_plain _ Hn). apply stripAnsi_plain.
  intros H. apply Hn. apply trim_incl. exact H.
Qed.

(** A severity whose phrase one of the streams has. *)
Definition reported (r : CommandResult) (S : SemverType) : Prop :=
  mentions (cmd_stdout r) S \/ mentions (cmd_stderr r) S.

(** The scan of a text finds a severity exactly when the text has its
    phrase. *)
Lemma mentions_collect s S found :
  collect_matches REQUIRED_UPDATE_REGEX s [] = Ok found ->
  (mentions s S <-> set_has (semver_name S) found = true).
Proof.
  destruct (collect_matches_spec (length s) s [] (le_n _)) as (found' & -> & Hx).
  intros E. injection E as <-. rewrite Hx. split.
  - intros H. right. exists S. auto.
  - intros [H|(S' & E & H)]; [discriminate H|].
    apply semver_name_inj in E. subst S'. exact H.
Qed.

Definition ESC_RED : jsstring := ANSI_ESCAPE :: js "[31m".
Definition ESC_RESET : jsstring := ANSI_ESCAPE :: js "[0m".
Definition ESC_BOLD : jsstring := ANSI_ESCAPE :: js "[1m".

Lemma ESC_RED_sequence : ansi_sequence ESC_RED.
Proof. exists (js "31"). split; [repeat constructor|reflexivity]. Qed.

Lemma ESC_RESET_sequence : ansi_sequence ESC_RESET.
Proof. exists (js "0"). split; [repeat constructor|reflexivity]. Qed.

Lemma ESC_BOLD_sequence : ansi_sequence ESC_BOLD.
Proof. exists (js "1"). split; [repeat constructor|reflexivity]. Qed.

(** C1, as amended. The text [determineSemverType] scans is the
    concatenation of stdout, a line feed and stderr, stripped of its
    escape sequences in one pass, trimmed, and stripped in one pass once
    more. When [determineSemverType] returns, it returns the highest of
    the severities whose phrase that text contains, under major > minor >
    patch, and [patch] when there is none; a text whose phrases are all of
    one severity [S] gives [S], and a text with a phrase for major and one
    for minor gives major: in both cases the function does return. When
    stdout and stderr have no escape character, the phrases of the scanned
    text are those of stdout and those of stderr. *)
Theorem determineSemverType_highest W (r : CommandResult) (st : state W) :
  (exists once,
     stripped (cmd_stdout r ++ NL ++ cmd_stderr r) once /\
     command_output r = trim once /\
     stripped (trim once) (scanned_text r)) /\
  (forall t, result_of (determineSemverType r st) = Ok t ->
             highest_of (mentions (scanned_text r)) t) /\
  (forall S, mentions (scanned_text r) S ->
             (forall S', mentions (scanned_text r) S' -> S' = S) ->
             result_of (determineSemverType r st) = Ok S) /\
  (mentions (scanned_text r) major -> mentions (scanned_text r) minor ->
   result_of (determineSemverType r st) = Ok major) /\
  (~ In ANSI_ESCAPE (cmd_stdout r) -> ~ In ANSI_ESCAPE (cmd_stderr r) ->
   scanned_text r = trim (cmd_stdout r ++ NL ++ cmd_stderr r) /\
   forall S, mentions (scanned_text r) S <-> reported r S).
Proof.
  split.
  { exists (stripAnsi (cmd_stdout r ++ NL ++ cmd_stderr r)).
    split; [apply stripAnsi_stripped|].
    unfold scanned_text, command_output. rewrite !or_str_nil.
    split; [reflexivity|apply stripAnsi_stripped]. }
  assert (Hplain : ~ In ANSI_ESCAPE (cmd_stdout r) -> ~ In ANSI_ESCAPE (cmd_stderr r) ->
    scanned_text r = trim (cmd_stdout r ++ NL ++ cmd_stderr r) /\
    forall S, mentions (scanned_text r) S <-> reported r S).
  { intros Ho He. split; [apply scanned_text_plain; assumption|]. intros S.
    rewrite (scanned_text_plain r Ho He), mentions_trim. apply mentions_lines. }
  destruct (determineSemverType_cases W r st)
    as [(_ & Hnone & _ & E)|(_ & [(Hmaj & E)|[(Hmaj & Hmin & E)|(Hmaj & Hmin & E)]])];
    rewrite E; (split; [|split; [|split; [|exact Hplain]]]).
  - intros t Ht. discriminate.
  - intros S HS. destruct (Hnone S HS).
  - intros HS. destruct (Hnone _ HS).
  - intros t Ht. injection Ht as <-. left. split; [exact Hmaj|].
    intros t' _. destruct t'; simpl; lia.
  - intros S HS Huniq. rewrite (Huniq _ Hmaj). reflexivity.
  - reflexivity.
  - intros t Ht. injection Ht as <-. left. split; [exact Hmin|].
    intros t' Ht'. destruct t'; simpl; try lia. destruct (Hmaj Ht').
  - intros S HS Huniq. rewrite (Huniq _ Hmin). reflexivity.
  - intros HS. destruct (Hmaj HS).
  - intros t Ht. injection Ht as <-.
    destruct (mentions_scanned_dec r patch) as [Hp|Hp].
    + left. split; [exact Hp|]. intros t' Ht'.
      destruct t'; simpl; try lia; contradiction.
    + right. split; [|reflexivity]. intros t'. destruct t'; assumption.
  - intros S HS Huniq. destruct S; [contradiction|contradiction|reflexivity].
  - intros HS. destruct (Hmaj HS).
Qed.

Definition MINOR_ONLY : CommandResult :=
  mkCommandResult (Some 1%Z) (js "error: semver requires new minor version") [].

Definition BOTH_STREAMS : CommandResult :=
  mkCommandResult (Some 1%Z) (js "semver requires new minor version")
    (js "Semver requires new MAJOR version").

Definition RED_MAJOR : CommandResult :=
  mkCommandResult (Some 1%Z)
    (ESC_RED ++ js "semver requires new major version" ++ ESC_RESET) [].

Lemma plain_text s : forallb (fun c => negb (c =? ANSI_ESCAPE)%N) s = true ->
  ~ In ANSI_ESCAPE s.
Proof.
  intros H Hi. rewrite forallb_forall in H. specialize (H _ Hi).
  rewrite N.eqb_refl in H. discriminate.
Qed.

(** Witness of C1 as amended: one minor phrase gives minor; a minor
    phrase in stdout and a major phrase in stderr give major, and they are
    the phrases of the scanned text. *)
Lemma determineSemverType_highest_witness :
  result_of (determineSemverType MINOR_ONLY (tt, [])) = Ok minor /\
  result_of (determineSemverType BOTH_STREAMS (tt, [])) = Ok major /\
  (forall S, mentions (scanned_text BOTH_STREAMS) S <-> reported BOTH_STREAMS S).
Proof.
  split; [|split].
  - apply (determineSemverType_highest unit).
    + apply mentions_scanned. eexists. split; vm_compute; reflexivity.
    + intros S' H. apply mentions_scanned in H. destruct H as (found & Hf & H).
      vm_compute in Hf. injection Hf as <-.
      destruct S'; vm_compute in H; try discriminate H; reflexivity.
  - apply (determineSemverType_highest unit).
    + apply mentions_scanned. eexists. split; vm_compute; reflexivity.
    + apply mentions_scanned. eexists. split; vm_compute; reflexivity.
  - apply (determineSemverType_highest unit BOTH_STREAMS (tt, []));
      apply plain_text; reflexivity.
Defined.

(** An output whose second line has its phrase cut by an escape sequence
    that has another one inside. *)
Definition NESTED_MAJOR : CommandResult :=
  mkCommandResult (Some 1%Z)
    (js "semver requires new minor version" ++ NL
       ++ js "semver requires new " ++ ANSI_ESCAPE :: js "[" ++ ESC_RESET
       ++ js "1mmajor version") [].

(** C1, as stated, fails: the concatenation of stdout and stderr, stripped
    of its escape sequences, can have a phrase for minor and no other,
    and the classification be major, for the scan strips the text it is
    given once more and reads the phrase this brings together. *)
Lemma determineSemverType_stripped_once_counterexample :
  let once := js "semver requires new minor version" ++ NL
                ++ js "semver requires new " ++ ESC_BOLD ++ js "major version"
                ++ NL in
  stripped (cmd_stdout NESTED_MAJOR ++ NL ++ cmd_stderr NESTED_MAJOR) once /\
  command_output NESTED_MAJOR = trim once /\
  mentions once minor /\
  (forall S, mentions once S -> S = minor) /\
  result_of (determineSemverType NESTED_MAJOR (tt, [])) = Ok major.
Proof.
  intros once.
  assert (E : stripAnsi (cmd_stdout NESTED_MAJOR ++ NL ++ cmd_stderr NESTED_MAJOR)
              = once) by (vm_compute; reflexivity).
  assert (F : collect_matches REQUIRED_UPDATE_REGEX once [] = Ok [js "minor"])
    by (vm_compute; reflexivity).
  split; [rewrite <- E; apply stripAnsi_stripped|].
  split; [vm_compute; reflexivity|].
  split; [apply (mentions_collect _ _ _ F); reflexivity|].
  split; [|vm_compute; reflexivity].
  intros S H. apply (mentions_collect _ _ _ F) in H.
  destruct S; [discriminate H|reflexivity|discriminate H].
Qed.


Lemma status_is_zero_false r : status_is_zero r = false <-> cmd_status r <> Some 0%Z.
Proof.
  unfold status_is_zero. destruct (cmd_status r) as [z|].
  - destruct (Z.eqb_spec z 0) as [->|Hz]; split; intros H; try congruence.
  - split; [discriminate|reflexivity].
Qed.








(** C8, as amended. Inserting escape sequences into stdout and stderr,
    each at a point that is not inside an escape sequence, changes nothing
    of what [determineSemverType] does. *)
Theorem determineSemverType_escaped W (r : CommandResult) out' err'
  (st : state W) :
  escaped (cmd_stdout r) out' -> escaped (cmd_stderr r) err' ->
  determineSemverType (mkCommandResult (cmd_status r) out' err') st =
  determineSemverType r st.
Proof.
  intros Ho He. destruct r as [status out err]. simpl in *.
  unfold determineSemverType.
  rewrite (command_output_escaped status out err out' err' Ho He).
  reflexivity.
Qed.

(** Witness of C8 as amended: the phrase in red. *)
Lemma determineSemverType_escaped_witness :
  determineSemverType
    (mkCommandResult (Some 1%Z)
       (ESC_RED ++ js "semver requires new major version" ++ ESC_RESET) [])
    (tt, []) =
  determineSemverType
    (mkCommandResult (Some 1%Z) (js "semver requires new major version") [])
    (tt, []).
Proof.
  apply (determineSemverType_escaped unit
           (mkCommandResult (Some 1%Z) (js "semver requires new major version") [])).
  - apply (escaped_insert [] ESC_RED (js "semver requires new major version")).
    + exact ESC_RED_sequence.
    + apply inside_sequenceb_complete. reflexivity.
    + apply (escaped_insert (ESC_RED ++ js "semver requires new major version")
               ESC_RESET []).
      * exact ESC_RESET_sequence.
      * apply inside_sequenceb_complete. vm_compute. reflexivity.
      * apply escaped_same.
  - apply escaped_same.
Defined.

(** C8, as stated, fails: [stripAnsi] removes the sequences in one pass,
    so a sequence inserted inside another inserted one leaves the outer one
    in the text, and an output without any escape sequence that is
    classified becomes one that is not. *)
Lemma determineSemverType_escaped_anywhere_counterexample :
  let out := js "no semver changes" in
  let out' := js "no " ++ ANSI_ESCAPE :: js "[" ++ ESC_RESET ++ js "1msemver changes" in
  escaped_anywhere out out' /\
  result_of (determineSemverType (mkCommandResult (Some 1%Z) out []) (tt, []))
  = Ok patch /\
  result_of (determineSemverType (mkCommandResult (Some 1%Z) out' []) (tt, []))
  = Throw (UNPARSEABLE (mkCommandResult (Some 1%Z) out' [])).
Proof.
  split; [|split; vm_compute; reflexivity].
  apply (anywhere_insert (js "no ") ESC_BOLD (js "semver changes")).
  - exact ESC_BOLD_sequence.
  - apply (anywhere_insert (js "no " ++ ANSI_ESCAPE :: js "[") ESC_RESET
             (js "1msemver changes")).
    + exact ESC_RESET_sequence.
    + apply anywhere_same.
Qed.

(* ===================================================================== *)
(** * What a computation adds to the log *)
(* ===================================================================== *)

Section Logs.

Context {W : Type}.

(** Among the events [m] adds to the log, which it only extends, at most
    [n] satisfy [f]. *)
Definition adds (f : event -> bool) (n : nat) {A} (m : M W A) : Prop :=
  forall st, exists evs,
    log_of (m st) = snd st ++ evs /\ length (filter f evs) <= n.

Variable f : event -> bool.

Lemma adds_ret {A} n (a : A) : adds f n (ret a).
Proof. intros st. exists []. simpl. rewrite app_nil_r. split; [reflexivity|lia]. Qed.

Lemma adds_throw {A} n e : adds f n (throw e : M W A).
Proof. intros st. exists []. simpl. rewrite app_nil_r. split; [reflexivity|lia]. Qed.

Lemma adds_lift {A} n (o : outcome A) : adds f n (lift o).
Proof. intros st. exists []. simpl. rewrite app_nil_r. split; [reflexivity|lia]. Qed.

Lemma adds_emit n e : f e = false -> adds f n (emit e).
Proof.
  intros H st. exists [e]. split; [reflexivity|]. simpl. rewrite H. simpl. lia.
Qed.

Lemma adds_emit_one n e : adds f (S n) (emit e).
Proof.
  intros st. exists [e]. split; [reflexivity|]. simpl. destruct (f e); simpl; lia.
Qed.

Lemma adds_call {A} n e (h : hook W A) : f e = false -> adds f n (call e h).
Proof.
  intros H st. exists [e]. unfold call, log_of. destruct (h (fst st)).
  split; [reflexivity|]. simpl. rewrite H. simpl. lia.
Qed.

Lemma adds_call_one {A} n e (h : hook W A) : adds f (S n) (call e h).
Proof.
  intros st. exists [e]. unfold call, log_of. destruct (h (fst st)).
  split; [reflexivity|]. simpl. destruct (f e); simpl; lia.
Qed.

Lemma adds_bind {A B} a b (m : M W A) (k : A -> M W B) :
  adds f a m -> (forall x, adds f b (k x)) -> adds f (a + b) (bind m k).
Proof.
  intros Hm Hk st. destruct (Hm st) as (evs & E & C).
  unfold bind, log_of in *. destruct (m st) as [[x|e|] st'] eqn:Em; simpl in E.
  - destruct (Hk x st') as (evs' & E' & C'). exists (evs ++ evs').
    unfold log_of in E'. rewrite E', E, app_assoc. split; [reflexivity|].
    rewrite filter_app, length_app. lia.
  - exists evs. split; [exact E|lia].
  - exists evs. split; [exact E|lia].
Qed.

Lemma adds_try_catch {A} a b (m : M W A) (h : exn -> M W A) :
  adds f a m -> (forall e, adds f b (h e)) -> adds f (a + b) (try_catch m h).
Proof.
  intros Hm Hh st. destruct (Hm st) as (evs & E & C).
  unfold try_catch, log_of in *. destruct (m st) as [[x|e|] st'] eqn:Em; simpl in E.
  - exists evs. split; [exact E|lia].
  - destruct (Hh e st') as (evs' & E' & C'). exists (evs ++ evs').
    unfold log_of in E'. rewrite E', E, app_assoc. split; [reflexivity|].
    rewrite filter_app, length_app. lia.
  - exists evs. split; [exact E|lia].
Qed.

Lemma adds_withRetries_loop {T} (op : M W T) label maxAttempts :
  (forall message, f (EWarning message) = false) ->
  (forall ms, f (ESleep ms) = false) ->
  adds f 0 op ->
  forall remaining attempt,
    adds f 0 (withRetries_loop remaining attempt maxAttempts op label).
Proof.
  intros Hw Hs Hop. induction remaining as [|k IH]; intros attempt; simpl.
  - apply adds_throw.
  - apply (adds_try_catch 0 0); [exact Hop|]. intros e.
    destruct (_ || _); [apply adds_throw|].
    apply (adds_bind 0 0); [apply adds_emit, Hw|]. intros _.
    apply (adds_bind 0 0); [apply adds_emit, Hs|]. intros _.
    apply IH.
Qed.

End Logs.

Lemma adds_withRetries W f T (op : M W T) label :
  (forall message, f (EWarning message) = false) ->
  (forall ms, f (ESleep ms) = false) ->
  adds f 0 op -> adds f 0 (withRetries op label).
Proof.
  intros Hw Hs Hop. unfold withRetries, withRetries_n.
  apply adds_withRetries_loop; assumption.
Qed.

Lemma adds_removeOldLabels W f (octokit : Octokit W) owner repo issue
  labelPrefix newLabel l :
  (forall message, f (EInfo message) = false) ->
  (forall i name, f (ERemoveLabel i name) = false) ->
  adds f 0 (removeOldLabels octokit owner repo issue labelPrefix newLabel l).
Proof.
  intros Hi Hr. induction l as [|a l IH]; cbn [removeOldLabels]; [apply adds_ret|].
  apply (adds_bind _ 0 0); [|intros _; exact IH].
  destruct (_ && _); [|apply adds_ret].
  apply (adds_bind _ 0 0); [apply adds_emit, Hi|intros _].
  unfold removeLabelIfExists. apply (adds_try_catch _ 0 0).
  - apply adds_call, Hr.
  - intros e. destruct (not_404 e); [apply adds_throw|apply adds_ret].
Qed.

Ltac adds_leaf :=
  first
    [ apply adds_ret | apply adds_throw | apply adds_lift
    | apply adds_emit; reflexivity
    | apply adds_call; reflexivity
    | apply adds_withRetries;
        [intros; reflexivity | intros; reflexivity | ]
    | apply adds_removeOldLabels; intros; reflexivity ].

(** Goals [adds f 0 m]: nothing that satisfies [f] is added. *)
Ltac adds_none :=
  cbv zeta;
  lazymatch goal with
  | |- adds _ 0 (bind _ _) => apply (adds_bind _ 0 0); [adds_none|intro; adds_none]
  | |- adds _ 0 (try_catch _ _) =>
      apply (adds_try_catch _ 0 0); [adds_none|intro; adds_none]
  | |- adds _ _ (if ?b then _ else _) => destruct b; adds_none
  | |- adds _ _ (match ?x with _ => _ end) => destruct x; adds_none
  | |- adds _ _ (withRetries _ _) =>
      apply adds_withRetries; [intros; reflexivity | intros; reflexivity | adds_none]
  | |- _ => try adds_leaf
  end.

(** Goals [adds f 1 m]: at most one event that satisfies [f] is added. *)
Ltac adds_once :=
  cbv zeta;
  lazymatch goal with
  | |- adds _ 1 (bind _ _) =>
      first [ apply (adds_bind _ 0 1); [solve [adds_none]|intro; adds_once]
            | apply (adds_bind _ 1 0); [adds_once|intro; solve [adds_none]] ]
  | |- adds _ 1 (try_catch _ _) =>
      first [ apply (adds_try_catch _ 0 1); [solve [adds_none]|intro; adds_once]
            | apply (adds_try_catch _ 1 0); [adds_once|intro; solve [adds_none]] ]
  | |- adds _ _ (if ?b then _ else _) => destruct b; adds_once
  | |- adds _ _ (match ?x with _ => _ end) => destruct x; adds_once
  | |- _ => first [adds_leaf | apply adds_call_one | apply adds_emit_one]
  end.

Definition is_setFailed (e : event) : bool :=
  match e with ESetFailed _ => true | _ => false end.


(* ===================================================================== *)
(** * Resolving the pull request *)
(* ===================================================================== *)

(** The value is there and is not the empty string. *)
Definition known (x : option jsstring) (v : jsstring) : Prop :=
  x = Some v /\ v <> [].

Lemma known_truthy x v : known x v -> truthy_str x = true.
Proof. intros [-> H]. destruct v; [congruence|reflexivity]. Qed.

Lemma jsstring_eqb_refl a : jsstring_eqb a a = true.
Proof. apply jsstring_eqb_eq. reflexivity. Qed.

Lemma jsstring_eqb_neq a b : a <> b -> jsstring_eqb a b = false.
Proof.
  intros H. destruct (jsstring_eqb a b) eqn:E; [|reflexivity].
  apply jsstring_eqb_eq in E. contradiction.
Qed.

(** The pull requests the event correlates with the run. *)
Definition correlated (wr : WorkflowRun) : list PullRequest :=
  match wr_pull_requests wr with
  | Some prs => prs
  | None => []
  end.

(** The events, as the resolver reads them. *)
Definition workflow_run_event (ctx : Context) (wr : WorkflowRun) : Prop :=
  eventName ctx = js "workflow_run" /\ payload_workflow_run ctx = Some wr.

Definition SKIPPED (conclusion : jsstring) : PrContextResolution :=
  Skip (js "workflow_run conclusion is " ++ conclusion
          ++ js "; skipping semver checks.").

Lemma resolvePrContext_workflow_run W ctx octokit owner repo wr (st : state W) :
  workflow_run_event ctx wr ->
  resolvePrContext ctx octokit owner repo st =
  resolveWorkflowRun octokit owner repo wr st.
Proof.
  intros [He Hp]. unfold resolvePrContext. rewrite He, Hp. reflexivity.
Qed.

(** C4. A workflow-run event whose conclusion is not [success] resolves
    to Skip with a reason that names the conclusion, or [unknown] when
    there is none (or an empty one); the resolver then calls nothing: the
    world and the log are as before, so no lookup by branch, by commit or
    by number is made. *)
Theorem resolvePrContext_skip W ctx octokit owner repo wr (st : state W) :
  workflow_run_event ctx wr ->
  wr_conclusion wr <> Some (js "success") ->
  exists reason,
    resolvePrContext ctx octokit owner repo st = (Ok (Skip reason), st) /\
    (forall c, known (wr_conclusion wr) c -> Skip reason = SKIPPED c) /\
    (wr_conclusion wr = None \/ wr_conclusion wr = Some [] ->
     Skip reason = SKIPPED (js "unknown")).
Proof.
  intros Hev Hc. rewrite (resolvePrContext_workflow_run _ _ _ _ _ _ _ Hev).
  unfold resolveWorkflowRun.
  assert (E : match wr_conclusion wr with
              | Some c => jsstring_eqb c (js "success")
              | None => false
              end = false).
  { destruct (wr_conclusion wr) as [c|]; [|reflexivity].
    apply jsstring_eqb_neq. congruence. }
  rewrite E. simpl negb. cbv iota. eexists. split; [reflexivity|]. split.
  - intros c Hk. unfold rendered_conclusion. rewrite (known_truthy _ _ Hk).
    destruct Hk as [-> _]. reflexivity.
  - intros [-> | ->]; reflexivity.
Qed.

(** A platform that has nothing and accepts everything. *)
Definition idle_octokit {W} : Octokit W :=
  mkOctokit
    (fun _ _ _ w => (Ok [], w)) (fun _ _ _ w => (Ok [], w))
    (fun _ _ _ w => (Ok (mkPullRequest None None), w))
    (fun _ _ _ w => (Ok [], w)) (fun _ _ _ _ w => (Ok tt, w))
    (fun _ _ _ w => (Ok tt, w)) (fun _ _ _ _ _ w => (Ok tt, w))
    (fun _ _ _ _ w => (Ok tt, w)).

Definition unit_octokit : Octokit unit := idle_octokit.

(** Witness of C4: a run that failed. *)
Lemma resolvePrContext_skip_witness :
  exists reason,
    resolvePrContext
      (mkContext (js "workflow_run") None
         (Some (mkWorkflowRun (Some (js "failure")) None None None None))
         (js "o") (js "r"))
      unit_octokit (js "o") (js "r") (tt, []) = (Ok (Skip reason), (tt, [])) /\
    Skip reason = SKIPPED (js "failure").
Proof.
  destruct (resolvePrContext_skip unit
              (mkContext (js "workflow_run") None
                 (Some (mkWorkflowRun (Some (js "failure")) None None None None))
                 (js "o") (js "r"))
              unit_octokit (js "o") (js "r")
              (mkWorkflowRun (Some (js "failure")) None None None None)
              (tt, []))
    as (reason & E & Hc & _).
  - split; reflexivity.
  - simpl. discriminate.
  - exists reason. split; [exact E|]. apply Hc. split; [reflexivity|discriminate].
Defined.

(** ** The failures of the resolver *)

Definition AmbiguousPullRequest_correlated (found : nat) : exn :=
  new_Error (js "workflow_run must have exactly one pull request, found "
               ++ render_nat found ++ js ".").

Definition AmbiguousPullRequest_head (found : nat) : exn :=
  new_Error (js "Unable to resolve PR from head ref; found "
               ++ render_nat found ++ js ".").

Definition AmbiguousPullRequest_commit (found : nat) : exn :=
  new_Error (js "Unable to resolve PR from head_sha; found "
               ++ render_nat found ++ js ".").

Definition MissingHeadCommit : exn :=
  new_Error (js "workflow_run is missing head_sha.").

Definition MissingNumber : exn :=
  new_Error (js "workflow_run pull_request is missing number.").

Definition MissingBaseCommit : exn :=
  new_Error (js "Unable to determine the PR base SHA.").

(** The state after the lookup by head branch, and after the lookup by
    head commit. *)
Definition after_head_lookup {W} (st : state W) (head : jsstring) (w : W)
  : state W :=
  (w, snd st ++
      [EInfo (js "workflow_run.pull_requests is empty; resolving PR from head repository.");
       EPullsList head]).

Definition after_commit_lookup {W} (st : state W) (sha : jsstring) (w : W)
  : state W :=
  (w, snd st ++
      [EInfo (js "Resolving PR from head_sha.");
       EListPullRequestsAssociatedWithCommit sha]).

(** The resolution by head commit, carried to its end. *)
Definition resolveByCommit {W} (octokit : Octokit W) (owner repo : jsstring)
  (wr : WorkflowRun) (base : option jsstring) : M W PrContextResolution :=
  found <- resolveFromHeadSha octokit owner repo wr base ;;
  finishResolution octokit owner repo (fst found) (snd found).

Lemma known_value x v : known x v -> match x with Some o => o | None => [] end = v.
Proof. intros [-> _]. reflexivity. Qed.

Lemma length_two {A} (l : list A) :
  2 <= length l -> (length l =? 1)%nat = false /\ (length l =? 0)%nat = false /\
                   (1 <? length l)%nat = true.
Proof.
  intros H. repeat split.
  - apply Nat.eqb_neq. lia.
  - apply Nat.eqb_neq. lia.
  - apply Nat.ltb_lt. lia.
Qed.

Lemma resolveFromHeadSha_missing W octokit owner repo wr base (st : state W) :
  truthy_str (wr_head_sha wr) = false ->
  resolveFromHeadSha octokit owner repo wr base st = (Throw MissingHeadCommit, st).
Proof. intros H. unfold resolveFromHeadSha. rewrite H. reflexivity. Qed.

Lemma resolveFromHeadSha_lookup W octokit owner repo wr base (st : state W) h l w :
  known (wr_head_sha wr) h ->
  repos_listPullRequestsAssociatedWithCommit octokit owner repo h (fst st)
  = (Ok l, w) ->
  resolveFromHeadSha octokit owner repo wr base st =
  if (length l =? 1)%nat
  then (Ok (first_number l, or_else (first_sha l) base), after_commit_lookup st h w)
  else (Throw (AmbiguousPullRequest_commit (length l)), after_commit_lookup st h w).
Proof.
  intros Hk Hl. unfold resolveFromHeadSha.
  rewrite (known_truthy _ _ Hk), (known_value _ _ Hk).
  unfold bind, info, emit, call. cbn [fst snd negb]. rewrite Hl.
  unfold after_commit_lookup. rewrite <- app_assoc.
  destruct (length l =? 1)%nat; reflexivity.
Qed.

Lemma findPullRequest_one W octokit owner repo wr (st : state W) pr :
  correlated wr = [pr] ->
  findPullRequest octokit owner repo wr st
  = (Ok (pr_number pr, sha_of (pr_base pr)), st).
Proof.
  unfold findPullRequest, correlated. intros ->. reflexivity.
Qed.

Lemma findPullRequest_many W octokit owner repo wr (st : state W) :
  2 <= length (correlated wr) ->
  findPullRequest octokit owner repo wr st
  = (Throw (AmbiguousPullRequest_correlated (length (correlated wr))), st).
Proof.
  unfold findPullRequest. fold (correlated wr). intros H.
  destruct (length_two _ H) as (-> & -> & _). reflexivity.
Qed.

Lemma findPullRequest_no_head W octokit owner repo wr (st : state W) :
  correlated wr = [] ->
  truthy_str (headOwner_of (wr_head_repository wr))
    && truthy_str (wr_head_branch wr) = false ->
  findPullRequest octokit owner repo wr st
  = resolveFromHeadSha octokit owner repo wr None st.
Proof.
  unfold findPullRequest. fold (correlated wr). intros -> H.
  simpl. rewrite H. reflexivity.
Qed.

Lemma findPullRequest_head W octokit owner repo wr (st : state W) o b l w :
  correlated wr = [] ->
  known (headOwner_of (wr_head_repository wr)) o ->
  known (wr_head_branch wr) b ->
  pulls_list octokit owner repo (o ++ js ":" ++ b) (fst st) = (Ok l, w) ->
  findPullRequest octokit owner repo wr st =
  if (length l =? 1)%nat then
    if no_number (first_number l)
    then resolveFromHeadSha octokit owner repo wr (or_else (first_sha l) None)
           (after_head_lookup st (o ++ js ":" ++ b) w)
    else (Ok (first_number l, or_else (first_sha l) None),
          after_head_lookup st (o ++ js ":" ++ b) w)
  else if (1 <? length l)%nat then
    (Throw (AmbiguousPullRequest_head (length l)),
     after_head_lookup st (o ++ js ":" ++ b) w)
  else resolveFromHeadSha octokit owner repo wr None
         (after_head_lookup st (o ++ js ":" ++ b) w).
Proof.
  unfold findPullRequest. fold (correlated wr). intros -> Ho Hb Hl.
  cbn [length Nat.eqb first_sha].
  rewrite (known_truthy _ _ Ho), (known_truthy _ _ Hb).
  rewrite (known_value _ _ Ho), (known_value _ _ Hb).
  unfold bind at 1. unfold bind at 1. unfold info at 1, emit at 1.
  unfold bind at 1. unfold call at 1. cbn [fst snd andb]. rewrite Hl.
  assert (E : (w, (snd st ++ [EInfo (js "workflow_run.pull_requests is empty; resolving PR from head repository.")]) ++ [EPullsList (o ++ js ":" ++ b)])
              = after_head_lookup st (o ++ js ":" ++ b) w).
  { unfold after_head_lookup. rewrite <- app_assoc. reflexivity. }
  rewrite E.
  destruct (length l =? 1)%nat.
  - unfold ret. cbn [fst snd].
    destruct (no_number (first_number l)); reflexivity.
  - destruct (1 <? length l)%nat; reflexivity.
Qed.

Lemma finishResolution_missing_number W octokit owner repo n base (st : state W) :
  no_number n = true ->
  finishResolution octokit owner repo n base st = (Throw MissingNumber, st).
Proof. intros H. unfold finishResolution. rewrite H. reflexivity. Qed.

Lemma finishResolution_known W octokit owner repo n base s (st : state W) :
  n <> 0%Z -> known base s ->
  finishResolution octokit owner repo (Some n) base st = (Ok (Proceed n s), st).
Proof.
  intros Hn Hk. unfold finishResolution. cbn [no_number].
  rewrite (proj2 (Z.eqb_neq n 0) Hn).
  unfold bind. rewrite (known_truthy _ _ Hk). cbn [negb]. unfold ret.
  rewrite (known_truthy _ _ Hk), (known_value _ _ Hk). reflexivity.
Qed.

(** The state after the pull request is fetched by number. *)
Definition after_fetch {W} (st : state W) (n : Z) (w : W) : state W :=
  (w, snd st ++ [EPullsGet n]).

Lemma finishResolution_fetch W octokit owner repo n base (st : state W) r w :
  n <> 0%Z -> truthy_str base = false ->
  pulls_get octokit owner repo n (fst st) = (r, w) ->
  finishResolution octokit owner repo (Some n) base st =
  match r with
  | Ok prData =>
      if truthy_str (sha_of (pr_base prData))
      then (Ok (Proceed n (match sha_of (pr_base prData) with
                           | Some s => s
                           | None => []
                           end)), after_fetch st n w)
      else (Throw MissingBaseCommit, after_fetch st n w)
  | Throw e => (Throw e, after_fetch st n w)
  | Hang => (Hang, after_fetch st n w)
  end.
Proof.
  intros Hn Hb Hg. unfold finishResolution. cbn [no_number].
  rewrite (proj2 (Z.eqb_neq n 0) Hn). rewrite Hb.
  unfold bind, call, ret. cbn [negb fst snd]. rewrite Hg.
  fold (after_fetch st n w).
  destruct r as [prData|e|]; try reflexivity.
  destruct (sha_of (pr_base prData)) as [[|c s]|]; reflexivity.
Qed.

Lemma resolveWorkflowRun_success W octokit owner repo wr (st : state W) :
  wr_conclusion wr = Some (js "success") ->
  resolveWorkflowRun octokit owner repo wr st =
  (found <- findPullRequest octokit owner repo wr ;;
   finishResolution octokit owner repo (fst found) (snd found)) st.
Proof. intros H. unfold resolveWorkflowRun. rewrite H. reflexivity. Qed.

Lemma bind_eq {W A B} (m : M W A) (k : A -> M W B) st a st' :
  m st = (Ok a, st') -> bind m k st = k a st'.
Proof. intros H. unfold bind. rewrite H. reflexivity. Qed.

Lemma bind_throw {W A B} (m : M W A) (k : A -> M W B) st e st' :
  m st = (Throw e, st') -> bind m k st = (Throw e, st').
Proof. intros H. unfold bind. rewrite H. reflexivity. Qed.

Lemma length_not_one {A} (l : list A) :
  length l <> 1 -> (length l =? 1)%nat = false.
Proof. intros H. apply Nat.eqb_neq. exact H. Qed.

(** C3. The case analysis of a successful workflow-run event on the pull
    requests it correlates: exactly one is used directly, with no lookup;
    more than one is fatal; with none, a lookup by head branch, made when
    the head owner and the head branch are known, resolves the pull
    request when it returns exactly one, is fatal when it returns more,
    and leaves it to the lookup by head commit when it returns none; the
    lookup by head commit, also made when the head is not known, is fatal
    without a head commit, and fatal unless it returns exactly one pull
    request. In each case that resolves, what remains is
    [finishResolution] on the number and base commit found. The one pull
    request of the lookup by head branch is taken with its number, which
    a pull request of the platform has and which is not zero; the guard
    of the resolver for an answer without one, which leaves it to the
    lookup by head commit, is stated as well. *)
Theorem resolvePrContext_correlated W ctx octokit owner repo wr (st : state W) :
  workflow_run_event ctx wr ->
  wr_conclusion wr = Some (js "success") ->
  let resolve := resolvePrContext ctx octokit owner repo in
  let finish := finishResolution octokit owner repo in
  let byCommit := resolveByCommit octokit owner repo wr in
  (forall pr, correlated wr = [pr] ->
     resolve st = finish (pr_number pr) (sha_of (pr_base pr)) st) /\
  (2 <= length (correlated wr) ->
     resolve st =
     (Throw (AmbiguousPullRequest_correlated (length (correlated wr))), st)) /\
  (correlated wr = [] ->
     (forall o b l w,
        known (headOwner_of (wr_head_repository wr)) o ->
        known (wr_head_branch wr) b ->
        pulls_list octokit owner repo (o ++ js ":" ++ b) (fst st) = (Ok l, w) ->
        let st1 := after_head_lookup st (o ++ js ":" ++ b) w in
        (forall pr n, l = [pr] -> pr_number pr = Some n -> n <> 0%Z ->
           resolve st = finish (Some n) (or_else (sha_of (pr_base pr)) None) st1) /\
        (forall pr, l = [pr] -> no_number (pr_number pr) = true ->
           resolve st = byCommit (or_else (sha_of (pr_base pr)) None) st1) /\
        (2 <= length l ->
           resolve st = (Throw (AmbiguousPullRequest_head (length l)), st1)) /\
        (l = [] -> resolve st = byCommit None st1)) /\
     (truthy_str (headOwner_of (wr_head_repository wr))
        && truthy_str (wr_head_branch wr) = false ->
      resolve st = byCommit None st)) /\
  (forall base st',
     (truthy_str (wr_head_sha wr) = false ->
      byCommit base st' = (Throw MissingHeadCommit, st')) /\
     (forall h l w,
        known (wr_head_sha wr) h ->
        repos_listPullRequestsAssociatedWithCommit octokit owner repo h (fst st')
        = (Ok l, w) ->
        let st2 := after_commit_lookup st' h w in
        (forall pr, l = [pr] ->
           byCommit base st' =
           finish (pr_number pr) (or_else (sha_of (pr_base pr)) base) st2) /\
        (length l <> 1 ->
           byCommit base st' =
           (Throw (AmbiguousPullRequest_commit (length l)), st2)))).
Proof.
  intros Hev Hok resolve finish byCommit.
  assert (R : forall s, resolve s =
    (found <- findPullRequest octokit owner repo wr ;;
     finishResolution octokit owner repo (fst found) (snd found)) s).
  { intros s. unfold resolve.
    rewrite (resolvePrContext_workflow_run _ _ _ _ _ _ _ Hev).
    apply resolveWorkflowRun_success. exact Hok. }
  split; [|split; [|split]].
  - intros pr Hpr. rewrite R.
    rewrite (bind_eq _ _ _ _ _ (findPullRequest_one _ _ _ _ _ _ _ Hpr)).
    reflexivity.
  - intros H. rewrite R.
    apply bind_throw. apply findPullRequest_many. exact H.
  - intros Hnone. split.
    + intros o b l w Ho Hb Hl st1.
      pose proof (findPullRequest_head _ octokit owner repo wr st o b l w
                    Hnone Ho Hb Hl) as F.
      fold st1 in F. split; [|split; [|split]].
      * intros pr n -> Hn Hn0. rewrite R. simpl in F. rewrite Hn in F.
        cbn [no_number first_number] in F. rewrite (proj2 (Z.eqb_neq n 0) Hn0) in F.
        rewrite (bind_eq _ _ _ _ _ F). reflexivity.
      * intros pr -> Hn. rewrite R. cbn [length Nat.eqb first_number first_sha] in F.
        rewrite Hn in F. unfold byCommit, resolveByCommit.
        unfold bind at 1. rewrite F. reflexivity.
      * intros H2. destruct (length_two _ H2) as (E1 & _ & E2).
        rewrite E1, E2 in F. rewrite R. apply bind_throw. exact F.
      * intros ->. simpl in F. rewrite R. unfold byCommit, resolveByCommit.
        unfold bind at 1. rewrite F. reflexivity.
    + intros H. rewrite R. unfold byCommit, resolveByCommit.
      unfold bind at 1. rewrite (findPullRequest_no_head _ _ _ _ _ _ Hnone H).
      reflexivity.
  - intros base st'. split.
    + intros H. unfold byCommit, resolveByCommit. apply bind_throw.
      apply resolveFromHeadSha_missing. exact H.
    + intros h l w Hh Hl st2.
      pose proof (resolveFromHeadSha_lookup _ octokit owner repo wr base st' h l w
                    Hh Hl) as F.
      fold st2 in F. split.
      * intros pr ->. simpl in F. unfold byCommit, resolveByCommit.
        rewrite (bind_eq _ _ _ _ _ F). reflexivity.
      * intros H. rewrite (length_not_one _ H) in F.
        unfold byCommit, resolveByCommit. apply bind_throw. exact F.
Qed.

Definition WITNESS_RUN : WorkflowRun :=
  mkWorkflowRun (Some (js "success")) (Some [])
    (Some (mkHeadRepository (Some (mkRepoOwner (Some (js "fork")) None))))
    (Some (js "feature")) (Some (js "abc123")).

Definition WITNESS_CONTEXT : Context :=
  mkContext (js "workflow_run") None (Some WITNESS_RUN) (js "o") (js "r").

Definition WITNESS_PR : PullRequest :=
  mkPullRequest (Some 7%Z) (Some (mkBaseRef (Some (js "base1")))).

(** A platform whose lookup by head branch finds one pull request. *)
Definition witness_octokit : Octokit unit :=
  mkOctokit
    (fun _ _ _ w => (Ok [WITNESS_PR], w)) (fun _ _ _ w => (Ok [], w))
    (fun _ _ _ w => (Ok (mkPullRequest None None), w))
    (fun _ _ _ w => (Ok [], w)) (fun _ _ _ _ w => (Ok tt, w))
    (fun _ _ _ w => (Ok tt, w)) (fun _ _ _ _ _ w => (Ok tt, w))
    (fun _ _ _ _ w => (Ok tt, w)).

(** Witness of C3: no correlated pull request, one found by head branch. *)
Lemma resolvePrContext_correlated_witness :
  resolvePrContext WITNESS_CONTEXT witness_octokit (js "o") (js "r") (tt, [])
  = (Ok (Proceed 7 (js "base1")),
     after_head_lookup (tt, []) (js "fork:feature") tt).
Proof.
  destruct (resolvePrContext_correlated unit WITNESS_CONTEXT witness_octokit
              (js "o") (js "r") WITNESS_RUN (tt, [])
              (conj eq_refl eq_refl) eq_refl) as (_ & _ & H & _).
  destruct (H eq_refl) as (Hhead & _).
  destruct (Hhead (js "fork") (js "feature") [WITNESS_PR] tt) as (H1 & _).
  - split; [reflexivity|discriminate].
  - split; [reflexivity|discriminate].
  - reflexivity.
  - rewrite (H1 WITNESS_PR 7%Z eq_refl eq_refl ltac:(discriminate)).
    reflexivity.
Defined.

(** ** What a Proceed carries *)

Definition numbered_positive (pr : PullRequest) : Prop :=
  forall n, pr_number pr = Some n -> (0 < n)%Z.

(** Every pull-request number the platform supplies, in the payload of
    the event or in the answer to a lookup, is positive. *)
Definition platform_numbers_positive {W} (ctx : Context) (octokit : Octokit W)
  : Prop :=
  (forall pr, payload_pull_request ctx = Some pr -> (0 < prp_number pr)%Z) /\
  (forall wr, payload_workflow_run ctx = Some wr ->
     Forall numbered_positive (correlated wr)) /\
  (forall owner repo head w l w',
     pulls_list octokit owner repo head w = (Ok l, w') ->
     Forall numbered_positive l) /\
  (forall owner repo sha w l w',
     repos_listPullRequestsAssociatedWithCommit octokit owner repo sha w
     = (Ok l, w') ->
     Forall numbered_positive l).

Lemma first_number_positive l n :
  Forall numbered_positive l -> first_number l = Some n -> (0 < n)%Z.
Proof.
  intros H E. destruct l as [|pr l]; [discriminate|].
  inversion H as [|? ? Hp _]. apply Hp. exact E.
Qed.

Lemma resolveFromHeadSha_number W (octokit : Octokit W) owner repo wr base st n b st' :
  (forall owner repo sha w l w',
     repos_listPullRequestsAssociatedWithCommit octokit owner repo sha w
     = (Ok l, w') -> Forall numbered_positive l) ->
  resolveFromHeadSha octokit owner repo wr base st = (Ok (Some n, b), st') ->
  (0 < n)%Z.
Proof.
  intros Hp. unfold resolveFromHeadSha.
  destruct (truthy_str (wr_head_sha wr)); [|discriminate].
  unfold bind, info, emit, call. cbn [negb fst snd].
  destruct (repos_listPullRequestsAssociatedWithCommit _ _ _ _ _)
    as [[l|e|] w] eqn:E; try discriminate.
  destruct (length l =? 1)%nat; [|discriminate].
  unfold ret. cbn [negb]. intros H. injection H as Hn _ _.
  apply (first_number_positive l); [|exact Hn]. eapply Hp. exact E.
Qed.

Lemma findPullRequest_number W ctx (octokit : Octokit W) owner repo wr st n b st' :
  platform_numbers_positive ctx octokit ->
  payload_workflow_run ctx = Some wr ->
  findPullRequest octokit owner repo wr st = (Ok (Some n, b), st') ->
  (0 < n)%Z.
Proof.
  intros (_ & Hc & Hh & Ha) Hwr. specialize (Hc wr Hwr).
  unfold findPullRequest. fold (correlated wr).
  destruct (length (correlated wr) =? 1)%nat.
  { unfold ret. intros H. injection H as Hn _ _.
    apply (first_number_positive (correlated wr)); assumption. }
  destruct (length (correlated wr) =? 0)%nat; [|discriminate].
  unfold bind at 1.
  destruct (truthy_str _ && truthy_str _).
  - unfold bind at 1. unfold info at 1, emit at 1. unfold bind at 1.
    unfold call at 1. cbn [fst snd].
    destruct (pulls_list _ _ _ _ _) as [[l|e|] w] eqn:E; try discriminate.
    destruct (length l =? 1)%nat.
    + unfold ret at 1. cbn [fst snd].
      destruct (no_number (first_number l)) eqn:En.
      * apply resolveFromHeadSha_number. exact Ha.
      * unfold ret. intros H. injection H as Hn _ _.
        apply (first_number_positive l); [|exact Hn]. eapply Hh. exact E.
    + destruct (1 <? length l)%nat; [discriminate|].
      unfold ret at 1. cbn [fst snd no_number].
      apply resolveFromHeadSha_number. exact Ha.
  - unfold ret at 1. cbn [fst snd no_number].
    apply resolveFromHeadSha_number. exact Ha.
Qed.

Lemma finishResolution_proceed W (octokit : Octokit W) owner repo number base st n sha st' :
  finishResolution octokit owner repo number base st = (Ok (Proceed n sha), st') ->
  number = Some n /\ n <> 0%Z /\ sha <> [].
Proof.
  unfold finishResolution. destruct number as [z|]; cbn [no_number]; [|discriminate].
  destruct (Z.eqb_spec z 0) as [|Hz]; [discriminate|].
  unfold bind.
  assert (F : forall (b : option jsstring) s,
    (if negb (truthy_str b)
     then throw MissingBaseCommit
     else ret (Proceed z match b with Some x => x | None => [] end)) s
    = (Ok (Proceed n sha), st') -> Some z = Some n /\ n <> 0%Z /\ sha <> []).
  { intros b s. destruct b as [[|c x]|]; cbn [truthy_str negb]; try discriminate.
    unfold ret. intros H. injection H as <- <- _.
    repeat split; [exact Hz|discriminate]. }
  destruct (truthy_str base); cbn [negb].
  - unfold ret at 1. apply F.
  - unfold bind, call. cbn [fst snd].
    destruct (pulls_get _ _ _ _ _) as [[prData|e|] w]; try discriminate.
    unfold ret at 1. apply F.
Qed.

Lemma event_names_differ : js "workflow_run" <> js "pull_request".
Proof. discriminate. Qed.

(** C5. Every Proceed carries a non-empty base commit and, the
    pull-request numbers the platform supplies being positive, a positive
    pull-request number (it is the number the platform supplied: on a
    workflow-run event one that is there and is not zero, on a
    pull-request event the number of the payload). A pull request whose
    number is known and whose base commit is not is fetched by number,
    and when no base commit is found the resolver fails with
    MissingBaseCommit. *)
Theorem resolvePrContext_proceed W ctx (octokit : Octokit W) owner repo
  (st : state W) :
  (forall n sha st',
     resolvePrContext ctx octokit owner repo st = (Ok (Proceed n sha), st') ->
     sha <> [] /\
     (eventName ctx = js "workflow_run" -> n <> 0%Z) /\
     (forall pr, eventName ctx = js "pull_request" ->
                 payload_pull_request ctx = Some pr -> n = prp_number pr) /\
     (platform_numbers_positive ctx octokit -> (0 < n)%Z)) /\
  (forall n base s s', n <> 0%Z -> known base s ->
     finishResolution octokit owner repo (Some n) base s' = (Ok (Proceed n s), s')) /\
  (forall n base s' r w, n <> 0%Z -> truthy_str base = false ->
     pulls_get octokit owner repo n (fst s') = (r, w) ->
     finishResolution octokit owner repo (Some n) base s' =
     match r with
     | Ok prData =>
         if truthy_str (sha_of (pr_base prData))
         then (Ok (Proceed n (match sha_of (pr_base prData) with
                              | Some s => s
                              | None => []
                              end)), after_fetch s' n w)
         else (Throw MissingBaseCommit, after_fetch s' n w)
     | Throw e => (Throw e, after_fetch s' n w)
     | Hang => (Hang, after_fetch s' n w)
     end) /\
  (forall pr, eventName ctx = js "pull_request" ->
     payload_pull_request ctx = Some pr ->
     truthy_str (sha_of (prp_base pr)) = false ->
     resolvePrContext ctx octokit owner repo st = (Throw MissingBaseCommit, st)).
Proof.
  split; [|split; [|split]].
  - intros n sha st'. unfold resolvePrContext.
    destruct (jsstring_eqb (eventName ctx) (js "pull_request")) eqn:Ep.
    + apply jsstring_eqb_eq in Ep.
      destruct (payload_pull_request ctx) as [pr|] eqn:Epr; [|discriminate].
      destruct (sha_of (prp_base pr)) as [[|c s]|]; cbn [truthy_str negb];
        try discriminate.
      unfold ret. intros H. injection H as <- <- _.
      split; [discriminate|]. split; [|split].
      * intros E. rewrite Ep in E. symmetry in E. destruct (event_names_differ E).
      * intros pr' _ E. injection E as <-. reflexivity.
      * intros (Hp & _). apply Hp. exact Epr.
    + destruct (jsstring_eqb (eventName ctx) (js "workflow_run")) eqn:Ew;
        [|discriminate].
      destruct (payload_workflow_run ctx) as [wr|] eqn:Ewr; [|discriminate].
      unfold resolveWorkflowRun.
      destruct (negb _); [discriminate|].
      unfold bind.
      destruct (findPullRequest octokit owner repo wr st) as [[found|e|] s1] eqn:Ef;
        try discriminate.
      intros H. destruct (finishResolution_proceed _ _ _ _ _ _ _ _ _ _ H)
        as (Hn & Hn0 & Hs).
      split; [exact Hs|]. split; [intros _; exact Hn0|]. split.
      * intros pr E. apply jsstring_eqb_eq in Ew. rewrite Ew in E.
        destruct (event_names_differ E).
      * intros Hp. destruct found as [number b]. simpl in Hn. subst number.
        eapply findPullRequest_number; eauto.
  - intros n base s s' Hn Hk. apply finishResolution_known; assumption.
  - intros n base s' r w Hn Hb Hg. apply finishResolution_fetch; assumption.
  - intros pr Ee Ep Hb. unfold resolvePrContext.
    rewrite Ee, Ep. cbn [jsstring_eqb]. rewrite jsstring_eqb_refl.
    rewrite Hb. reflexivity.
Qed.

Definition WITNESS_ONE : Context :=
  mkContext (js "workflow_run") None
    (Some (mkWorkflowRun (Some (js "success")) (Some [WITNESS_PR]) None None None))
    (js "o") (js "r").

Lemma unit_octokit_positive : platform_numbers_positive WITNESS_ONE unit_octokit.
Proof.
  repeat split.
  - intros pr H. discriminate H.
  - intros wr H. injection H as <-. repeat constructor.
    intros n E. injection E as <-. reflexivity.
  - intros owner repo head w l w' H. injection H as <- _. constructor.
  - intros owner repo sha w l w' H. injection H as <- _. constructor.
Qed.

(** Witness of C5: one correlated pull request with its base. *)
Lemma resolvePrContext_proceed_witness :
  resolvePrContext WITNESS_ONE unit_octokit (js "o") (js "r") (tt, [])
  = (Ok (Proceed 7 (js "base1")), (tt, [])) /\
  js "base1" <> [] /\ (0 < 7)%Z.
Proof.
  split; [reflexivity|].
  destruct (resolvePrContext_proceed unit WITNESS_ONE unit_octokit (js "o") (js "r")
              (tt, [])) as (H & _).
  destruct (H 7%Z (js "base1") (tt, []) eq_refl) as (Hs & _ & _ & Hp).
  split; [exact Hs|]. apply Hp. exact unit_octokit_positive.
Defined.

(* ===================================================================== *)
(** * Reconciling the label *)
(* ===================================================================== *)

(** The state after a call that is entered in the log as [e]. *)
Definition after_call {W} (st : state W) (e : event) (w : W) : state W :=
  (w, snd st ++ [e]).

Lemma not_404_status e : not_404 e = false <-> status_of e = Some 404%Z.
Proof.
  unfold not_404. destruct (status_of e) as [z|]; [|split; discriminate].
  destruct (Z.eqb_spec z 404) as [->|H]; simpl; split; intros E;
    try reflexivity; try discriminate. injection E as E. contradiction.
Qed.

Lemma not_404_other e : status_of e <> Some 404%Z -> not_404 e = true.
Proof.
  intros H. destruct (not_404 e) eqn:E; [reflexivity|].
  apply not_404_status in E. contradiction.
Qed.

Lemma set_has_In x l : set_has x l = true <-> In x l.
Proof.
  induction l as [|y l IH]; simpl; [split; [discriminate|contradiction]|].
  rewrite orb_true_iff, jsstring_eqb_eq, IH. intuition.
Qed.

(** ** A platform that keeps the labels in memory *)

(** The labels on the pull request and the labels of the repository. *)
Record LabelStore := mkLabelStore {
  on_issue : list jsstring;
  in_repo : list jsstring
}.

Definition NOT_FOUND : exn := Error (js "Not Found") (Some 404%Z) None.
Definition ALREADY_EXISTS : exn := Error (js "Validation Failed") (Some 422%Z) None.

Definition without (name : jsstring) (l : list jsstring) : list jsstring :=
  filter (fun x => negb (jsstring_eqb x name)) l.

Definition add_all (names l : list jsstring) : list jsstring :=
  fold_left (fun acc x => set_add x acc) names l.

(** Modelled from the spec: the label set of the pull request (the
    LabelSet of the data model: label names, unique by name, changed by
    add and remove, read before it is changed), held by a platform that
    answers as the REST interface of the hosting platform does: removing a
    label the pull request does not have, and reading a label the
    repository does not have, are errors with status 404. *)
Definition memory_octokit : Octokit LabelStore :=
  mkOctokit
    (fun _ _ _ w => (Ok [], w))
    (fun _ _ _ w => (Ok [], w))
    (fun _ _ _ w => (Throw NOT_FOUND, w))
    (fun _ _ _ w => (Ok (List.map mkLabel (on_issue w)), w))
    (fun _ _ _ name w =>
       if set_has name (on_issue w)
       then (Ok tt, mkLabelStore (without name (on_issue w)) (in_repo w))
       else (Throw NOT_FOUND, w))
    (fun _ _ name w =>
       if set_has name (in_repo w) then (Ok tt, w) else (Throw NOT_FOUND, w))
    (fun _ _ name _ _ w =>
       if set_has name (in_repo w) then (Throw ALREADY_EXISTS, w)
       else (Ok tt, mkLabelStore (on_issue w) (in_repo w ++ [name])))
    (fun _ _ _ names w =>
       (Ok tt, mkLabelStore (add_all names (on_issue w))
                 (add_all names (in_repo w)))).

(** The labels the reconciliation keeps: those that do not start with
    the prefix, and the new label. *)
Definition kept (labelPrefix newLabel name : jsstring) : bool :=
  negb (startsWith name labelPrefix && negb (jsstring_eqb name newLabel)).

Lemma without_absent name l : set_has name l = false -> without name l = l.
Proof.
  unfold without. induction l as [|y l IH]; [reflexivity|]. simpl.
  intros H. apply orb_false_iff in H as [H1 H2].
  assert (E : jsstring_eqb y name = false).
  { destruct (jsstring_eqb y name) eqn:E; [|reflexivity].
    apply jsstring_eqb_eq in E. subst y. rewrite jsstring_eqb_refl in H1.
    discriminate. }
  rewrite E. simpl. f_equal. apply IH. exact H2.
Qed.

Lemma set_add_absent x l : set_has x l = false -> set_add x l = l ++ [x].
Proof.
  induction l as [|y l IH]; [reflexivity|]. simpl.
  intros H. apply orb_false_iff in H as [H1 H2]. rewrite H1.
  f_equal. apply IH. exact H2.
Qed.

Lemma set_has_add_all x names l :
  set_has x (add_all names l) = set_has x l || set_has x names.
Proof.
  unfold add_all. revert l. induction names as [|y names IH]; intros l; simpl.
  - rewrite orb_false_r. reflexivity.
  - rewrite IH.
    assert (E : set_has x (set_add y l) = set_has x l || jsstring_eqb x y).
    { destruct (set_has x (set_add y l)) eqn:E1.
      - apply set_has_add in E1. destruct E1 as [->|E1].
        + rewrite jsstring_eqb_refl, orb_true_r. reflexivity.
        + rewrite E1. reflexivity.
      - destruct (set_has x l) eqn:E2.
        + assert (set_has x (set_add y l) = true) by (apply set_has_add; auto).
          congruence.
        + destruct (jsstring_eqb x y) eqn:E3; [|reflexivity].
          apply jsstring_eqb_eq in E3. subst y.
          assert (set_has x (set_add x l) = true) by (apply set_has_add; auto).
          congruence. }
    rewrite E, orb_assoc. reflexivity.
Qed.

Lemma set_has_set_of x l : set_has x (set_of l) = set_has x l.
Proof. unfold set_of. apply (set_has_add_all x l []). Qed.

Lemma map_label_name l : List.map label_name (List.map mkLabel l) = l.
Proof. induction l; simpl; congruence. Qed.

Lemma filter_all {A} (f : A -> bool) l :
  (forall x, In x l -> f x = true) -> filter f l = l.
Proof.
  induction l as [|y l IH]; intros H; [reflexivity|]. simpl.
  rewrite (H y (or_introl eq_refl)). f_equal. apply IH.
  intros x Hx. apply H. right. exact Hx.
Qed.

Lemma filter_filter {A} (f g : A -> bool) l :
  filter f (filter g l) = filter (fun x => f x && g x) l.
Proof.
  induction l as [|y l IH]; [reflexivity|]. simpl.
  destruct (g y); simpl; [destruct (f y)|rewrite andb_false_r]; simpl;
    rewrite IH; reflexivity.
Qed.

(** ** The steps of the reconciliation *)

(** The state after the labels of the pull request are listed. *)
Definition after_listing {W} (st : state W) (issue : Z) (L : list Label) (w : W)
  : state W :=
  (w, snd st ++
      [EInfo (js "Fetching existing labels for issue #" ++ render_Z issue
                ++ js "...");
       EListLabelsOnIssue issue;
       EInfo (js "Found " ++ render_nat (length L) ++ js " existing labels: "
                ++ or_str (join (js ", ") (set_of (List.map label_name L)))
                     (js "(none)"))]).

(** The state after the listing has failed. *)
Definition after_failed_listing {W} (st : state W) (issue : Z) (w : W)
  : state W :=
  (w, snd st ++
      [EInfo (js "Fetching existing labels for issue #" ++ render_Z issue
                ++ js "...");
       EListLabelsOnIssue issue]).

(** The removal of the old labels, made when the prefix is not empty. *)
Definition removal {W} (octokit : Octokit W) (owner repo : jsstring) (issue : Z)
  (labelPrefix newLabel : jsstring) (L : list Label) : M W unit :=
  if truthy labelPrefix && (0 <? length labelPrefix)%nat
  then removeOldLabels octokit owner repo issue labelPrefix newLabel L
  else ret tt.

(** The state when the new label is about to be added. *)
Definition before_addition {W} (s : state W) (newLabel : jsstring) : state W :=
  (fst s, snd s ++ [EInfo (js "Adding new label: " ++ newLabel)]).

(** [upsertSemverLabel] after a listing that succeeds. *)
Lemma upsertSemverLabel_listed W (octokit : Octokit W) owner repo issue
  labelPrefix newLabel (st : state W) L w :
  issues_listLabelsOnIssue octokit owner repo issue (fst st) = (Ok L, w) ->
  upsertSemverLabel octokit owner repo issue labelPrefix newLabel st =
  match removal octokit owner repo issue labelPrefix newLabel L
          (after_listing st issue L w) with
  | (Ok _, s) =>
      if set_has newLabel (List.map label_name L)
      then info (js "Label " ++ QUOTE ++ newLabel ++ QUOTE
                   ++ js " already exists, skipping.") s
      else
        match ensureLabelExists octokit owner repo newLabel
                (before_addition s newLabel) with
        | (Ok _, s') =>
            call (EAddLabels issue [newLabel])
              (issues_addLabels octokit owner repo issue [newLabel]) s'
        | (Throw e, s') => (Throw e, s')
        | (Hang, s') => (Hang, s')
        end
  | (Throw e, s) => (Throw e, s)
  | (Hang, s) => (Hang, s)
  end.
Proof.
  intros Hl. unfold upsertSemverLabel.
  unfold bind at 1. unfold info at 1, emit at 1. unfold bind at 1.
  unfold call at 1. cbn [fst snd]. rewrite Hl.
  unfold bind at 1. unfold info at 1, emit at 1. cbn [fst snd].
  rewrite <- !app_assoc. cbn [app]. fold (after_listing st issue L w).
  fold (removal octokit owner repo issue labelPrefix newLabel L).
  unfold bind at 1.
  destruct (removal octokit owner repo issue labelPrefix newLabel L
              (after_listing st issue L w)) as [[[]|e|] s]; try reflexivity.
  rewrite set_has_set_of.
  destruct (set_has newLabel (List.map label_name L)); cbn [negb]; [reflexivity|].
  unfold bind at 1. unfold info at 1, emit at 1. cbn [fst snd].
  fold (before_addition s newLabel). unfold bind at 1.
  destruct (ensureLabelExists octokit owner repo newLabel
              (before_addition s newLabel)) as [[[]|e|] s']; reflexivity.
Qed.

Lemma upsertSemverLabel_not_listed W (octokit : Octokit W) owner repo issue
  labelPrefix newLabel (st : state W) e w :
  issues_listLabelsOnIssue octokit owner repo issue (fst st) = (Throw e, w) ->
  upsertSemverLabel octokit owner repo issue labelPrefix newLabel st =
  (Throw e, after_failed_listing st issue w).
Proof.
  intros Hl. unfold upsertSemverLabel.
  unfold bind at 1. unfold info at 1, emit at 1. unfold bind at 1.
  unfold call at 1. cbn [fst snd]. rewrite Hl.
  unfold after_failed_listing. rewrite <- app_assoc. reflexivity.
Qed.

(** What [ensureLabelExists] does, by the answer to the lookup of the
    label. *)
Lemma ensureLabelExists_cases W (octokit : Octokit W) owner repo name
  (st : state W) r w :
  issues_getLabel octokit owner repo name (fst st) = (r, w) ->
  ensureLabelExists octokit owner repo name st =
  match r with
  | Ok _ => (Ok tt, after_call st (EGetLabel name) w)
  | Throw e =>
      if not_404 e then (Throw e, after_call st (EGetLabel name) w)
      else call (ECreateLabel name LABEL_COLOR LABEL_DESCRIPTION)
             (issues_createLabel octokit owner repo name
                LABEL_COLOR LABEL_DESCRIPTION)
             (after_call st (EGetLabel name) w)
  | Hang => (Hang, after_call st (EGetLabel name) w)
  end.
Proof.
  intros Hr. unfold ensureLabelExists, bind, try_catch. unfold call at 1.
  rewrite Hr. fold (after_call st (EGetLabel name) w).
  destruct r as [[]|e|]; try reflexivity.
  destruct (not_404 e); reflexivity.
Qed.

(** C10, as amended. A 404 of the platform is not an error in two calls
    of the reconciliation. For [removeLabelIfExists], the removal
    returns; for [ensureLabelExists], a 404 of the lookup of the label
    makes it create the label with the color [ededed] and the description
    [Semver required update]; an error of these two calls with another
    status, or with none, is thrown on as it is, and nothing is created
    then. Every error of the other calls, a 404 as any other, is thrown
    on: of the listing of the labels, of the creation of the label and of
    the addition of the label. *)
Theorem label_404_is_not_fatal W (octokit : Octokit W) owner repo (st : state W) :
  (forall issue name r w,
     issues_removeLabel octokit owner repo issue name (fst st) = (r, w) ->
     let st1 := after_call st (ERemoveLabel issue name) w in
     (forall e, r = Throw e -> status_of e = Some 404%Z ->
        removeLabelIfExists octokit owner repo issue name st = (Ok tt, st1)) /\
     (forall e, r = Throw e -> status_of e <> Some 404%Z ->
        removeLabelIfExists octokit owner repo issue name st = (Throw e, st1)) /\
     (r = Ok tt ->
        removeLabelIfExists octokit owner repo issue name st = (Ok tt, st1))) /\
  (forall name r w,
     issues_getLabel octokit owner repo name (fst st) = (r, w) ->
     let st1 := after_call st (EGetLabel name) w in
     (forall e, r = Throw e -> status_of e = Some 404%Z ->
        ensureLabelExists octokit owner repo name st =
        call (ECreateLabel name (js "ededed") (js "Semver required update"))
          (issues_createLabel octokit owner repo name
             (js "ededed") (js "Semver required update")) st1) /\
     (forall e, r = Throw e -> status_of e <> Some 404%Z ->
        ensureLabelExists octokit owner repo name st = (Throw e, st1)) /\
     (r = Ok tt ->
        ensureLabelExists octokit owner repo name st = (Ok tt, st1)) /\
     (forall e e' w', r = Throw e -> status_of e = Some 404%Z ->
        issues_createLabel octokit owner repo name
          (js "ededed") (js "Semver required update") w = (Throw e', w') ->
        ensureLabelExists octokit owner repo name st =
        (Throw e',
         after_call st1
           (ECreateLabel name (js "ededed") (js "Semver required update")) w'))) /\
  (forall issue labelPrefix newLabel e w,
     issues_listLabelsOnIssue octokit owner repo issue (fst st) = (Throw e, w) ->
     upsertSemverLabel octokit owner repo issue labelPrefix newLabel st =
     (Throw e, after_failed_listing st issue w)) /\
  (forall issue labelPrefix newLabel L w s s' e w',
     issues_listLabelsOnIssue octokit owner repo issue (fst st) = (Ok L, w) ->
     ~ In newLabel (List.map label_name L) ->
     removal octokit owner repo issue labelPrefix newLabel L
       (after_listing st issue L w) = (Ok tt, s) ->
     ensureLabelExists octokit owner repo newLabel (before_addition s newLabel)
     = (Ok tt, s') ->
     issues_addLabels octokit owner repo issue [newLabel] (fst s') = (Throw e, w') ->
     upsertSemverLabel octokit owner repo issue labelPrefix newLabel st =
     (Throw e, after_call s' (EAddLabels issue [newLabel]) w')).
Proof.
  split; [|split; [|split]].
  - intros issue name r w Hr st1. unfold removeLabelIfExists, try_catch, call.
    rewrite Hr. fold (after_call st (ERemoveLabel issue name) w). fold st1.
    repeat split.
    + intros e -> He. apply not_404_status in He. rewrite He. reflexivity.
    + intros e -> He. rewrite (not_404_other _ He). reflexivity.
    + intros ->. reflexivity.
  - intros name r w Hr st1.
    rewrite (ensureLabelExists_cases _ _ _ _ _ _ _ _ Hr). fold st1.
    split; [|split; [|split]].
    + intros e -> He. apply not_404_status in He. rewrite He. reflexivity.
    + intros e -> He. rewrite (not_404_other _ He). reflexivity.
    + intros ->. reflexivity.
    + intros e e' w' -> He Hc. apply not_404_status in He. rewrite He.
      unfold call. change LABEL_COLOR with (js "ededed").
      change LABEL_DESCRIPTION with (js "Semver required update").
      cbn [fst snd]. unfold st1 at 1. cbn [fst after_call]. rewrite Hc.
      reflexivity.
  - intros. apply upsertSemverLabel_not_listed. assumption.
  - intros issue labelPrefix newLabel L w s s' e w' Hl Hn Hr He Ha.
    rewrite (upsertSemverLabel_listed _ _ _ _ _ _ _ _ _ _ Hl), Hr.
    destruct (set_has newLabel (List.map label_name L)) eqn:Eh.
    { apply set_has_In in Eh. contradiction. }
    rewrite He. unfold call. rewrite Ha. reflexivity.
Qed.

(** On the platform in memory, removing a label from the pull request,
    whether it has it or not, leaves the pull request without it. *)
Lemma removeLabelIfExists_memory owner repo issue name cur rep log :
  removeLabelIfExists memory_octokit owner repo issue name
    (mkLabelStore cur rep, log)
  = (Ok tt, (mkLabelStore (without name cur) rep, log ++ [ERemoveLabel issue name])).
Proof.
  unfold removeLabelIfExists, try_catch, call. cbn [fst snd memory_octokit
    issues_removeLabel on_issue in_repo].
  destruct (set_has name cur) eqn:E; [reflexivity|].
  cbn. rewrite (without_absent _ _ E). reflexivity.
Qed.

(** The loop over the existing labels removes, of the labels it goes
    through, those that are not kept. *)
Lemma removeOldLabels_memory owner repo issue labelPrefix newLabel rep :
  forall l cur log,
  exists log',
    removeOldLabels memory_octokit owner repo issue labelPrefix newLabel
      (List.map mkLabel l) (mkLabelStore cur rep, log)
    = (Ok tt,
       (mkLabelStore
          (filter (fun x => negb (set_has x l
                                  && negb (kept labelPrefix newLabel x))) cur)
          rep,
        log ++ log')) /\
    forall e, In e log' ->
      match e with
      | ERemoveLabel _ name => kept labelPrefix newLabel name = false /\ In name l
      | EInfo _ => True
      | _ => False
      end.
Proof.
  induction l as [|a l IH]; intros cur log.
  - exists []. simpl. split; [|intros e []].
    rewrite app_nil_r, filter_all; [reflexivity|]. intros x _. reflexivity.
  - cbn [List.map removeOldLabels label_name].
    destruct (startsWith a labelPrefix && negb (jsstring_eqb a newLabel)) eqn:Ea.
    + unfold bind at 1. unfold bind at 1. unfold info at 1, emit at 1.
      cbn [fst snd]. rewrite removeLabelIfExists_memory.
      destruct (IH (without a cur)
                  ((log ++ [EInfo (js "Removing old label: " ++ a)])
                     ++ [ERemoveLabel issue a])) as (log' & E & Hl).
      exists ([EInfo (js "Removing old label: " ++ a); ERemoveLabel issue a] ++ log').
      split.
      * rewrite E. unfold without. rewrite filter_filter.
        rewrite <- !app_assoc. f_equal. f_equal. f_equal.
        apply filter_ext. intros x. simpl.
        destruct (jsstring_eqb x a) eqn:Ex; simpl.
        -- apply jsstring_eqb_eq in Ex. subst x. unfold kept. rewrite Ea.
           simpl. rewrite andb_false_r. reflexivity.
        -- rewrite andb_true_r. reflexivity.
      * intros e [<-|[<-|He]]; [exact I| |].
        -- split; [unfold kept; rewrite Ea; reflexivity|left; reflexivity].
        -- specialize (Hl e He). destruct e; try assumption.
           destruct Hl as [Hk Hi]. split; [exact Hk|right; exact Hi].
    + unfold bind at 1. unfold ret at 1.
      destruct (IH cur log) as (log' & E & Hl).
      exists log'. split.
      * rewrite E. f_equal. f_equal. f_equal.
        apply filter_ext. intros x. simpl.
        destruct (jsstring_eqb x a) eqn:Ex; simpl; [|reflexivity].
        apply jsstring_eqb_eq in Ex. subst x. unfold kept. rewrite Ea. simpl.
        rewrite andb_false_r. reflexivity.
      * intros e He. specialize (Hl e He). destruct e; try assumption.
        destruct Hl as [Hk Hi]. split; [exact Hk|right; exact Hi].
Qed.

Lemma truthy_nonempty (s : jsstring) :
  s <> [] -> truthy s && (0 <? length s)%nat = true.
Proof. destruct s; [congruence|reflexivity]. Qed.

(** What the reconciliation leaves on the pull request. *)
Definition reconciled (labelPrefix newLabel : jsstring) (labels : list jsstring)
  : list jsstring :=
  filter (kept labelPrefix newLabel) labels
  ++ (if set_has newLabel labels then [] else [newLabel]).

Lemma set_add_present x l : set_has x l = true -> set_add x l = l.
Proof.
  induction l as [|y l IH]; [discriminate|]. simpl.
  destruct (jsstring_eqb x y) eqn:E; [reflexivity|]. simpl.
  intros H. rewrite (IH H). reflexivity.
Qed.

(** The calls that make sure of the new label and add it. *)
Definition addition (issue : Z) (newLabel : jsstring) (inRepo : bool)
  : list event :=
  [EInfo (js "Adding new label: " ++ newLabel); EGetLabel newLabel]
  ++ (if inRepo then []
      else [ECreateLabel newLabel (js "ededed") (js "Semver required update")])
  ++ [EAddLabels issue [newLabel]].

(** The reconciliation on the platform in memory, call by call. *)
Lemma upsertSemverLabel_memory owner repo issue labelPrefix newLabel w log :
  labelPrefix <> [] ->
  exists removed,
    (forall e, In e removed ->
       match e with
       | ERemoveLabel _ name =>
           kept labelPrefix newLabel name = false /\ In name (on_issue w)
       | EInfo _ => True
       | _ => False
       end) /\
    upsertSemverLabel memory_octokit owner repo issue labelPrefix newLabel (w, log)
    = (Ok tt,
       if set_has newLabel (on_issue w)
       then (mkLabelStore (reconciled labelPrefix newLabel (on_issue w)) (in_repo w),
             snd (after_listing (w, log) issue (List.map mkLabel (on_issue w)) w)
               ++ removed
               ++ [EInfo (js "Label " ++ QUOTE ++ newLabel ++ QUOTE
                            ++ js " already exists, skipping.")])
       else (mkLabelStore (reconciled labelPrefix newLabel (on_issue w))
               (set_add newLabel (in_repo w)),
             snd (after_listing (w, log) issue (List.map mkLabel (on_issue w)) w)
               ++ removed
               ++ addition issue newLabel (set_has newLabel (in_repo w)))).
Proof.
  intros Hp. destruct w as [cur rep]. cbn [on_issue in_repo].
  rewrite (upsertSemverLabel_listed _ memory_octokit owner repo issue labelPrefix
             newLabel (mkLabelStore cur rep, log) (List.map mkLabel cur)
             (mkLabelStore cur rep) eq_refl).
  unfold removal. rewrite (truthy_nonempty _ Hp). unfold after_listing at 1.
  destruct (removeOldLabels_memory owner repo issue labelPrefix newLabel rep
              cur cur
              (snd (after_listing (mkLabelStore cur rep, log) issue
                      (List.map mkLabel cur) (mkLabelStore cur rep))))
    as (removed & E & Hl).
  exists removed. split; [exact Hl|].
  cbn [snd after_listing] in E |- *. rewrite E. clear E.
  rewrite map_label_name.
  assert (F : filter (fun x => negb (set_has x cur
                               && negb (kept labelPrefix newLabel x))) cur
              = filter (kept labelPrefix newLabel) cur).
  { apply filter_ext_in. intros x Hx.
    rewrite (proj2 (set_has_In x cur) Hx). simpl. rewrite negb_involutive.
    reflexivity. }
  rewrite F. clear F. unfold reconciled.
  destruct (set_has newLabel cur) eqn:En.
  - unfold info, emit. cbn [fst snd]. rewrite app_nil_r, <- !app_assoc.
    reflexivity.
  - assert (Hk : set_has newLabel (filter (kept labelPrefix newLabel) cur) = false).
    { destruct (set_has newLabel (filter _ cur)) eqn:E; [|reflexivity].
      apply set_has_In in E. apply filter_In in E as [E _].
      apply set_has_In in E. congruence. }
    rewrite (ensureLabelExists_cases _ memory_octokit owner repo newLabel _
               (if set_has newLabel rep then Ok tt else Throw NOT_FOUND)
               (mkLabelStore (filter (kept labelPrefix newLabel) cur) rep));
      [|cbn; destruct (set_has newLabel rep); reflexivity].
    unfold addition, before_addition, after_call.
    destruct (set_has newLabel rep) eqn:Er.
    + unfold call. cbn [fst snd memory_octokit issues_addLabels on_issue in_repo
                       add_all fold_left].
      rewrite (set_add_absent _ _ Hk). rewrite <- !app_assoc. reflexivity.
    + cbn [not_404 status_of NOT_FOUND Z.eqb Pos.eqb negb].
      unfold call. cbn [fst snd memory_octokit issues_createLabel issues_addLabels
                       on_issue in_repo add_all fold_left].
      rewrite Er. cbn [fst snd on_issue in_repo].
      rewrite (set_add_absent _ _ Hk), (set_add_absent _ _ Er).
      rewrite set_add_present.
      * rewrite <- !app_assoc. reflexivity.
      * apply set_has_In. apply in_or_app. right. left. reflexivity.
Qed.

(** ** On any platform *)







Lemma In_reconciled labelPrefix newLabel labels name :
  In name (reconciled labelPrefix newLabel labels) <->
  (In name labels /\ (startsWith name labelPrefix = true -> name = newLabel))
  \/ name = newLabel.
Proof.
  unfold reconciled. rewrite in_app_iff, filter_In. unfold kept. split.
  - intros [[Hi Hk]|H].
    + left. split; [exact Hi|]. intros Hs. rewrite Hs in Hk. simpl in Hk.
      apply negb_true_iff, negb_false_iff in Hk. apply jsstring_eqb_eq. exact Hk.
    + destruct (set_has newLabel labels); [contradiction|].
      destruct H as [<-|[]]. right. reflexivity.
  - intros [[Hi Hk]| ->].
    + left. split; [exact Hi|].
      destruct (startsWith name labelPrefix); [|reflexivity].
      rewrite (Hk eq_refl), jsstring_eqb_refl. reflexivity.
    + destruct (set_has newLabel labels) eqn:E.
      * left. split; [apply set_has_In; exact E|].
        rewrite jsstring_eqb_refl, andb_false_r. reflexivity.
      * right. left. reflexivity.
Qed.





Definition MAJOR_AND_BUG : LabelStore :=
  mkLabelStore [js "semver: major"; js "bug"] [js "semver: major"; js "bug"].



Lemma label_prefix_nonempty : DEFAULT_LABEL_PREFIX <> [].
Proof. discriminate. Qed.



(* ===================================================================== *)
(** * The retry policy *)
(* ===================================================================== *)

(** The status of the error is one of 502, 503, 504. *)
Definition transient (e : exn) : Prop :=
  status_of e = Some 502%Z \/ status_of e = Some 503%Z \/ status_of e = Some 504%Z.

Lemma isRetryableError_transient e : isRetryableError e = true <-> transient e.
Proof.
  unfold transient. destruct e as [m [z|] c|t]; simpl.
  - split.
    + intros H. apply andb_true_iff in H as [_ H].
      repeat (apply orb_true_iff in H as [H|H];
              [apply Z.eqb_eq in H; subst; auto|]).
      discriminate.
    + intros [H|[H|H]]; injection H as ->; reflexivity.
  - split; [discriminate|]. intros [H|[H|H]]; discriminate.
  - split; [discriminate|]. intros [H|[H|H]]; discriminate.
Qed.

(** The result is a thrown error the policy retries. *)
Definition fails_transiently {W T} (x : outcome T * state W) : Prop :=
  exists e, result_of x = Throw e /\ transient e.

(** The state after the warning and the wait that follow the failure of
    attempt number [attempt]. *)
Definition backoff {W} (label : jsstring) (attempt : nat) (e : exn)
  (st : state W) : state W :=
  (fst st,
   snd st ++
     [EWarning (label ++ js " failed (" ++ message_of e ++ js "). Retrying ("
                  ++ render_nat attempt ++ js "/" ++ render_nat 3 ++ js ")...");
      ESleep (1000 * attempt)]).

Lemma not_transient_result {W T} (x : outcome T * state W) :
  ~ fails_transiently x ->
  match fst x with
  | Throw e => isRetryableError e = false
  | _ => True
  end.
Proof.
  intros H. destruct x as [[v|e|] s]; simpl; auto.
  destruct (isRetryableError e) eqn:E; [|reflexivity].
  exfalso. apply H. exists e. split; [reflexivity|].
  apply isRetryableError_transient. exact E.
Qed.

Lemma withRetries_first W T (op : M W T) label st :
  ~ fails_transiently (op st) -> withRetries op label st = op st.
Proof.
  intros H. apply not_transient_result in H.
  unfold withRetries, withRetries_n. cbn [withRetries_loop]. unfold try_catch.
  destruct (op st) as [[v|e|] s]; try reflexivity.
  simpl in H. rewrite H. reflexivity.
Qed.

Lemma withRetries_second W T (op : M W T) label st e1 s1 :
  op st = (Throw e1, s1) -> transient e1 ->
  ~ fails_transiently (op (backoff label 1 e1 s1)) ->
  withRetries op label st = op (backoff label 1 e1 s1).
Proof.
  intros H1 T1 H. apply not_transient_result in H.
  apply isRetryableError_transient in T1.
  unfold withRetries, withRetries_n. cbn [withRetries_loop]. unfold try_catch at 1.
  rewrite H1, T1. cbn [Nat.leb orb negb].
  unfold bind at 1. unfold warning at 1, emit at 1.
  unfold bind at 1. unfold sleep at 1, emit at 1. cbn [fst snd].
  rewrite <- app_assoc. cbn [app].
  change (fst s1, snd s1 ++ _) with (backoff label 1 e1 s1).
  unfold try_catch.
  destruct (op (backoff label 1 e1 s1)) as [[v|e|] s]; try reflexivity.
  simpl in H. rewrite H. reflexivity.
Qed.

Lemma withRetries_third W T (op : M W T) label st e1 s1 e2 s2 :
  op st = (Throw e1, s1) -> transient e1 ->
  op (backoff label 1 e1 s1) = (Throw e2, s2) -> transient e2 ->
  withRetries op label st = op (backoff label 2 e2 s2).
Proof.
  intros H1 T1 H2 T2.
  apply isRetryableError_transient in T1. apply isRetryableError_transient in T2.
  unfold withRetries, withRetries_n. cbn [withRetries_loop]. unfold try_catch at 1.
  rewrite H1, T1. cbn [Nat.leb orb negb].
  unfold bind at 1. unfold warning at 1, emit at 1.
  unfold bind at 1. unfold sleep at 1, emit at 1. cbn [fst snd].
  rewrite <- app_assoc. cbn [app].
  change (fst s1, snd s1 ++ _) with (backoff label 1 e1 s1).
  unfold try_catch at 1. rewrite H2, T2. cbn [Nat.leb orb negb].
  unfold bind at 1. unfold warning at 1, emit at 1.
  unfold bind at 1. unfold sleep at 1, emit at 1. cbn [fst snd].
  rewrite <- app_assoc. cbn [app].
  change (fst s2, snd s2 ++ _) with (backoff label 2 e2 s2).
  unfold try_catch.
  destruct (op (backoff label 2 e2 s2)) as [[v|e|] s]; reflexivity.
Qed.

(* ===================================================================== *)
(** * What the action calls, and how often *)
(* ===================================================================== *)

Definition is_download (e : event) : bool :=
  match e with EHttpsGet _ => true | _ => false end.

Definition is_latest_version (e : event) : bool :=
  match e with EGetLatestVersion => true | _ => false end.

Definition is_sleep (e : event) : bool :=
  match e with ESleep _ => true | _ => false end.

Ltac unfold_action :=
  unfold run_body, runWithToken, checkPullRequest, applyLabel,
    getInput_required, when, ensureGitShaAvailable, installCargoSemverChecks,
    installFromRelease, installWithCargo, runSemverChecks, determineSemverType,
    runCommand, fs, httpsGet, getLatestVersion, resolvePrContext,
    resolveWorkflowRun, findPullRequest, resolveFromHeadSha, finishResolution,
    upsertSemverLabel, ensureLabelExists, setOutput, info, warning, sleep.

Section Calls.

Context {W : Type}.
Variable ctx : Context.
Variable host : Host W.

Lemma installCargoSemverChecks_downloads version cwd toolchain useReleaseBinary :
  adds is_download 1
    (installCargoSemverChecks host version cwd toolchain useReleaseBinary).
Proof. unfold_action. adds_once. Qed.

Lemma installCargoSemverChecks_latest version cwd toolchain useReleaseBinary :
  adds is_latest_version 1
    (installCargoSemverChecks host version cwd toolchain useReleaseBinary).
Proof. unfold_action. adds_once. Qed.

Lemma run_body_downloads : adds is_download 1 (run_body ctx host).
Proof. unfold_action. adds_once. Qed.

Lemma run_body_latest : adds is_latest_version 1 (run_body ctx host).
Proof. unfold_action. adds_once. Qed.

Lemma run_body_setFailed : adds is_setFailed 0 (run_body ctx host).
Proof. unfold_action. adds_none. Qed.

End Calls.

Lemma run_downloads W ctx (host : Host W) : adds is_download 1 (run ctx host).
Proof.
  unfold run. apply (adds_try_catch _ 1 0); [apply run_body_downloads|].
  intros e. adds_none.
Qed.

Lemma run_latest W ctx (host : Host W) : adds is_latest_version 1 (run ctx host).
Proof.
  unfold run. apply (adds_try_catch _ 1 0); [apply run_body_latest|].
  intros e. adds_none.
Qed.

(** The inputs of the action, as [run] reads them. *)
Record Inputs := mkInputs {
  in_cargoVersion : jsstring;
  in_useReleaseBinary : bool;
  in_labelPrefix : jsstring;
  in_packageName : jsstring;
  in_toolchain : jsstring;
  in_featureGroup : jsstring;
  in_features : jsstring;
  in_rustTarget : jsstring
}.

Definition inputs_of {W} (host : Host W) : Inputs :=
  mkInputs
    (or_str (getInput host (js "cargo-semver-checks-version"))
       DEFAULT_CARGO_SEMVER_CHECKS_VERSION)
    (jsstring_eqb (getInput host (js "use-release-binary")) []
     || jsstring_eqb (getInput host (js "use-release-binary")) (js "true"))
    (or_str (getInput host (js "label-prefix")) DEFAULT_LABEL_PREFIX)
    (getInput host (js "package")) (getInput host (js "toolchain"))
    (getInput host (js "feature-group")) (getInput host (js "features"))
    (getInput host (js "rust-target")).

(** The run after the resolution of the context. *)
Definition after_context {W} (ctx : Context) (host : Host W) (token : jsstring)
  (x : outcome PrContextResolution * state W) : outcome unit * state W :=
  let i := inputs_of host in
  match x with
  | (Ok (Skip reason), s) => info reason s
  | (Ok (Proceed prNumber baseSha), s) =>
      (semverType <- checkPullRequest ctx host (in_cargoVersion i)
                       (in_useReleaseBinary i) (in_packageName i)
                       (in_toolchain i) (in_featureGroup i) (in_features i)
                       (in_rustTarget i) prNumber baseSha ;;
       applyLabel (getOctokit host token) (context_owner ctx) (context_repo ctx)
         (in_labelPrefix i) prNumber semverType) s
  | (Throw e, s) => (Throw e, s)
  | (Hang, s) => (Hang, s)
  end.

(** The end of the run after the reconciliation of the label. *)
Definition after_label {W} (semverType : SemverType)
  (x : outcome unit * state W) : outcome unit * state W :=
  match x with
  | (Ok _, s) =>
      (Ok tt, (fst s, snd s ++ [EInfo (js "Label applied successfully.");
                                ESetOutput (js "semver-type")
                                  (semver_name semverType)]))
  | other => other
  end.

Lemma runWithToken_retries W ctx (host : Host W) token (st : state W) :
  runWithToken ctx host token st =
  after_context ctx host token
    (withRetries
       (resolvePrContext ctx (getOctokit host token) (context_owner ctx)
          (context_repo ctx))
       (js "Resolve PR context") st).
Proof.
  unfold runWithToken, after_context, inputs_of. cbn [in_cargoVersion
    in_useReleaseBinary in_labelPrefix in_packageName in_toolchain
    in_featureGroup in_features in_rustTarget].
  rewrite !or_str_nil. unfold bind at 1.
  destruct (withRetries _ _ st) as [[[reason|n b]|e|] s]; reflexivity.
Qed.

Lemma applyLabel_retries W (octokit : Octokit W) owner repo labelPrefix prNumber
  semverType (st : state W) :
  applyLabel octokit owner repo labelPrefix prNumber semverType st =
  after_label semverType
    (withRetries
       (upsertSemverLabel octokit owner repo prNumber labelPrefix
          (labelPrefix ++ semver_name semverType))
       (js "Apply semver label")
       (fst st,
        snd st ++
          [EInfo (js "Determined semver type: " ++ semver_name semverType);
           EInfo (js "Applying label " ++ QUOTE
                    ++ (labelPrefix ++ semver_name semverType) ++ QUOTE
                    ++ js " to PR #" ++ render_Z prNumber ++ js "...")])).
Proof.
  unfold applyLabel, after_label.
  unfold bind at 1. unfold info at 1, emit at 1.
  unfold bind at 1. unfold info at 1, emit at 1. cbn [fst snd].
  rewrite <- app_assoc. cbn [app]. unfold bind at 1.
  destruct (withRetries _ _ _) as [[[]|e|] s]; try reflexivity.
  unfold bind, info, setOutput, emit. cbn [fst snd].
  rewrite <- app_assoc. reflexivity.
Qed.

(** ** The installer and its network operations *)

Arguments os_platform {World} h.
Arguments os_arch {World} h.

(** The address of the release binary, as [installFromRelease] makes it. *)
Definition downloadUrl {W} (host : Host W) (resolvedVersion triple : jsstring)
  : jsstring :=
  let versionTag :=
    if startsWith resolvedVersion (js "v") then resolvedVersion
    else js "v" ++ resolvedVersion in
  let isWindows := jsstring_eqb (os_platform host) (js "win32") in
  let ext := if isWindows then js "zip" else js "tar.gz" in
  let assetName := js "cargo-semver-checks-" ++ triple ++ js "." ++ ext in
  GITHUB_RELEASES_BASE ++ js "/download/" ++ versionTag ++ js "/" ++ assetName.

(** A download that fails is the failure of [installFromRelease]. *)
Lemma installFromRelease_download W (host : Host W) version triple
  (s : state W) e w :
  getTargetTriple host = Some triple ->
  jsstring_eqb version DEFAULT_CARGO_SEMVER_CHECKS_VERSION = false ->
  net_httpsGet host (downloadUrl host version triple) (fst s) = (Throw e, w) ->
  installFromRelease host version s =
  (Throw e,
   (w, snd s ++ [EInfo (js "Downloading: " ++ downloadUrl host version triple);
                 EHttpsGet (downloadUrl host version triple)])).
Proof.
  intros Ht Hv Hd. unfold installFromRelease. rewrite Ht, Hv.
  unfold bind at 1. unfold ret at 1. cbv zeta.
  fold (downloadUrl host version triple).
  unfold bind at 1. unfold info at 1, emit at 1.
  unfold bind at 1. unfold httpsGet at 1, call at 1. cbn [fst snd].
  rewrite Hd. rewrite <- app_assoc. reflexivity.
Qed.

(** So is a resolution of the latest version that fails. *)
Lemma installFromRelease_latest W (host : Host W) triple (s : state W) e w :
  getTargetTriple host = Some triple ->
  net_getLatestVersion host (fst s) = (Throw e, w) ->
  installFromRelease host DEFAULT_CARGO_SEMVER_CHECKS_VERSION s =
  (Throw e,
   (w, snd s ++ [EInfo (js "Resolving latest version..."); EGetLatestVersion])).
Proof.
  intros Ht Hd. unfold installFromRelease. rewrite Ht.
  change (jsstring_eqb DEFAULT_CARGO_SEMVER_CHECKS_VERSION
            DEFAULT_CARGO_SEMVER_CHECKS_VERSION) with true. cbv iota.
  unfold bind at 1. unfold bind at 1. unfold info at 1, emit at 1.
  unfold bind at 1. unfold getLatestVersion at 1, call at 1. cbn [fst snd].
  rewrite Hd. rewrite <- app_assoc. reflexivity.
Qed.

(** The state after [cargo --version] has answered [r]. *)
Definition after_cargo_version {W} (st : state W) (r : CommandResult) (w : W)
  : state W :=
  (w, snd st ++ [ESpawnSync (js "cargo") [js "--version"];
                 EInfo (js "Cargo version: " ++ trim (cmd_stdout r))]).

(** The state after the warning that the release binary is given up. *)
Definition after_release_failure {W} (s : state W) (e : exn) : state W :=
  (fst s,
   snd s ++ [EWarning (js "Failed to install from release: " ++ message_of e
                         ++ js ". Falling back to cargo install.")]).

(** The installer, with the release binary asked for, on a platform that
    has one and with a working [cargo]. *)
Lemma installCargoSemverChecks_release W (host : Host W)
  version cwd toolchain (st : state W) r w :
  spawnSync host (js "cargo") [js "--version"] (mkOptions (Some cwd) []) (fst st)
  = (mkSpawn None r, w) ->
  status_is_zero r = true ->
  getTargetTriple host <> None ->
  installCargoSemverChecks host version cwd toolchain true st =
  match installFromRelease host version (after_cargo_version st r w) with
  | (Ok _, s) => (Ok tt, s)
  | (Throw e, s) =>
      installWithCargo host version cwd toolchain (after_release_failure s e)
  | (Hang, s) => (Hang, s)
  end.
Proof.
  intros Hs Hz Ht. unfold installCargoSemverChecks.
  unfold bind at 1. unfold runCommand at 1. unfold bind at 1, call at 1.
  rewrite Hs. cbn [fst snd spawn_error spawn_result]. unfold ret at 1.
  rewrite Hz. cbn [negb]. unfold bind at 1. unfold info at 1, emit at 1.
  cbn [fst snd]. rewrite <- app_assoc. cbn [app].
  fold (after_cargo_version st r w).
  destruct (getTargetTriple host) as [triple|]; [|congruence].
  unfold bind at 1, try_catch at 1. unfold bind at 1.
  destruct (installFromRelease host version (after_cargo_version st r w))
    as [[[]|e|] s]; try reflexivity.
Qed.

(** C6, as amended. The two operations on the platform, the resolution
    of the context and the reconciliation of the label, run under the
    retry policy: an attempt that does not fail with status 502, 503 or
    504 ends the operation with its result; after such a failure of
    attempt [k < 3] the action warns, waits [k] seconds and tries again;
    the third attempt ends the operation whatever it gives. The binary
    download and the resolution of the latest version are not under the
    policy: a run makes each of them at most once; a failure of either is
    the failure of the installation from the release, and whatever that
    installation throws, the installer warns and installs with
    [cargo install]. *)
Theorem retry_policy W ctx (host : Host W) T (operation : M W T) label
  (st : state W) :
  (~ fails_transiently (operation st) ->
   withRetries operation label st = operation st) /\
  (forall e1 s1, operation st = (Throw e1, s1) -> transient e1 ->
     (~ fails_transiently (operation (backoff label 1 e1 s1)) ->
      withRetries operation label st = operation (backoff label 1 e1 s1)) /\
     (forall e2 s2,
        operation (backoff label 1 e1 s1) = (Throw e2, s2) -> transient e2 ->
        withRetries operation label st = operation (backoff label 2 e2 s2))) /\
  (forall token s,
     runWithToken ctx host token s =
     after_context ctx host token
       (withRetries
          (resolvePrContext ctx (getOctokit host token) (context_owner ctx)
             (context_repo ctx))
          (js "Resolve PR context") s)) /\
  (forall (octokit : Octokit W) owner repo labelPrefix prNumber semverType s,
     applyLabel octokit owner repo labelPrefix prNumber semverType s =
     after_label semverType
       (withRetries
          (upsertSemverLabel octokit owner repo prNumber labelPrefix
             (labelPrefix ++ semver_name semverType))
          (js "Apply semver label")
          (fst s,
           snd s ++
             [EInfo (js "Determined semver type: " ++ semver_name semverType);
              EInfo (js "Applying label " ++ QUOTE
                       ++ (labelPrefix ++ semver_name semverType) ++ QUOTE
                       ++ js " to PR #" ++ render_Z prNumber ++ js "...")]))) /\
  adds is_download 1 (run ctx host) /\
  adds is_latest_version 1 (run ctx host) /\
  (forall version triple s e w,
     getTargetTriple host = Some triple ->
     (version <> js "latest" ->
      net_httpsGet host (downloadUrl host version triple) (fst s) = (Throw e, w) ->
      installFromRelease host version s =
      (Throw e,
       (w, snd s ++ [EInfo (js "Downloading: " ++ downloadUrl host version triple);
                     EHttpsGet (downloadUrl host version triple)]))) /\
     (net_getLatestVersion host (fst s) = (Throw e, w) ->
      installFromRelease host (js "latest") s =
      (Throw e,
       (w, snd s ++ [EInfo (js "Resolving latest version...");
                     EGetLatestVersion])))) /\
  (forall version cwd toolchain s r w,
     spawnSync host (js "cargo") [js "--version"] (mkOptions (Some cwd) []) (fst s)
     = (mkSpawn None r, w) ->
     cmd_status r = Some 0%Z ->
     getTargetTriple host <> None ->
     forall e s',
       installFromRelease host version (after_cargo_version s r w) = (Throw e, s') ->
       installCargoSemverChecks host version cwd toolchain true s =
       installWithCargo host version cwd toolchain (after_release_failure s' e)).
Proof.
  split; [apply withRetries_first|].
  split; [|split; [|split; [|split; [|split; [|split]]]]].
  - intros e1 s1 H1 T1. split.
    + apply withRetries_second; assumption.
    + intros e2 s2 H2 T2. eapply withRetries_third; eauto.
  - intros token s. apply runWithToken_retries.
  - intros. apply applyLabel_retries.
  - apply run_downloads.
  - apply run_latest.
  - intros version triple s e w Ht. split.
    + intros Hv. apply installFromRelease_download; [exact Ht|].
      apply jsstring_eqb_neq. exact Hv.
    + apply (installFromRelease_latest _ _ triple). exact Ht.
  - intros version cwd toolchain s r w Hs Hz Ht e s' Hr.
    rewrite (installCargoSemverChecks_release _ _ _ _ _ _ _ _ Hs); [|
      unfold status_is_zero; rewrite Hz; reflexivity | exact Ht].
    rewrite Hr. reflexivity.
Qed.

Definition SERVICE_UNAVAILABLE : exn :=
  Error (js "Service Unavailable") (Some 503%Z) None.

(** A listing of the labels that fails twice with status 503. *)
Definition flaky_listing : M nat (list Label) :=
  call (EListLabelsOnIssue 7)
    (fun w => if (w <? 2)%nat then (Throw SERVICE_UNAVAILABLE, S w)
              else (Ok [], S w)).

Lemma SERVICE_UNAVAILABLE_transient : transient SERVICE_UNAVAILABLE.
Proof. right; left; reflexivity. Qed.

(** Witness of C6 as amended: two failures with status 503, then the
    third attempt, after waits of one and two seconds. *)
Lemma retry_policy_witness :
  withRetries flaky_listing (js "Apply semver label") (0, []) =
  (Ok [],
   (3,
    [EListLabelsOnIssue 7;
     EWarning (js "Apply semver label failed (Service Unavailable). Retrying (1/3)...");
     ESleep 1000;
     EListLabelsOnIssue 7;
     EWarning (js "Apply semver label failed (Service Unavailable). Retrying (2/3)...");
     ESleep 2000;
     EListLabelsOnIssue 7])).
Proof.
  destruct (retry_policy nat
              (mkContext [] None None [] [])
              (mkHost (fun _ => []) (fun _ => idle_octokit) None [] [] [] [] []
                 (fun _ => []) (fun _ w => (Ok tt, w))
                 (fun _ _ _ w =>
                    (mkSpawn None (mkCommandResult None [] []), w))
                 (fun w => (Ok [], w)) (fun _ w => (Ok [], w))
                 (fun _ w => (Ok [], w)) (fun _ w => (true, w))
                 (fun _ w => (Ok tt, w)))
              (list Label) flaky_listing (js "Apply semver label") (0, []))
    as (_ & H & _).
  destruct (H SERVICE_UNAVAILABLE (1, [EListLabelsOnIssue 7]) eq_refl
              SERVICE_UNAVAILABLE_transient) as (_ & H2).
  rewrite (H2 SERVICE_UNAVAILABLE
             (2, [EListLabelsOnIssue 7;
                  EWarning (js "Apply semver label failed (Service Unavailable). Retrying (1/3)...");
                  ESleep 1000; EListLabelsOnIssue 7])
             eq_refl SERVICE_UNAVAILABLE_transient).
  reflexivity.
Defined.

(** ** A run whose download fails *)

Definition DIRECT_SEVEN : Context :=
  mkContext (js "pull_request")
    (Some (mkPullRequestPayload 7 (Some (mkBaseRef (Some (js "abc"))))))
    None (js "o") (js "r").

Definition RELEASE_URL : jsstring :=
  js "https://github.com/obi1kenobi/cargo-semver-checks/releases/download/v0.40.0/cargo-semver-checks-x86_64-unknown-linux-gnu.tar.gz".

(** A Linux host on which every command succeeds and the checker asks for
    a minor version, and whose first download, and only the first, fails
    with [failure]; the world counts the downloads started. *)
Definition flaky_download_host (failure : exn) : Host nat :=
  mkHost
    (fun name => if jsstring_eqb name (js "github-token") then js "t" else [])
    (fun _ => idle_octokit)
    None (js "/w") (js "linux") (js "x64") (js "/tmp") (js "/home")
    (join (js "/"))
    (fun _ w => (Ok tt, w))
    (fun _ _ _ w =>
       (mkSpawn None
          (mkCommandResult (Some 0%Z) (js "semver requires new minor version") []),
        w))
    (fun w => (Ok (js "0.40.0"), w))
    (fun _ w => if (w =? 0)%nat then (Throw failure, S w)
                else (Ok (js "archive"), S w))
    (fun prefix w => (Ok (prefix ++ js "XXXXXX"), w))
    (fun _ w => (true, w))
    (fun _ w => (Ok tt, w)).

(** What [httpsGet] rejects with on a response with status 503, and the
    same with the status as a property of the error. *)
Definition HTTP_503 : exn := new_Error (js "HTTP 503 for " ++ RELEASE_URL).
Definition HTTP_503_status : exn :=
  Error (js "HTTP 503 for " ++ RELEASE_URL) (Some 503%Z) None.

(** The download fails with [failure], would succeed if tried again, and
    the run makes it once and never again: it waits for nothing and
    installs with cargo. *)
Definition download_not_retried (failure : exn) : Prop :=
  let host := flaky_download_host failure in
  let final := run DIRECT_SEVEN host (0, []) in
  net_httpsGet host RELEASE_URL 0 = (Throw failure, 1) /\
  net_httpsGet host RELEASE_URL 1 = (Ok (js "archive"), 2) /\
  filter is_download (log_of final) = [EHttpsGet RELEASE_URL] /\
  filter is_sleep (log_of final) = [] /\
  world_of final = 1 /\
  In (ESpawnSync (js "cargo")
        [js "install"; js "cargo-semver-checks"; js "--locked"])
     (log_of final) /\
  result_of final = Ok tt.

(** C6, as stated, fails for the binary download: a download that fails
    with status 503 is not tried again, whether the error carries the
    status in its message, as the one [httpsGet] makes, or as a property. *)
Lemma download_retry_counterexample :
  download_not_retried HTTP_503 /\ download_not_retried HTTP_503_status.
Proof.
  split; unfold download_not_retried; cbv zeta.
  - split; [reflexivity|]. split; [reflexivity|].
    split; [vm_compute; reflexivity|]. split; [vm_compute; reflexivity|].
    split; [vm_compute; reflexivity|]. split; [|vm_compute; reflexivity].
    vm_compute. repeat (first [left; reflexivity | right]).
  - split; [reflexivity|]. split; [reflexivity|].
    split; [vm_compute; reflexivity|]. split; [vm_compute; reflexivity|].
    split; [vm_compute; reflexivity|]. split; [|vm_compute; reflexivity].
    vm_compute. repeat (first [left; reflexivity | right]).
Qed.

(* ===================================================================== *)
(** * Broken pipes *)
(* ===================================================================== *)

Definition EPIPE : jsstring := js "EPIPE".

(** What [run] is, given what its [try] block gives. *)
Lemma run_boundary W ctx (host : Host W) (st : state W) :
  run ctx host st =
  match run_body ctx host st with
  | (Throw e, s) =>
      if includes (message_of e) EPIPE then (Ok tt, s)
      else
        match setFailed host (message_of e) (fst s) with
        | (Hang, w) => (Hang, (w, snd s ++ [ESetFailed (message_of e)]))
        | (_, w) => (Ok tt, (w, snd s ++ [ESetFailed (message_of e)]))
        end
  | other => other
  end.
Proof.
  unfold run, try_catch at 1.
  destruct (run_body ctx host st) as [[[]|e|] s]; try reflexivity.
  fold EPIPE. destruct (includes (message_of e) EPIPE); [reflexivity|].
  cbn [negb]. unfold try_catch, call.
  destruct (setFailed host (message_of e) (fst s)) as [[[]|e'|] w]; reflexivity.
Qed.

(** C9. A broken pipe is never the failure reason of the run and never
    ends the process: [run] never throws, and it records a failure only
    with the message of an error its [try] block threw, and only when
    that message does not contain [EPIPE]; the guard of an output stream
    answers [false] to a write that throws an error with code [EPIPE], and
    throws on only errors that are not; the handlers of the process let
    the process go on after an error with code [EPIPE]; and once the
    listener of the stream has seen such an error, every write is skipped
    without calling the original [write]. *)
Theorem broken_pipe_is_suppressed W ctx (host : Host W) (st : state W) :
  (forall e, result_of (run ctx host st) <> Throw e) /\
  (exists added,
     log_of (run ctx host st) = snd st ++ added /\
     forall message, In (ESetFailed message) added ->
       includes message EPIPE = false /\
       exists e, result_of (run_body ctx host st) = Throw e /\
                 message = message_of e) /\
  (forall e s, run_body ctx host st = (Throw e, s) ->
     includes (message_of e) EPIPE = true -> run ctx host st = (Ok tt, s)) /\
  (forall e streamBroken stream, Stdio.isEpipe e = true ->
     fst (Stdio.wrappedWrite (Throw e) streamBroken stream) = Ok false) /\
  (forall original streamBroken stream e,
     fst (Stdio.wrappedWrite original streamBroken stream) = Throw e ->
     original = Throw e /\ Stdio.isEpipe e = false) /\
  (forall e streamBroken rendered, Stdio.isEpipe e = true ->
     Stdio.onUncaughtException streamBroken e rendered = (Stdio.Continue, true) /\
     Stdio.onUnhandledRejection streamBroken e rendered = (Stdio.Continue, true)) /\
  (forall e streamBroken original stream, Stdio.isEpipe e = true ->
     Stdio.wrappedWrite original (Stdio.handleStreamError streamBroken e) stream
     = (Ok false, true)).
Proof.
  split; [|split; [|split; [|split; [|split; [|split]]]]].
  - intros e. rewrite run_boundary. unfold result_of.
    destruct (run_body ctx host st) as [[[]|e'|] s]; cbn [fst]; try discriminate.
    destruct (includes (message_of e') EPIPE); [discriminate|].
    destruct (setFailed host (message_of e') (fst s)) as [[[]|e''|] w]; discriminate.
  - destruct (run_body_setFailed ctx host st) as (evs & E & C).
    assert (Hnone : forall m, ~ In (ESetFailed m) evs).
    { intros m Hin.
      assert (In (ESetFailed m) (filter is_setFailed evs))
        by (apply filter_In; split; [exact Hin|reflexivity]).
      destruct (filter is_setFailed evs); [contradiction|simpl in C; lia]. }
    rewrite run_boundary. unfold log_of, result_of in *.
    destruct (run_body ctx host st) as [[[]|e|] s]; cbn [fst snd] in *.
    + exists evs. split; [exact E|]. intros m Hin. destruct (Hnone m Hin).
    + destruct (includes (message_of e) EPIPE) eqn:Ei.
      * exists evs. split; [exact E|]. intros m Hin. destruct (Hnone m Hin).
      * exists (evs ++ [ESetFailed (message_of e)]). split.
        -- destruct (setFailed host (message_of e) (fst s)) as [[[]|e'|] w];
             cbn [snd]; rewrite E, app_assoc; reflexivity.
        -- intros m Hin. apply in_app_or in Hin. destruct Hin as [Hin|Hin];
             [destruct (Hnone m Hin)|].
           destruct Hin as [Hin|[]]. injection Hin as <-.
           split; [exact Ei|]. exists e. split; reflexivity.
    + exists evs. split; [exact E|]. intros m Hin. destruct (Hnone m Hin).
  - intros e s Hb Hi. rewrite run_boundary, Hb, Hi. reflexivity.
  - intros e streamBroken stream He. unfold Stdio.wrappedWrite, Stdio.shouldSkipWrite.
    rewrite He.
    destruct streamBroken; [reflexivity|].
    destruct (Stdio.destroyed stream || Stdio.writableEnded stream); [reflexivity|].
    destruct (negb (Stdio.writable stream)); reflexivity.
  - intros original streamBroken stream e.
    unfold Stdio.wrappedWrite, Stdio.shouldSkipWrite.
    destruct streamBroken; [discriminate|].
    destruct (Stdio.destroyed stream || Stdio.writableEnded stream); [discriminate|].
    destruct (negb (Stdio.writable stream)); [discriminate|].
    destruct original as [b|e'|]; try discriminate.
    destruct (Stdio.isEpipe e') eqn:He; [discriminate|].
    cbn [fst]. intros H. injection H as <-. auto.
  - intros e streamBroken rendered He.
    unfold Stdio.onUncaughtException, Stdio.onUnhandledRejection.
    rewrite He. auto.
  - intros e streamBroken original stream He.
    unfold Stdio.handleStreamError. unfold Stdio.isEpipe in He.
    destruct e as [message status [code|]|text]; try discriminate.
    rewrite He. reflexivity.
Qed.

Definition WRITE_EPIPE : exn := Error (js "write EPIPE") None (Some (js "EPIPE")).

(** Witness of C9: a write that throws [EPIPE] on an open stream. *)
Lemma broken_pipe_is_suppressed_witness :
  fst (Stdio.wrappedWrite (Throw WRITE_EPIPE) false
         (Stdio.mkStream false false true)) = Ok false /\
  Stdio.onUncaughtException false WRITE_EPIPE (js "Error: write EPIPE")
  = (Stdio.Continue, true).
Proof.
  destruct (broken_pipe_is_suppressed unit DIRECT_SEVEN
              (mkHost (fun _ => []) (fun _ => idle_octokit) None [] [] [] [] []
                 (fun _ => []) (fun _ w => (Ok tt, w))
                 (fun _ _ _ w =>
                    (mkSpawn None (mkCommandResult None [] []), w))
                 (fun w => (Ok [], w)) (fun _ w => (Ok [], w))
                 (fun _ w => (Ok [], w)) (fun _ w => (true, w))
                 (fun _ w => (Ok tt, w)))
              (tt, [])) as (_ & _ & _ & Hw & _ & Hh & _).
  split.
  - apply Hw. reflexivity.
  - apply Hh. reflexivity.
Defined.

(** Witness of C10 as amended: removing a label the pull request does
    not have. *)
Lemma label_404_is_not_fatal_witness :
  removeLabelIfExists memory_octokit (js "o") (js "r") 7 (js "semver: minor")
    (MAJOR_AND_BUG, [])
  = (Ok tt,
     after_call (MAJOR_AND_BUG, []) (ERemoveLabel 7 (js "semver: minor"))
       MAJOR_AND_BUG).
Proof.
  destruct (label_404_is_not_fatal LabelStore memory_octokit (js "o") (js "r")
              (MAJOR_AND_BUG, [])) as (H & _).
  destruct (H 7%Z (js "semver: minor") (Throw NOT_FOUND) MAJOR_AND_BUG eq_refl)
    as (H1 & _).
  apply (H1 NOT_FOUND eq_refl eq_refl).
Defined.

(** A platform on which the pull request is not found when its labels
    are listed. *)
Definition gone_octokit : Octokit nat :=
  mkOctokit
    (fun _ _ _ w => (Ok [], w)) (fun _ _ _ w => (Ok [], w))
    (fun _ _ _ w => (Throw NOT_FOUND, w))
    (fun _ _ _ w => (Throw NOT_FOUND, w))
    (fun _ _ _ _ w => (Ok tt, w)) (fun _ _ _ w => (Ok tt, w))
    (fun _ _ _ _ _ w => (Ok tt, w)) (fun _ _ _ _ w => (Ok tt, w)).

(** A Linux host on which every command succeeds and the checker asks for
    a minor version, with that platform. *)
Definition gone_host : Host nat :=
  mkHost
    (fun name => if jsstring_eqb name (js "github-token") then js "t" else [])
    (fun _ => gone_octokit)
    None (js "/w") (js "linux") (js "x64") (js "/tmp") (js "/home")
    (join (js "/"))
    (fun _ w => (Ok tt, w))
    (fun _ _ _ w =>
       (mkSpawn None
          (mkCommandResult (Some 0%Z) (js "semver requires new minor version") []),
        w))
    (fun w => (Ok (js "0.40.0"), w))
    (fun _ w => (Ok (js "archive"), w))
    (fun prefix w => (Ok (prefix ++ js "XXXXXX"), w))
    (fun _ w => (true, w))
    (fun _ w => (Ok tt, w)).

(** C10, as stated, fails: a 404 of the platform in the listing of the
    labels is thrown by the reconciliation, is not tried again, and is
    the failure of the run. *)
Lemma label_404_is_fatal_counterexample :
  let upsert :=
    upsertSemverLabel gone_octokit (js "o") (js "r") 7 DEFAULT_LABEL_PREFIX
      (js "semver: minor") in
  status_of NOT_FOUND = Some 404%Z /\
  issues_listLabelsOnIssue gone_octokit (js "o") (js "r") 7 0
  = (Throw NOT_FOUND, 0) /\
  result_of (upsert (0, [])) = Throw NOT_FOUND /\
  withRetries upsert (js "Apply semver label") (0, []) = upsert (0, []) /\
  In (EListLabelsOnIssue 7) (log_of (run DIRECT_SEVEN gone_host (0, []))) /\
  In (ESetFailed (js "Not Found")) (log_of (run DIRECT_SEVEN gone_host (0, []))).
Proof.
  cbv zeta. split; [reflexivity|]. split; [reflexivity|].
  split; [reflexivity|]. split; [reflexivity|].
  split; vm_compute; repeat (first [left; reflexivity | right]).
Qed.

(* ===================================================================== *)
(** * More on cleaning and scanning the output *)
(* ===================================================================== *)










(** Every escape character of the text starts an escape sequence. *)
Definition well_escaped (s : jsstring) : Prop :=
  forall u v, s = u ++ ANSI_ESCAPE :: v ->
    exists w v', ANSI_ESCAPE :: v = w ++ v' /\ ansi_sequence w.

Lemma well_escaped_here v :
  (exists w v', ANSI_ESCAPE :: v = w ++ v' /\ ansi_sequence w) ->
  match_here ANSI_ESCAPE_REGEX (ANSI_ESCAPE :: v) <> None.
Proof.
  intros (w & v' & -> & Hw). rewrite (match_here_ansi _ _ Hw). discriminate.
Qed.

Lemma stripAnsi_clean_upto : forall n s,
  length s <= n -> well_escaped s -> ~ In ANSI_ESCAPE (stripAnsi s).
Proof.
  induction n as [|n IH]; intros s Hn Hs.
  - destruct s; [|simpl in Hn; lia].
    destruct (stripAnsi_step []) as [[-> _]|(pre & w & r & E & Hw & _)].
    + intros [].
    + destruct (ansi_sequence_nonempty _ Hw) as (x & w' & ->).
      destruct pre; discriminate.
  - destruct (stripAnsi_step s) as [[-> Hnone]|(pre & w & r & E & Hw & -> & Hleft)].
    + intros Hi. apply in_split in Hi. destruct Hi as (u & v & E).
      apply (well_escaped_here v (Hs u v E)). apply (Hnone u). exact E.
    + intros Hi. apply in_app_or in Hi. destruct Hi as [Hi|Hi].
      * apply in_split in Hi. destruct Hi as (u & v & Ep).
        apply (well_escaped_here (v ++ w ++ r)).
        -- apply (Hs u). rewrite E, Ep, <- app_assoc. reflexivity.
        -- apply (Hleft u). exact Ep.
      * revert Hi. apply IH.
        -- destruct (ansi_sequence_nonempty _ Hw) as (x & w' & ->).
           subst s. rewrite !length_app in Hn. simpl in Hn. lia.
        -- intros u v Er. apply (Hs (pre ++ w ++ u)).
           rewrite E, Er, <- !app_assoc. reflexivity.
Qed.

(** X2. When every escape character of the text starts an escape sequence,
    [stripAnsi] leaves no escape character in it. *)
Theorem stripAnsi_clean (s : jsstring) :
  well_escaped s -> ~ In ANSI_ESCAPE (stripAnsi s).
Proof. apply (stripAnsi_clean_upto (length s)). apply le_n. Qed.

Lemma well_escaped_nil : well_escaped [].
Proof. intros u v E. destruct u; discriminate. Qed.

Lemma well_escaped_cons c s :
  c <> ANSI_ESCAPE -> well_escaped s -> well_escaped (c :: s).
Proof.
  intros Hc Hs u v E. destruct u as [|x u]; simpl in E.
  - injection E as E _. congruence.
  - injection E as _ E. apply (Hs u v E).
Qed.

(** The escape character of an escape sequence is its first code unit. *)
Lemma ansi_sequence_escape w u k :
  ansi_sequence w -> w = u ++ ANSI_ESCAPE :: k -> u = [].
Proof.
  intros (ds & Hds & ->) E. destruct u as [|x u]; [reflexivity|exfalso].
  simpl in E. injection E as _ E.
  assert (Hin : In ANSI_ESCAPE (91%N :: ds ++ [109%N])).
  { rewrite E. apply in_or_app. right. left. reflexivity. }
  destruct Hin as [Hin|Hin]; [discriminate|].
  apply in_app_or in Hin. destruct Hin as [Hin|[Hin|[]]]; [|discriminate].
  unfold all_true in Hds. rewrite Forall_forall in Hds.
  specialize (Hds _ Hin). discriminate.
Qed.

Lemma well_escaped_sequence w s :
  ansi_sequence w -> well_escaped s -> well_escaped (w ++ s).
Proof.
  intros Hw Hs u v E. apply app_eq_app in E. destruct E as (l & [[E1 E2]|[E1 E2]]).
  - destruct l as [|x l]; simpl in E2.
    + apply (Hs [] v). symmetry. exact E2.
    + injection E2 as <- E2. pose proof (ansi_sequence_escape _ _ _ Hw E1) as ->.
      simpl in E1. subst w. exists (ANSI_ESCAPE :: l), s.
      split; [rewrite E2; reflexivity|exact Hw].
  - apply (Hs l v). exact E2.
Qed.

(** Witness of X2: a word in red. *)
Lemma stripAnsi_clean_witness :
  ~ In ANSI_ESCAPE (stripAnsi (ESC_RED ++ js "red" ++ ESC_RESET)).
Proof.
  apply stripAnsi_clean.
  apply well_escaped_sequence; [exact ESC_RED_sequence|].
  repeat (apply well_escaped_cons; [discriminate|]).
  apply (well_escaped_sequence ESC_RESET []);
    [exact ESC_RESET_sequence|exact well_escaped_nil].
Defined.

(** ** The set the scan returns *)

Lemma set_add_In x y l : In x (set_add y l) <-> x = y \/ In x l.
Proof. rewrite <- !set_has_In. apply set_has_add. Qed.

Lemma set_add_NoDup x l : NoDup l -> NoDup (set_add x l).
Proof.
  induction 1 as [|y l Hy Hl IH]; simpl.
  - constructor; [intros []|constructor].
  - destruct (jsstring_eqb x y) eqn:E; [constructor; assumption|].
    constructor; [|exact IH].
    intros Hi. apply set_add_In in Hi. destruct Hi as [->|Hi]; [|contradiction].
    rewrite jsstring_eqb_refl in E. discriminate.
Qed.

Lemma collect_matches_NoDup : forall n s found found',
  length s <= n -> NoDup found ->
  collect_matches REQUIRED_UPDATE_REGEX s found = Ok found' -> NoDup found'.
Proof.
  induction n as [|n IH]; intros s found found' Hn Hd.
  - destruct s; [|simpl in Hn; lia].
    rewrite collect_matches_none by reflexivity. intros E. injection E as <-.
    exact Hd.
  - destruct (search REQUIRED_UPDATE_REGEX s) as [[pre m]|] eqn:Hs.
    + destruct (search_some _ _ _ _ Hs) as (E & Hm & _).
      destruct (match_here_phrase_inv _ _ Hm) as (S0 & mid & Hc & Hg & _).
      destruct m as [w r g]. simpl in *. subst g.
      pose proof (ci_eq_phrase_length _ _ Hc) as Lw.
      destruct w as [|c w]; [discriminate|].
      rewrite (collect_matches_some _ _ _ _ _ _ _ _ Hs).
      apply IH; [|apply set_add_NoDup; exact Hd].
      subst s. rewrite !length_app in Hn. simpl in *. lia.
    + rewrite (collect_matches_none _ _ _ Hs). intros E. injection E as <-.
      exact Hd.
Qed.

(** X3. The scan for severity phrases always returns; what it returns
    is a set (no name twice) of names among [major], [minor] and [patch],
    so of at most three elements. *)
Theorem extractRequiredUpdatesFromText_set (text : jsstring) :
  exists found,
    extractRequiredUpdatesFromText text = Ok found /\
    NoDup found /\
    (forall x, In x found -> exists S, x = semver_name S) /\
    length found <= 3.
Proof.
  destruct (extractRequiredUpdatesFromText_spec text) as (found & E & Hx).
  exists found. split; [exact E|].
  assert (Hd : NoDup found).
  { unfold extractRequiredUpdatesFromText in E. cbn [collect_all] in E.
    destruct (collect_matches REQUIRED_UPDATE_REGEX (stripAnsi text) [])
      as [f| |] eqn:Ec; try discriminate.
    injection E as <-.
    apply (collect_matches_NoDup (length (stripAnsi text)) _ [] f (le_n _));
      [constructor|exact Ec]. }
  assert (Hin : forall x, In x found -> exists S, x = semver_name S).
  { intros x Hi. apply set_has_In in Hi. apply Hx in Hi.
    destruct Hi as (S & -> & _). eauto. }
  split; [exact Hd|]. split; [exact Hin|].
  apply (NoDup_incl_length (l' := List.map semver_name [major; minor; patch]) Hd).
  intros x Hi. destruct (Hin x Hi) as (S & ->).
  apply in_map. destruct S; simpl; auto.
Qed.

(* ===================================================================== *)
(** * More on the retry loop *)
(* ===================================================================== *)

(** The loop of [withRetries] at attempt number [attempt], with as many
    iterations left as attempts are. *)
Lemma withRetries_loop_last W T (op : M W T) label maxAttempts :
  forall remaining attempt st,
    1 <= remaining -> attempt + remaining = S maxAttempts ->
    exists st', withRetries_loop remaining attempt maxAttempts op label st = op st'.
Proof.
  induction remaining as [|k IH]; intros attempt st Hr Hi; [lia|].
  cbn [withRetries_loop]. unfold try_catch at 1.
  destruct (op st) as [[v|e|] s] eqn:E.
  - exists st. symmetry. exact E.
  - destruct (Nat.leb_spec maxAttempts attempt) as [Hle|Hlt]; cbn [orb].
    + exists st. symmetry. exact E.
    + destruct (isRetryableError e); cbn [negb].
      * unfold bind, warning, sleep, emit. cbn [fst snd].
        apply IH; lia.
      * exists st. symmetry. exact E.
  - exists st. symmetry. exact E.
Qed.

(** X4. With at least one attempt allowed, [withRetries] gives what one
    run of the operation gave, be it a value, a thrown error or no result:
    it throws no error of its own. Its own error, after the loop, is what
    it gives with no attempt allowed, and then the operation is not run. *)
Theorem withRetries_gives_an_attempt W T (op : M W T) (label : jsstring)
  (st : state W) :
  (forall maxAttempts, 1 <= maxAttempts ->
     exists st', withRetries_n op label maxAttempts st = op st') /\
  (exists st', withRetries op label st = op st') /\
  withRetries_n op label 0 st
  = (Throw (new_Error (label ++ js " failed after 0 attempts.")), st).
Proof.
  split; [|split].
  - intros n Hn. unfold withRetries_n. apply withRetries_loop_last; lia.
  - unfold withRetries, withRetries_n. apply withRetries_loop_last; lia.
  - reflexivity.
Qed.

(** Witness of X4: five attempts allowed. *)
Lemma withRetries_gives_an_attempt_witness :
  exists st', withRetries_n flaky_listing (js "List labels") 5 (0, [])
              = flaky_listing st'.
Proof.
  destruct (withRetries_gives_an_attempt nat (list Label) flaky_listing
              (js "List labels") (0, [])) as (H & _).
  apply (H 5). lia.
Defined.

(** The waits after the failures of attempts [attempt], [attempt + 1],
    ... ([count] of them). *)
Definition waits_from (attempt count : nat) : list event :=
  List.map (fun k => ESleep (1000 * k)) (seq attempt count).

Lemma withRetries_loop_waits W T (op : M W T) label maxAttempts :
  adds is_sleep 0 op ->
  forall remaining attempt st,
    attempt + remaining = S maxAttempts ->
    exists evs count,
      log_of (withRetries_loop remaining attempt maxAttempts op label st)
      = snd st ++ evs /\
      count <= remaining - 1 /\
      filter is_sleep evs = waits_from attempt count.
Proof.
  intros Hop. induction remaining as [|k IH]; intros attempt st Hi.
  - exists [], 0. cbn. rewrite app_nil_r. auto.
  - destruct (Hop st) as (evs0 & E0 & C0).
    assert (F0 : filter is_sleep evs0 = []).
    { destruct (filter is_sleep evs0); [reflexivity|simpl in C0; lia]. }
    assert (Hstop : forall r s, op st = (r, s) ->
              exists evs count,
                snd s = snd st ++ evs /\ count <= S k - 1 /\
                filter is_sleep evs = waits_from attempt count).
    { intros r s E. exists evs0, 0. rewrite E in E0. split; [exact E0|].
      split; [lia|exact F0]. }
    cbn [withRetries_loop]. unfold try_catch at 1. unfold log_of in *.
    destruct (op st) as [[v|e|] s] eqn:E; cbn [snd] in *;
      try (apply (Hstop _ _ eq_refl)).
    destruct (Nat.leb_spec maxAttempts attempt) as [Hle|Hlt]; cbn [orb];
      [apply (Hstop _ _ eq_refl)|].
    destruct (isRetryableError e); cbn [negb]; [|apply (Hstop _ _ eq_refl)].
    unfold bind at 1. unfold warning at 1, emit at 1.
    unfold bind at 1. unfold sleep at 1, emit at 1. cbn [fst snd].
    match goal with
    | |- context [withRetries_loop k (S attempt) maxAttempts op label ?s'] =>
        destruct (IH (S attempt) s') as (evs1 & count & E1 & C1 & F1); [lia|]
    end.
    rewrite E1. cbn [snd]. rewrite E0.
    eexists (evs0 ++ [_; ESleep (1000 * attempt)] ++ evs1), (S count).
    split; [rewrite <- !app_assoc; reflexivity|]. split; [lia|].
    rewrite !filter_app, F0, F1. reflexivity.
Qed.

(** X5. The waits of the retry loop, for an operation that does not wait
    itself: after the failure of attempt 1 one second, of attempt 2 two
    seconds, and so on, with at most one wait less than attempts are
    allowed; with the default of three attempts, there is no wait, a wait
    of one second, or waits of one and two seconds. *)
Theorem withRetries_waits W T (op : M W T) (label : jsstring) (st : state W) :
  adds is_sleep 0 op ->
  (forall maxAttempts,
     exists evs count,
       log_of (withRetries_n op label maxAttempts st) = snd st ++ evs /\
       count <= maxAttempts - 1 /\
       filter is_sleep evs = waits_from 1 count) /\
  (exists evs,
     log_of (withRetries op label st) = snd st ++ evs /\
     (filter is_sleep evs = [] \/
      filter is_sleep evs = [ESleep 1000] \/
      filter is_sleep evs = [ESleep 1000; ESleep 2000])).
Proof.
  intros Hop. split.
  - intros n. unfold withRetries_n. apply withRetries_loop_waits; [exact Hop|lia].
  - destruct (withRetries_loop_waits W T op label 3 Hop 3 1 st eq_refl)
      as (evs & count & E & C & F).
    exists evs. split; [exact E|]. rewrite F.
    destruct count as [|[|[|count]]]; [auto|auto|auto|simpl in C; lia].
Qed.

Lemma flaky_listing_waits_not : adds is_sleep 0 flaky_listing.
Proof. unfold flaky_listing. adds_none. Qed.

(** Witness of X5: the listing that fails twice. *)
Lemma withRetries_waits_witness :
  exists evs,
    log_of (withRetries flaky_listing (js "Apply semver label") (0, []))
    = [] ++ evs /\
    (filter is_sleep evs = [] \/
     filter is_sleep evs = [ESleep 1000] \/
     filter is_sleep evs = [ESleep 1000; ESleep 2000]).
Proof.
  destruct (withRetries_waits nat (list Label) flaky_listing
              (js "Apply semver label") (0, []) flaky_listing_waits_not)
    as (_ & H).
  exact H.
Defined.

(* ===================================================================== *)
(** * What a run never does *)
(* ===================================================================== *)


(** A command whose name is not in the list is started. *)
Definition spawns_outside (commands : list jsstring) (e : event) : bool :=
  match e with
  | ESpawnSync command _ => negb (set_has command commands)
  | _ => false
  end.

(** The command [command] is started. *)
Definition spawns (command : jsstring) (e : event) : bool :=
  match e with
  | ESpawnSync c _ => jsstring_eqb c command
  | _ => false
  end.

Definition COMMANDS : list jsstring :=
  [js "git"; js "cargo"; js "tar"; js "powershell"].

Lemma adds_run W f ctx (host : Host W) :
  (forall message, f (ESetFailed message) = false) ->
  adds f 0 (run_body ctx host) -> adds f 0 (run ctx host).
Proof.
  intros Hf Hb. unfold run. apply (adds_try_catch _ 0 0); [exact Hb|].
  intros e. destruct (negb _); [|apply adds_ret].
  apply (adds_try_catch _ 0 0); [apply adds_call, Hf|intros; apply adds_ret].
Qed.

(** X6. A run starts no command other than [git], [cargo], [tar] and
    [powershell]; it starts [powershell] on Windows only, and [tar] on no
    Windows. *)
Theorem run_commands W ctx (host : Host W) :
  adds (spawns_outside COMMANDS) 0 (run ctx host) /\
  (os_platform host <> js "win32" -> adds (spawns (js "powershell")) 0 (run ctx host)) /\
  (os_platform host = js "win32" -> adds (spawns (js "tar")) 0 (run ctx host)).
Proof.
  split; [|split].
  - apply adds_run; [reflexivity|]. unfold_action. adds_none.
  - intros H. apply jsstring_eqb_neq in H.
    apply adds_run; [reflexivity|]. unfold_action. cbv zeta.
    revert H. destruct (jsstring_eqb (os_platform host) (js "win32"));
      [discriminate|intros _].
    adds_none.
  - intros H. apply jsstring_eqb_eq in H.
    apply adds_run; [reflexivity|]. unfold_action. cbv zeta.
    revert H. destruct (jsstring_eqb (os_platform host) (js "win32"));
      [intros _|discriminate].
    adds_none.
Qed.

(** Witness of X6: a Linux host starts no [powershell]. *)
Lemma run_commands_witness :
  adds (spawns (js "powershell")) 0 (run DIRECT_SEVEN (flaky_download_host HTTP_503)).
Proof.
  destruct (run_commands nat DIRECT_SEVEN (flaky_download_host HTTP_503))
    as (_ & H & _).
  apply H. discriminate.
Defined.

(** ** Where the binary comes from *)













(** A call to the network or to the file system. *)
Definition reaches_out (e : event) : bool :=
  match e with
  | EHttpsGet _ | EGetLatestVersion | EMkdtempSync _ | EExistsSync _ | EFs _ => true
  | _ => false
  end.

(** X8. The input [use-release-binary] turns the release binary on only
    when it is empty or is [true]: with any other value, and also on a
    platform for which no binary is released, a run makes no request to
    the network and touches no file; it installs with [cargo]. *)
Theorem run_without_release_binary W ctx (host : Host W) :
  (getInput host (js "use-release-binary") <> [] ->
   getInput host (js "use-release-binary") <> js "true" ->
   adds reaches_out 0 (run ctx host)) /\
  (getTargetTriple host = None -> adds reaches_out 0 (run ctx host)).
Proof.
  split.
  - intros H1 H2. apply jsstring_eqb_neq in H1, H2.
    apply adds_run; [reflexivity|].
    unfold run_body, runWithToken. cbv zeta. rewrite H1, H2. cbn [orb].
    unfold_action. adds_none.
  - intros H. apply adds_run; [reflexivity|].
    unfold run_body, runWithToken, checkPullRequest, installCargoSemverChecks.
    cbv zeta. rewrite H.
    unfold applyLabel, getInput_required, when, ensureGitShaAvailable,
      installWithCargo, runSemverChecks, determineSemverType,
      runCommand, resolvePrContext,
      resolveWorkflowRun, findPullRequest, resolveFromHeadSha, finishResolution,
      upsertSemverLabel, ensureLabelExists, setOutput, info, warning, sleep.
    adds_none.
Qed.

(** A host like [flaky_download_host] whose input [use-release-binary]
    is [false]. *)
Definition cargo_only_host : Host nat :=
  mkHost
    (fun name =>
       if jsstring_eqb name (js "github-token") then js "t"
       else if jsstring_eqb name (js "use-release-binary") then js "false"
       else [])
    (fun _ => idle_octokit)
    None (js "/w") (js "linux") (js "x64") (js "/tmp") (js "/home")
    (join (js "/"))
    (fun _ w => (Ok tt, w))
    (fun _ _ _ w =>
       (mkSpawn None
          (mkCommandResult (Some 0%Z) (js "semver requires new minor version") []),
        w))
    (fun w => (Ok (js "0.40.0"), w))
    (fun _ w => (Ok (js "archive"), S w))
    (fun prefix w => (Ok (prefix ++ js "XXXXXX"), w))
    (fun _ w => (true, w))
    (fun _ w => (Ok tt, w)).

(** Witness of X8: [use-release-binary: false]. *)
Lemma run_without_release_binary_witness :
  adds reaches_out 0 (run DIRECT_SEVEN cargo_only_host).
Proof.
  destruct (run_without_release_binary nat DIRECT_SEVEN cargo_only_host)
    as (H & _).
  apply H; discriminate.
Defined.

(** ** The lookups of the resolver *)

Definition is_pulls_list (e : event) : bool :=
  match e with EPullsList _ => true | _ => false end.

Definition is_commit_lookup (e : event) : bool :=
  match e with EListPullRequestsAssociatedWithCommit _ => true | _ => false end.

Definition is_pulls_get (e : event) : bool :=
  match e with EPullsGet _ => true | _ => false end.

(** Anything but a lookup of pull requests and a line of the log. *)
Definition beyond_lookup (e : event) : bool :=
  match e with
  | EInfo _ | EPullsList _ | EListPullRequestsAssociatedWithCommit _
  | EPullsGet _ => false
  | _ => true
  end.

Ltac unfold_resolver :=
  unfold resolvePrContext, resolveWorkflowRun, findPullRequest,
    resolveFromHeadSha, finishResolution, info.

(** X9. One attempt to resolve the pull request asks the platform at
    most once for the pull requests of the head branch, at most once for
    those of the head commit and at most once for a pull request by its
    number, and does nothing else to the outside but write to the log; on
    a [pull_request] event it asks for nothing. *)
Theorem resolvePrContext_lookups W ctx (octokit : Octokit W) owner repo :
  adds is_pulls_list 1 (resolvePrContext ctx octokit owner repo) /\
  adds is_commit_lookup 1 (resolvePrContext ctx octokit owner repo) /\
  adds is_pulls_get 1 (resolvePrContext ctx octokit owner repo) /\
  adds beyond_lookup 0 (resolvePrContext ctx octokit owner repo) /\
  (eventName ctx = js "pull_request" ->
   forall st, snd (resolvePrContext ctx octokit owner repo st) = st).
Proof.
  split; [|split; [|split; [|split]]].
  - unfold_resolver. adds_once.
  - unfold_resolver. adds_once.
  - unfold_resolver. adds_once.
  - unfold_resolver. adds_none.
  - intros H st. unfold resolvePrContext. rewrite H. cbn [jsstring_eqb].
    rewrite jsstring_eqb_refl.
    destruct (payload_pull_request ctx) as [pr|]; [|reflexivity].
    destruct (negb _); reflexivity.
Qed.

(** Witness of X9: the event of [DIRECT_SEVEN]. *)
Lemma resolvePrContext_lookups_witness :
  snd (resolvePrContext DIRECT_SEVEN unit_octokit (js "o") (js "r") (tt, []))
  = (tt, []).
Proof.
  destruct (resolvePrContext_lookups unit DIRECT_SEVEN unit_octokit (js "o") (js "r"))
    as (_ & _ & _ & _ & H).
  apply H. reflexivity.
Defined.

(** ** The labels of a run *)

(** The label is the prefix followed by the name of a severity. *)
Definition is_semver_label (labelPrefix label : jsstring) : bool :=
  existsb (fun t => jsstring_eqb label (labelPrefix ++ semver_name t))
    [major; minor; patch].

(** A call that adds, creates or reads a label that is not the prefix
    followed by a severity, or removes a label that does not start with
    the prefix. *)
Definition labels_outside (labelPrefix : jsstring) (e : event) : bool :=
  match e with
  | EAddLabels _ [label] | ECreateLabel label _ _ | EGetLabel label =>
      negb (is_semver_label labelPrefix label)
  | EAddLabels _ _ => true
  | ERemoveLabel _ name => negb (startsWith name labelPrefix)
  | _ => false
  end.

Lemma is_semver_label_name labelPrefix t :
  is_semver_label labelPrefix (labelPrefix ++ semver_name t) = true.
Proof.
  unfold is_semver_label. cbn [existsb].
  destruct t; rewrite ?jsstring_eqb_refl, ?orb_true_r; reflexivity.
Qed.

Lemma removeOldLabels_inside W (octokit : Octokit W) owner repo issue
  labelPrefix newLabel l :
  adds (labels_outside labelPrefix) 0
    (removeOldLabels octokit owner repo issue labelPrefix newLabel l).
Proof.
  induction l as [|a l IH]; cbn [removeOldLabels]; [apply adds_ret|].
  apply (adds_bind _ 0 0); [|intros _; exact IH].
  destruct (startsWith (label_name a) labelPrefix) eqn:Ea; cbn [andb];
    [|apply adds_ret].
  destruct (negb _); [|apply adds_ret].
  apply (adds_bind _ 0 0); [apply adds_emit; reflexivity|intros _].
  unfold removeLabelIfExists. apply (adds_try_catch _ 0 0).
  - apply adds_call. cbn [labels_outside]. rewrite Ea. reflexivity.
  - intros e. destruct (not_404 e); [apply adds_throw|apply adds_ret].
Qed.

Lemma or_str_nonempty a b : b <> [] -> or_str a b <> [].
Proof. destruct a; simpl; [auto|discriminate]. Qed.

(** X10. The prefix of the labels of a run, the input [label-prefix] or
    else [semver: ], is never empty; every label the run adds, creates or
    looks up in the repository is this prefix followed by [major], [minor]
    or [patch], one label at a time, and every label it removes starts
    with this prefix. *)
Theorem run_labels W ctx (host : Host W) :
  in_labelPrefix (inputs_of host) <> [] /\
  adds (labels_outside (in_labelPrefix (inputs_of host))) 0 (run ctx host).
Proof.
  split; [apply or_str_nonempty; discriminate|].
  apply adds_run; [reflexivity|].
  unfold inputs_of. cbn [in_labelPrefix].
  unfold_action. adds_none.
  all: first
    [ apply removeOldLabels_inside
    | apply adds_call; cbn [labels_outside];
      rewrite is_semver_label_name; reflexivity ].
Qed.

(* ===================================================================== *)
(** * Runs that end before the check *)
(* ===================================================================== *)

Lemma run_body_token W ctx (host : Host W) (st : state W) :
  getInput host (js "github-token") <> [] ->
  run_body ctx host st = runWithToken ctx host (getInput host (js "github-token")) st.
Proof.
  intros H. unfold run_body, getInput_required, bind.
  destruct (getInput host (js "github-token")); [congruence|reflexivity].
Qed.

(** What [run] does with an error of its [try] block whose message has
    no [EPIPE] in it. *)
Lemma run_reports W ctx (host : Host W) (st : state W) e s :
  run_body ctx host st = (Throw e, s) ->
  includes (message_of e) EPIPE = false ->
  log_of (run ctx host st) = snd s ++ [ESetFailed (message_of e)] /\
  forall e', result_of (run ctx host st) <> Throw e'.
Proof.
  intros Hb Hi. rewrite run_boundary, Hb, Hi.
  destruct (setFailed host (message_of e) (fst s)) as [[[]|e''|] w];
    (split; [reflexivity|discriminate]).
Qed.

Definition MissingToken : exn :=
  new_Error (js "Input required and not supplied: github-token").

(** X11. Without the input [github-token] a run does one thing: it
    records the failure [Input required and not supplied: github-token].
    It asks the platform nothing and starts no command. *)
Theorem run_without_token W ctx (host : Host W) (st : state W) :
  getInput host (js "github-token") = [] ->
  log_of (run ctx host st) = snd st ++ [ESetFailed (message_of MissingToken)] /\
  forall e, result_of (run ctx host st) <> Throw e.
Proof.
  intros H. apply (run_reports W ctx host st MissingToken st); [|reflexivity].
  unfold run_body, getInput_required, bind. rewrite H. reflexivity.
Qed.

(** A host without any input. *)
Definition silent_host : Host unit :=
  mkHost (fun _ => []) (fun _ => idle_octokit) None [] [] [] [] []
    (fun _ => []) (fun _ w => (Ok tt, w))
    (fun _ _ _ w => (mkSpawn None (mkCommandResult None [] []), w))
    (fun w => (Ok [], w)) (fun _ w => (Ok [], w))
    (fun _ w => (Ok [], w)) (fun _ w => (true, w))
    (fun _ w => (Ok tt, w)).

(** Witness of X11. *)
Lemma run_without_token_witness :
  log_of (run DIRECT_SEVEN silent_host (tt, []))
  = [ESetFailed (js "Input required and not supplied: github-token")].
Proof.
  destruct (run_without_token unit DIRECT_SEVEN silent_host (tt, []) eq_refl)
    as (H & _).
  exact H.
Defined.

Lemma new_Error_not_transient message : ~ transient (new_Error message).
Proof. intros [H|[H|H]]; discriminate. Qed.

Lemma withRetries_new_Error W T (op : M W T) label st message s :
  op st = (Throw (new_Error message), s) ->
  withRetries op label st = (Throw (new_Error message), s).
Proof.
  intros H. rewrite withRetries_first; [exact H|].
  rewrite H. intros (e & E & Ht). injection E as <-.
  exact (new_Error_not_transient _ Ht).
Qed.

Lemma withRetries_Ok W T (op : M W T) label st v s :
  op st = (Ok v, s) -> withRetries op label st = (Ok v, s).
Proof.
  intros H. rewrite withRetries_first; [exact H|].
  rewrite H. intros (e & E & _). discriminate.
Qed.

Definition UnsupportedEvent (name : jsstring) : exn :=
  new_Error (js "Unsupported event type: " ++ name).

Lemma includes_UnsupportedEvent name :
  includes (message_of (UnsupportedEvent name)) EPIPE = includes name EPIPE.
Proof. reflexivity. Qed.

Lemma run_body_unsupported W ctx (host : Host W) (st : state W) :
  getInput host (js "github-token") <> [] ->
  eventName ctx <> js "pull_request" ->
  eventName ctx <> js "workflow_run" ->
  run_body ctx host st = (Throw (UnsupportedEvent (eventName ctx)), st).
Proof.
  intros Ht Hp Hw. rewrite (run_body_token _ _ _ _ Ht), runWithToken_retries.
  rewrite (withRetries_new_Error _ _ _ _ _
             (js "Unsupported event type: " ++ eventName ctx) st);
    [reflexivity|].
  unfold resolvePrContext.
  rewrite (jsstring_eqb_neq _ _ Hp), (jsstring_eqb_neq _ _ Hw). reflexivity.
Qed.

(** X12. On an event that is neither [pull_request] nor [workflow_run],
    a run with a token asks the platform nothing, tries once, and records
    the failure [Unsupported event type:] with the name of the event;
    unless that name has [EPIPE] in it: the run then ends without a word. *)
Theorem run_unsupported_event W ctx (host : Host W) (st : state W) :
  getInput host (js "github-token") <> [] ->
  eventName ctx <> js "pull_request" ->
  eventName ctx <> js "workflow_run" ->
  (includes (eventName ctx) EPIPE = false ->
   log_of (run ctx host st)
   = snd st ++ [ESetFailed (js "Unsupported event type: " ++ eventName ctx)] /\
   forall e, result_of (run ctx host st) <> Throw e) /\
  (includes (eventName ctx) EPIPE = true -> run ctx host st = (Ok tt, st)).
Proof.
  intros Ht Hp Hw.
  pose proof (run_body_unsupported W ctx host st Ht Hp Hw) as Hb. split.
  - intros Hi. apply (run_reports W ctx host st _ st Hb).
    rewrite includes_UnsupportedEvent. exact Hi.
  - intros Hi. rewrite run_boundary, Hb, includes_UnsupportedEvent, Hi.
    reflexivity.
Qed.

Definition PUSH : Context := mkContext (js "push") None None (js "o") (js "r").

(** Witness of X12: a [push] event. *)
Lemma run_unsupported_event_witness :
  log_of (run PUSH (flaky_download_host HTTP_503) (0, []))
  = [ESetFailed (js "Unsupported event type: push")].
Proof.
  destruct (run_unsupported_event nat PUSH (flaky_download_host HTTP_503) (0, []))
    as ((H & _) & _); try discriminate; [reflexivity|].
  exact H.
Defined.

(** X13. On a [workflow_run] event whose conclusion is not [success], a
    run with a token writes to the log why it skips the check and ends: it
    asks the platform nothing, starts no command, changes no label, sets
    no output and records no failure. *)
Theorem run_skips W ctx (host : Host W) wr (st : state W) :
  getInput host (js "github-token") <> [] ->
  workflow_run_event ctx wr ->
  wr_conclusion wr <> Some (js "success") ->
  run ctx host st
  = (Ok tt,
     (fst st,
      snd st ++ [EInfo (js "workflow_run conclusion is "
                          ++ rendered_conclusion (wr_conclusion wr)
                          ++ js "; skipping semver checks.")])).
Proof.
  intros Ht Hev Hc. rewrite run_boundary, (run_body_token _ _ _ _ Ht).
  rewrite runWithToken_retries.
  rewrite (withRetries_Ok _ _ _ _ _
             (Skip (js "workflow_run conclusion is "
                      ++ rendered_conclusion (wr_conclusion wr)
                      ++ js "; skipping semver checks.")) st);
    [reflexivity|].
  rewrite (resolvePrContext_workflow_run _ _ _ _ _ _ _ Hev).
  unfold resolveWorkflowRun.
  destruct (wr_conclusion wr) as [c|]; [|reflexivity].
  rewrite jsstring_eqb_neq; [reflexivity|congruence].
Qed.

Definition FAILED_RUN : WorkflowRun :=
  mkWorkflowRun (Some (js "failure")) None None None None.

(** Witness of X13: a run that failed. *)
Lemma run_skips_witness :
  run (mkContext (js "workflow_run") None (Some FAILED_RUN) (js "o") (js "r"))
    (flaky_download_host HTTP_503) (0, [])
  = (Ok tt,
     (0, [EInfo (js "workflow_run conclusion is failure; skipping semver checks.")])).
Proof.
  apply (run_skips nat _ (flaky_download_host HTTP_503) FAILED_RUN (0, [])).
  - discriminate.
  - split; reflexivity.
  - discriminate.
Defined.

(* ===================================================================== *)
(** * The verdict of a run *)
(* ===================================================================== *)

Definition is_setOutput (e : event) : bool :=
  match e with ESetOutput _ _ => true | _ => false end.

(** The two ways a run tells its result: an output, a failure. *)
Definition is_verdict (e : event) : bool :=
  match e with ESetOutput _ _ | ESetFailed _ => true | _ => false end.

Lemma adds_nothing W f A (m : M W A) :
  adds f 0 m ->
  forall st, exists evs, snd (snd (m st)) = snd st ++ evs /\ filter f evs = [].
Proof.
  intros H st. destruct (H st) as (evs & E & C). exists evs. split; [exact E|].
  destruct (filter f evs); [reflexivity|simpl in C; lia].
Qed.

Lemma no_verdict evs :
  filter is_verdict evs = [] ->
  filter is_setOutput evs = [] /\ filter is_setFailed evs = [].
Proof.
  induction evs as [|e evs IH]; [auto|]. simpl.
  destruct e; simpl; try discriminate; exact IH.
Qed.

(** The [try] block of [run] sets the output last, if it sets it. *)
Lemma run_body_verdict W ctx (host : Host W) (st : state W) :
  exists evs,
    snd (snd (run_body ctx host st)) = snd st ++ evs /\
    (filter is_verdict evs = [] \/
     (fst (run_body ctx host st) = Ok tt /\
      exists pre t,
        evs = pre ++ [ESetOutput (js "semver-type") (semver_name t)] /\
        filter is_verdict pre = [])).
Proof.
  destruct (getInput host (js "github-token")) as [|c token] eqn:Et.
  { exists []. unfold run_body, getInput_required, bind. rewrite Et.
    cbn. rewrite app_nil_r. auto. }
  rewrite run_body_token by congruence. rewrite runWithToken_retries.
  match goal with
  | |- context [withRetries ?op ?l st] =>
      assert (A1 : adds is_verdict 0 (withRetries op l))
  end.
  { unfold resolvePrContext, resolveWorkflowRun, findPullRequest,
      resolveFromHeadSha, finishResolution, info. adds_none. }
  destruct (adds_nothing _ _ _ _ A1 st) as (evs1 & E1 & F1). clear A1.
  destruct (withRetries _ _ st) as [[[reason|n b]|e|] s1]; cbn [snd] in E1;
    unfold after_context.
  - exists (evs1 ++ [EInfo reason]). unfold info, emit. cbn [fst snd].
    rewrite E1, app_assoc. split; [reflexivity|]. left.
    rewrite filter_app, F1. reflexivity.
  - unfold bind.
    match goal with
    | |- context [checkPullRequest ?a ?b ?c ?d ?e ?f ?g ?h ?i ?j ?k s1] =>
        assert (A2 : adds is_verdict 0 (checkPullRequest a b c d e f g h i j k))
    end.
    { unfold_action. adds_none. }
    destruct (adds_nothing _ _ _ _ A2 s1) as (evs2 & E2 & F2). clear A2.
    destruct (checkPullRequest _ _ _ _ _ _ _ _ _ _ _ s1) as [[t|e|] s2];
      cbn [snd] in E2.
    + rewrite applyLabel_retries.
      match goal with
      | |- context [withRetries ?op ?l ?s] =>
          assert (A3 : adds is_verdict 0 (withRetries op l));
          [|destruct (adds_nothing _ _ _ _ A3 s) as (evs3 & E3 & F3); clear A3;
            destruct (withRetries op l s) as [[[]|e|] s3]]
      end.
      { unfold upsertSemverLabel, ensureLabelExists, info. adds_none. }
      all: cbn [fst snd after_label] in *; rewrite E2, E1 in E3;
        rewrite <- !app_assoc in E3.
      all: match type of E3 with _ = _ ++ ?added => set (evs := added) in * end.
      * exists (evs ++ [EInfo (js "Label applied successfully.");
                        ESetOutput (js "semver-type") (semver_name t)]).
        split; [rewrite E3, <- app_assoc; reflexivity|].
        right. split; [reflexivity|].
        exists (evs ++ [EInfo (js "Label applied successfully.")]), t. split.
        -- rewrite <- app_assoc. reflexivity.
        -- unfold evs. rewrite !filter_app, F1, F2, F3. reflexivity.
      * exists evs. split; [exact E3|]. left.
        unfold evs. rewrite !filter_app, F1, F2, F3. reflexivity.
      * exists evs. split; [exact E3|]. left.
        unfold evs. rewrite !filter_app, F1, F2, F3. reflexivity.
    + exists (evs1 ++ evs2). cbn [snd]. rewrite E2, E1, app_assoc.
      split; [reflexivity|]. left. rewrite filter_app, F1, F2. reflexivity.
    + exists (evs1 ++ evs2). cbn [snd]. rewrite E2, E1, app_assoc.
      split; [reflexivity|]. left. rewrite filter_app, F1, F2. reflexivity.
  - exists evs1. cbn [snd]. auto.
  - exists evs1. cbn [snd]. auto.
Qed.

(** X14. A run sets the output [semver-type] or records a failure, never
    both, and each at most once: either it sets no output and records at
    most one failure, or the last thing it does is to set [semver-type] to
    [major], [minor] or [patch], having recorded no failure, and it then
    returns. *)
Theorem run_verdict W ctx (host : Host W) (st : state W) :
  exists evs,
    log_of (run ctx host st) = snd st ++ evs /\
    ((filter is_setOutput evs = [] /\ length (filter is_setFailed evs) <= 1) \/
     (exists pre t,
        evs = pre ++ [ESetOutput (js "semver-type") (semver_name t)] /\
        filter is_verdict pre = [] /\
        result_of (run ctx host st) = Ok tt)).
Proof.
  destruct (run_body_verdict W ctx host st) as (evs & E & H).
  rewrite run_boundary. unfold log_of, result_of.
  destruct (run_body ctx host st) as [[[]|e|] s]; cbn [fst snd] in *.
  - exists evs. split; [exact E|].
    destruct H as [H|(_ & pre & t & -> & Hp)].
    + left. apply no_verdict in H as [-> ->]. auto.
    + right. exists pre, t. auto.
  - destruct H as [H|(H & _)]; [|discriminate].
    apply no_verdict in H as [Ho Hf].
    destruct (includes (message_of e) EPIPE).
    + exists evs. split; [exact E|]. left. rewrite Ho, Hf. auto.
    + exists (evs ++ [ESetFailed (message_of e)]). split.
      * destruct (setFailed host (message_of e) (fst s)) as [[[]|e'|] w];
          cbn [snd]; rewrite E, app_assoc; reflexivity.
      * left. rewrite !filter_app, Ho, Hf. auto.
  - destruct H as [H|(H & _)]; [|discriminate].
    apply no_verdict in H as [Ho Hf].
    exists evs. split; [exact E|]. left. rewrite Ho, Hf. auto.
Qed.

(* ===================================================================== *)
(** * The pull request of the event *)
(* ===================================================================== *)

(** A lookup of pull requests, or a call about the labels of another
    issue than [n]. *)
Definition beside_pull_request (n : Z) (e : event) : bool :=
  match e with
  | EListLabelsOnIssue i | ERemoveLabel i _ | EAddLabels i _ => negb (Z.eqb i n)
  | EPullsList _ | EListPullRequestsAssociatedWithCommit _ | EPullsGet _ => true
  | _ => false
  end.

Lemma removeOldLabels_same_issue W (octokit : Octokit W) owner repo issue
  labelPrefix newLabel l :
  adds (beside_pull_request issue) 0
    (removeOldLabels octokit owner repo issue labelPrefix newLabel l).
Proof.
  induction l as [|a l IH]; cbn [removeOldLabels]; [apply adds_ret|].
  apply (adds_bind _ 0 0); [|intros _; exact IH].
  destruct (_ && _); [|apply adds_ret].
  apply (adds_bind _ 0 0); [apply adds_emit; reflexivity|intros _].
  unfold removeLabelIfExists. apply (adds_try_catch _ 0 0).
  - apply adds_call. cbn. rewrite Z.eqb_refl. reflexivity.
  - intros e. destruct (not_404 e); [apply adds_throw|apply adds_ret].
Qed.

Lemma adds_nil W f A (m : M W A) (st : state W) :
  snd (snd (m st)) = snd st ->
  exists evs, log_of (m st) = snd st ++ evs /\ length (filter f evs) <= 0.
Proof.
  intros H. exists []. unfold log_of. rewrite H, app_nil_r. auto.
Qed.

(** X15. On a [pull_request] event a run looks up no pull request, and
    every call it makes about the labels of an issue, to list them, to
    remove one or to add one, is about the pull request of the event. *)
Theorem run_pull_request_only W ctx (host : Host W) pr :
  eventName ctx = js "pull_request" ->
  payload_pull_request ctx = Some pr ->
  adds (beside_pull_request (prp_number pr)) 0 (run ctx host).
Proof.
  intros He Hp. apply adds_run; [reflexivity|]. intros st.
  destruct (getInput host (js "github-token")) as [|c token] eqn:Et.
  { apply adds_nil. unfold run_body, getInput_required, bind. rewrite Et.
    reflexivity. }
  rewrite run_body_token by congruence. rewrite runWithToken_retries.
  assert (R : forall octokit owner repo,
    resolvePrContext ctx octokit owner repo st
    = (if negb (truthy_str (sha_of (prp_base pr)))
       then Throw (new_Error (js "Unable to determine the PR base SHA."))
       else Ok (Proceed (prp_number pr)
                  match sha_of (prp_base pr) with Some b => b | None => [] end),
       st)).
  { intros. unfold resolvePrContext. rewrite He, Hp. cbn [jsstring_eqb].
    rewrite jsstring_eqb_refl. destruct (negb _); reflexivity. }
  destruct (negb (truthy_str (sha_of (prp_base pr)))).
  - rewrite (withRetries_new_Error _ _ _ _ _ _ st (R _ _ _)).
    exists []. cbn. rewrite app_nil_r. auto.
  - rewrite (withRetries_Ok _ _ _ _ _ _ st (R _ _ _)). unfold after_context.
    match goal with
    | |- context [log_of (?m st)] =>
        assert (A : adds (beside_pull_request (prp_number pr)) 0 m);
        [|exact (A st)]
    end.
    unfold_action. adds_none.
    all: first
      [ apply removeOldLabels_same_issue
      | apply adds_call; cbn; rewrite Z.eqb_refl; reflexivity ].
Qed.

(** Witness of X15: the pull request 7. *)
Lemma run_pull_request_only_witness :
  adds (beside_pull_request 7) 0 (run DIRECT_SEVEN (flaky_download_host HTTP_503)).
Proof.
  apply (run_pull_request_only nat DIRECT_SEVEN (flaky_download_host HTTP_503)
           (mkPullRequestPayload 7 (Some (mkBaseRef (Some (js "abc"))))));
    reflexivity.
Defined.

(* ===================================================================== *)
(** * What is tried again *)
(* ===================================================================== *)

Section Throws.

Context {W : Type}.

(** Every error [m] throws satisfies [P]. *)
Definition throws (P : exn -> Prop) {A} (m : M W A) : Prop :=
  forall st e s, m st = (Throw e, s) -> P e.

Variable P : exn -> Prop.

Lemma throws_ret {A} (a : A) : throws P (ret a).
Proof. intros st e s H. discriminate. Qed.

Lemma throws_throw {A} e : P e -> throws P (throw e : M W A).
Proof. intros He st e' s H. injection H as <- _. exact He. Qed.

Lemma throws_emit e : throws P (emit e : M W unit).
Proof. intros st e' s H. discriminate. Qed.

Lemma throws_call {A} ev (h : hook W A) :
  (forall w e w', h w = (Throw e, w') -> P e) -> throws P (call ev h).
Proof.
  intros Hh st e s. unfold call. destruct (h (fst st)) as [r w] eqn:E.
  intros H. injection H as -> _. eapply Hh. exact E.
Qed.

Lemma throws_bind {A B} (m : M W A) (k : A -> M W B) :
  throws P m -> (forall x, throws P (k x)) -> throws P (bind m k).
Proof.
  intros Hm Hk st e s. unfold bind. destruct (m st) as [[x|e'|] s'] eqn:E.
  - apply Hk.
  - intros H. injection H as <- _. eapply Hm. exact E.
  - discriminate.
Qed.

Lemma throws_try_catch {A} (m : M W A) (h : exn -> M W A) :
  throws P m -> (forall e, P e -> throws P (h e)) -> throws P (try_catch m h).
Proof.
  intros Hm Hh st e s. unfold try_catch. destruct (m st) as [[x|e'|] s'] eqn:E.
  - discriminate.
  - apply Hh. eapply Hm. exact E.
  - discriminate.
Qed.

End Throws.

(** A hook that never fails with status 502, 503 or 504. *)
Definition steady_hook {W A} (h : hook W A) : Prop :=
  forall w e w', h w = (Throw e, w') -> ~ transient e.

(** A platform none of whose operations fails with such a status. *)
Definition steady {W} (octokit : Octokit W) : Prop :=
  (forall owner repo head, steady_hook (pulls_list octokit owner repo head)) /\
  (forall owner repo sha,
     steady_hook (repos_listPullRequestsAssociatedWithCommit octokit owner repo sha)) /\
  (forall owner repo n, steady_hook (pulls_get octokit owner repo n)) /\
  (forall owner repo n, steady_hook (issues_listLabelsOnIssue octokit owner repo n)) /\
  (forall owner repo n name,
     steady_hook (issues_removeLabel octokit owner repo n name)) /\
  (forall owner repo name, steady_hook (issues_getLabel octokit owner repo name)) /\
  (forall owner repo name color description,
     steady_hook (issues_createLabel octokit owner repo name color description)) /\
  (forall owner repo n labels,
     steady_hook (issues_addLabels octokit owner repo n labels)).

Ltac throws_steady :=
  cbv zeta;
  lazymatch goal with
  | |- throws _ (bind _ _) => apply throws_bind; [throws_steady|intro; throws_steady]
  | |- throws _ (try_catch _ _) =>
      apply throws_try_catch; [throws_steady|intros ? ?; throws_steady]
  | |- throws _ (if ?b then _ else _) => destruct b; throws_steady
  | |- throws _ (match ?x with _ => _ end) => destruct x; throws_steady
  | |- _ =>
      try first [ apply throws_ret | apply throws_emit
            | apply throws_throw; first [assumption | apply new_Error_not_transient]
            | apply throws_call; solve [eauto] ]
  end.

Lemma removeOldLabels_steady W (octokit : Octokit W) owner repo issue
  labelPrefix newLabel l :
  steady octokit ->
  throws (fun e => ~ transient e)
    (removeOldLabels octokit owner repo issue labelPrefix newLabel l).
Proof.
  intros (_ & _ & _ & _ & Hr & _).
  induction l as [|a l IH]; cbn [removeOldLabels]; [apply throws_ret|].
  apply throws_bind; [|intros _; exact IH].
  unfold removeLabelIfExists, info. pose proof (Hr owner repo issue) as Hr'.
  unfold steady_hook in Hr'. throws_steady.
Qed.

Lemma not_thrown_transient W T (op : M W T) label :
  throws (fun e => ~ transient e) op ->
  forall st, withRetries op label st = op st.
Proof.
  intros H st. apply withRetries_first. intros (e & E & Ht).
  unfold result_of in E. destruct (op st) as [r s] eqn:Eo. cbn in E. subst r.
  exact (H _ _ _ Eo Ht).
Qed.

(** X16. Only a failure of the platform with status 502, 503 or 504 is
    tried again: on a platform none of whose operations fails so, the
    resolution of the pull request and the reconciliation of the label are
    each attempted once, whatever they give; the errors the two make
    themselves are never tried again. *)
Theorem retries_need_a_transient_failure W ctx (octokit : Octokit W)
  owner repo issue labelPrefix newLabel label (st : state W) :
  steady octokit ->
  withRetries (resolvePrContext ctx octokit owner repo) label st
  = resolvePrContext ctx octokit owner repo st /\
  withRetries (upsertSemverLabel octokit owner repo issue labelPrefix newLabel)
    label st
  = upsertSemverLabel octokit owner repo issue labelPrefix newLabel st.
Proof.
  intros Hs. pose proof Hs as (H1 & H2 & H3 & H4 & H5 & H6 & H7 & H8).
  unfold steady_hook in *. split; apply not_thrown_transient.
  - unfold resolvePrContext, resolveWorkflowRun, findPullRequest,
      resolveFromHeadSha, finishResolution, info.
    throws_steady.
  - unfold upsertSemverLabel, ensureLabelExists, info.
    throws_steady. apply removeOldLabels_steady. exact Hs.
Qed.

Lemma idle_octokit_steady W : steady (@idle_octokit W).
Proof. repeat split; intros; intros w e w' H; discriminate H. Qed.

(** Witness of X16: the platform that never fails. *)
Lemma retries_need_a_transient_failure_witness :
  withRetries (resolvePrContext PUSH unit_octokit (js "o") (js "r"))
    (js "Resolve PR context") (tt, [])
  = (Throw (UnsupportedEvent (js "push")), (tt, [])).
Proof.
  destruct (retries_need_a_transient_failure unit PUSH unit_octokit (js "o") (js "r")
              7%Z DEFAULT_LABEL_PREFIX (js "semver: patch")
              (js "Resolve PR context") (tt, []) (idle_octokit_steady unit))
    as (H & _).
  rewrite H. reflexivity.
Defined.


(* ===================================================================== *)
(** * Installing and running the checker *)
(* ===================================================================== *)

(** ** The command line of the checker *)

Definition is_spawn (e : event) : bool :=
  match e with ESpawnSync _ _ => true | _ => false end.

(** The feature group is one of the three the action knows. *)
Definition known_featureGroup (g : jsstring) : bool :=
  jsstring_eqb g (js "all-features") || jsstring_eqb g (js "default-features")
  || jsstring_eqb g (js "only-explicit-features").

Definition without_featureGroup (o : SemverChecksOptions) : SemverChecksOptions :=
  mkSemverChecksOptions (sc_baseSha o) (sc_cwd o) (sc_packageName o)
    (sc_toolchain o) [] (sc_features o) (sc_rustTarget o).

(** X17. [runSemverChecks] starts one command; it returns what the
    command gave whatever its exit status, and throws only when the
    command could not be started; and a feature group that is none of
    [all-features], [default-features] and [only-explicit-features] is
    passed over in silence, as if none was given. *)
Theorem runSemverChecks_returns W (host : Host W) (options : SemverChecksOptions) :
  adds is_spawn 1 (runSemverChecks host options) /\
  (forall st, exists args opts,
     match spawnSync host (js "cargo") args opts (fst st) with
     | (mkSpawn None r, _) =>
         result_of (runSemverChecks host options st) = Ok r
     | (mkSpawn (Some e) _, _) =>
         result_of (runSemverChecks host options st)
         = Throw (new_Error (js "Failed to run " ++ QUOTE ++ js "cargo "
                               ++ join (js " ") args ++ QUOTE ++ js ": "
                               ++ message_of e))
     end) /\
  (known_featureGroup (sc_featureGroup options) = false ->
   runSemverChecks host options
   = runSemverChecks host (without_featureGroup options)).
Proof.
  split; [|split].
  - unfold runSemverChecks, runCommand, info. adds_once.
  - intros st. unfold runSemverChecks. cbv zeta.
    unfold runCommand, info. unfold result_of, bind, emit, call, ret.
    cbn [fst snd].
    match goal with
    | |- context [spawnSync host (js "cargo") ?a ?o (fst st)] =>
        exists a, o; destruct (spawnSync host (js "cargo") a o (fst st))
          as [[[e|] r] w']
    end; cbn [spawn_error spawn_result fst snd]; [reflexivity|].
    destruct (truthy (cmd_stdout r)), (truthy (cmd_stderr r)); reflexivity.
  - intros H. unfold known_featureGroup in H.
    apply orb_false_iff in H as [H H3]. apply orb_false_iff in H as [H1 H2].
    unfold runSemverChecks, without_featureGroup.
    cbn [sc_baseSha sc_cwd sc_packageName sc_toolchain sc_featureGroup
         sc_features sc_rustTarget truthy].
    rewrite H1, H2, H3. destruct (truthy (sc_featureGroup options)); reflexivity.
Qed.

(** Witness of X17: a feature group the action does not know. *)
Lemma runSemverChecks_returns_witness :
  runSemverChecks (flaky_download_host HTTP_503)
    (mkSemverChecksOptions (js "abc") (js "/w") [] [] (js "every-feature") [] [])
  = runSemverChecks (flaky_download_host HTTP_503)
      (mkSemverChecksOptions (js "abc") (js "/w") [] [] [] [] []).
Proof.
  destruct (runSemverChecks_returns nat (flaky_download_host HTTP_503)
              (mkSemverChecksOptions (js "abc") (js "/w") [] []
                 (js "every-feature") [] [])) as (_ & _ & H).
  apply H. reflexivity.
Defined.

(** ** The base commit *)






(** ** A version that is asked for *)

(** X19. When the input [cargo-semver-checks-version] names a version,
    that is when it is neither empty nor [latest], a run never asks which
    release is the latest. *)
Theorem run_pinned_version W ctx (host : Host W) :
  getInput host (js "cargo-semver-checks-version") <> [] ->
  getInput host (js "cargo-semver-checks-version") <> js "latest" ->
  adds is_latest_version 0 (run ctx host).
Proof.
  intros H1 H2. apply adds_run; [reflexivity|].
  assert (E : jsstring_eqb
                (or_str (getInput host (js "cargo-semver-checks-version"))
                   DEFAULT_CARGO_SEMVER_CHECKS_VERSION)
                DEFAULT_CARGO_SEMVER_CHECKS_VERSION = false).
  { destruct (getInput host (js "cargo-semver-checks-version")) eqn:Ev;
      [congruence|]. apply jsstring_eqb_neq. exact H2. }
  unfold_action. cbv zeta. rewrite E. adds_none.
Qed.

(** A host that asks for version 0.40.0. *)
Definition pinned_host : Host nat :=
  mkHost
    (fun name =>
       if jsstring_eqb name (js "github-token") then js "t"
       else if jsstring_eqb name (js "cargo-semver-checks-version")
       then js "0.40.0" else [])
    (fun _ => idle_octokit)
    None (js "/w") (js "linux") (js "x64") (js "/tmp") (js "/home")
    (join (js "/"))
    (fun _ w => (Ok tt, w))
    (fun _ _ _ w =>
       (mkSpawn None
          (mkCommandResult (Some 0%Z) (js "semver requires new minor version") []),
        w))
    (fun w => (Ok (js "0.41.0"), w))
    (fun _ w => (Ok (js "archive"), S w))
    (fun prefix w => (Ok (prefix ++ js "XXXXXX"), w))
    (fun _ w => (true, w))
    (fun _ w => (Ok tt, w)).

(** Witness of X19. *)
Lemma run_pinned_version_witness :
  adds is_latest_version 0 (run DIRECT_SEVEN pinned_host).
Proof. apply run_pinned_version; discriminate. Defined.

(* ===================================================================== *)
(** * One pass, and a second one *)
(* ===================================================================== *)

(** X20. [stripAnsi] is the pass from left to right that takes out the
    first escape sequence of the text and then those of the text after
    it, and there is one such result. When every escape character of the
    text starts an escape sequence, a second pass changes nothing. *)
Theorem stripAnsi_one_pass (s : jsstring) :
  stripped s (stripAnsi s) /\
  (forall t, stripped s t -> t = stripAnsi s) /\
  (well_escaped s -> stripAnsi (stripAnsi s) = stripAnsi s).
Proof.
  split; [apply stripAnsi_stripped|]. split.
  - intros t H. apply (stripped_unique s); [exact H|apply stripAnsi_stripped].
  - intros H. apply stripAnsi_plain.
    apply (stripAnsi_clean_upto (length s)); [apply le_n|exact H].
Qed.

(** Witness of X20: a word in red, and a text on which the second pass
    does change something. *)
Lemma stripAnsi_one_pass_witness :
  stripAnsi (stripAnsi (ESC_RED ++ js "red" ++ ESC_RESET))
  = stripAnsi (ESC_RED ++ js "red" ++ ESC_RESET) /\
  stripAnsi (stripAnsi (ANSI_ESCAPE :: js "[" ++ ESC_RESET ++ js "1m"))
  <> stripAnsi (ANSI_ESCAPE :: js "[" ++ ESC_RESET ++ js "1m").
Proof.
  split; [|vm_compute; discriminate].
  apply (stripAnsi_one_pass (ESC_RED ++ js "red" ++ ESC_RESET)).
  apply well_escaped_sequence; [exact ESC_RED_sequence|].
  repeat (apply well_escaped_cons; [discriminate|]).
  apply (well_escaped_sequence ESC_RESET []);
    [exact ESC_RESET_sequence|exact well_escaped_nil].
Defined.

(* ===================================================================== *)
(** * The ways through the installer *)
(* ===================================================================== *)

Definition CargoMissing : exn := new_Error (js "cargo is not available in PATH.").

(** X21. The installer asks [cargo] for its version first. When that
    command runs and does not exit with 0, the installer throws and does
    nothing else. With a working [cargo]: when the release binary is not
    asked for, what remains is [cargo install]; when it is asked for, on a
    platform that has one, and the installation from the release
    succeeds, the installer is done, and [cargo install] is not run. *)
Theorem installCargoSemverChecks_paths W (host : Host W)
  version cwd toolchain (st : state W) r w :
  spawnSync host (js "cargo") [js "--version"] (mkOptions (Some cwd) []) (fst st)
  = (mkSpawn None r, w) ->
  (cmd_status r <> Some 0%Z ->
   forall useReleaseBinary,
     installCargoSemverChecks host version cwd toolchain useReleaseBinary st
     = (Throw CargoMissing,
        (w, snd st ++ [ESpawnSync (js "cargo") [js "--version"]]))) /\
  (cmd_status r = Some 0%Z ->
   installCargoSemverChecks host version cwd toolchain false st
   = installWithCargo host version cwd toolchain (after_cargo_version st r w)) /\
  (cmd_status r = Some 0%Z -> getTargetTriple host <> None ->
   forall s,
     installFromRelease host version (after_cargo_version st r w) = (Ok tt, s) ->
     installCargoSemverChecks host version cwd toolchain true st = (Ok tt, s)).
Proof.
  intros Hs. split; [|split].
  - intros Hz useReleaseBinary. apply status_is_zero_false in Hz.
    unfold installCargoSemverChecks.
    unfold bind at 1. unfold runCommand at 1. unfold bind at 1, call at 1.
    rewrite Hs. cbn [fst snd spawn_error spawn_result]. unfold ret at 1.
    rewrite Hz. reflexivity.
  - intros Hz.
    assert (Hz' : status_is_zero r = true)
      by (unfold status_is_zero; rewrite Hz; reflexivity).
    unfold installCargoSemverChecks.
    unfold bind at 1. unfold runCommand at 1. unfold bind at 1, call at 1.
    rewrite Hs. cbn [fst snd spawn_error spawn_result]. unfold ret at 1.
    rewrite Hz'. cbn [negb]. unfold bind at 1. unfold info at 1, emit at 1.
    cbn [fst snd]. rewrite <- app_assoc. cbn [app].
    fold (after_cargo_version st r w). reflexivity.
  - intros Hz Ht s Hr.
    rewrite (installCargoSemverChecks_release _ _ _ _ _ _ _ _ Hs); [|
      unfold status_is_zero; rewrite Hz; reflexivity | exact Ht].
    rewrite Hr. reflexivity.
Qed.

(** Witness of X21: a host without [cargo]. *)
Lemma installCargoSemverChecks_paths_witness :
  let host :=
    mkHost (fun _ => []) (fun _ => idle_octokit) None [] [] [] [] []
      (fun _ => []) (fun _ w => (Ok tt, w))
      (fun _ _ _ w =>
         (mkSpawn None (mkCommandResult (Some 127%Z) [] (js "not found")), w))
      (fun w => (Ok [], w)) (fun _ w => (Ok [], w))
      (fun _ w => (Ok [], w)) (fun _ w => (true, w))
      (fun _ w => (Ok tt, w)) in
  installCargoSemverChecks host (js "latest") (js "/w") [] true (tt, [])
  = (Throw CargoMissing, (tt, [ESpawnSync (js "cargo") [js "--version"]])).
Proof.
  cbv zeta.
  match goal with
  | |- installCargoSemverChecks ?h _ _ _ _ _ = _ =>
      destruct (installCargoSemverChecks_paths unit h (js "latest") (js "/w") []
                  (tt, []) (mkCommandResult (Some 127%Z) [] (js "not found")) tt
                  eq_refl) as (H & _)
  end.
  apply H. discriminate.
Defined.

(* ===================================================================== *)
(** * Reconciling twice *)
(* ===================================================================== *)

Lemma kept_new labelPrefix newLabel : kept labelPrefix newLabel newLabel = true.
Proof. unfold kept. rewrite jsstring_eqb_refl, andb_false_r. reflexivity. Qed.

Lemma filter_idem {A} (f : A -> bool) l : filter f (filter f l) = filter f l.
Proof.
  apply filter_all. intros x H. apply filter_In in H. apply H.
Qed.

Lemma set_has_reconciled labelPrefix newLabel labels :
  set_has newLabel (reconciled labelPrefix newLabel labels) = true.
Proof.
  apply set_has_In, In_reconciled. right. reflexivity.
Qed.

Lemma reconciled_twice labelPrefix newLabel labels :
  reconciled labelPrefix newLabel (reconciled labelPrefix newLabel labels)
  = reconciled labelPrefix newLabel labels.
Proof.
  unfold reconciled at 1. rewrite set_has_reconciled, app_nil_r.
  unfold reconciled. rewrite filter_app, filter_idem. f_equal.
  destruct (set_has newLabel labels); [reflexivity|].
  simpl. rewrite kept_new. reflexivity.
Qed.

(** X22. On the platform that keeps the labels in memory and for a prefix
    that is not empty, the reconciliation leaves the pull request with the
    new label and with no other label that starts with the prefix; done
    again, it finds nothing to do: the labels of the pull request and of
    the repository stay as the first reconciliation left them, and nothing
    is removed, added or created. *)
Theorem upsertSemverLabel_idempotent owner repo issue labelPrefix newLabel
  (w : LabelStore) (log : list event) :
  labelPrefix <> [] ->
  let once :=
    upsertSemverLabel memory_octokit owner repo issue labelPrefix newLabel
      (w, log) in
  let twice :=
    upsertSemverLabel memory_octokit owner repo issue labelPrefix newLabel
      (snd once) in
  In newLabel (on_issue (world_of once)) /\
  (forall name, In name (on_issue (world_of once)) ->
     startsWith name labelPrefix = true -> name = newLabel) /\
  result_of twice = Ok tt /\
  world_of twice = world_of once /\
  exists added,
    log_of twice = log_of once ++ added /\
    forall e, In e added ->
      match e with
      | EInfo _ | EListLabelsOnIssue _ => True
      | _ => False
      end.
Proof.
  intros Hp once twice.
  destruct (upsertSemverLabel_memory owner repo issue labelPrefix newLabel w log Hp)
    as (removed1 & _ & E1).
  assert (E1' : exists rep1 log1,
    once = (Ok tt, (mkLabelStore (reconciled labelPrefix newLabel (on_issue w)) rep1,
                    log1))).
  { fold once in E1. rewrite E1. destruct (set_has newLabel (on_issue w)); eauto. }
  clear E1. destruct E1' as (rep1 & log1 & E1).
  unfold twice. rewrite E1. cbn [snd].
  destruct (upsertSemverLabel_memory owner repo issue labelPrefix newLabel
              (mkLabelStore (reconciled labelPrefix newLabel (on_issue w)) rep1)
              log1 Hp) as (removed & Hev & E2).
  cbn [on_issue in_repo] in E2, Hev. rewrite set_has_reconciled in E2.
  rewrite E2. unfold world_of, result_of, log_of. cbn [fst snd on_issue in_repo].
  split; [apply In_reconciled; right; reflexivity|].
  split.
  { intros name Hi Hs. apply In_reconciled in Hi. destruct Hi as [[_ H]|H]; auto. }
  split; [reflexivity|].
  split; [rewrite reconciled_twice; reflexivity|].
  cbn [after_listing snd]. rewrite <- app_assoc. eexists. split; [reflexivity|].
  intros e He. apply in_app_or in He. destruct He as [He|He].
  { destruct He as [<-|[<-|[<-|[]]]]; exact I. }
  apply in_app_or in He. destruct He as [He|[<-|[]]]; [|exact I].
  specialize (Hev e He). destruct e; try exact I; try contradiction.
  destruct Hev as [Hk Hin].
  apply In_reconciled in Hin. unfold kept in Hk.
  apply negb_false_iff, andb_true_iff in Hk as [Hs Hne].
  destruct Hin as [[_ Hin]|Hin];
    [specialize (Hin Hs)|]; subst name;
    rewrite jsstring_eqb_refl in Hne; discriminate.
Qed.

(** Witness of X22: the example of the specification, done twice. *)
Lemma upsertSemverLabel_idempotent_witness :
  world_of
    (upsertSemverLabel memory_octokit (js "o") (js "r") 7 DEFAULT_LABEL_PREFIX
       (js "semver: patch")
       (snd (upsertSemverLabel memory_octokit (js "o") (js "r") 7
               DEFAULT_LABEL_PREFIX (js "semver: patch") (MAJOR_AND_BUG, []))))
  = world_of
      (upsertSemverLabel memory_octokit (js "o") (js "r") 7 DEFAULT_LABEL_PREFIX
         (js "semver: patch") (MAJOR_AND_BUG, [])).
Proof.
  destruct (upsertSemverLabel_idempotent (js "o") (js "r") 7 DEFAULT_LABEL_PREFIX
              (js "semver: patch") MAJOR_AND_BUG [] label_prefix_nonempty)
    as (_ & _ & _ & H & _).
  exact H.
Defined.

(* ===================================================================== *)
(** * The flag of the broken stream *)
(* ===================================================================== *)

Module StdioTrace.

(** What happens to the guarded streams and to the process, one thing at a
    time: a write (with what the original [write] would do with it), an
    [error] event of a stream, an exception nobody caught, a rejection
    nobody handled. *)
Inductive happening :=
| Writes (originalWrite : outcome bool) (stream : Stdio.WriteStream)
| StreamError (error : exn)
| Uncaught (error : exn) (rendered : jsstring)
| Rejected (reason : exn) (rendered : jsstring).

(** [streamBroken] after it. *)
Definition after (streamBroken : bool) (h : happening) : bool :=
  match h with
  | Writes originalWrite stream =>
      snd (Stdio.wrappedWrite originalWrite streamBroken stream)
  | StreamError error => Stdio.handleStreamError streamBroken error
  | Uncaught error rendered =>
      snd (Stdio.onUncaughtException streamBroken error rendered)
  | Rejected reason rendered =>
      snd (Stdio.onUnhandledRejection streamBroken reason rendered)
  end.

(** A broken pipe shows: as the error a write throws on a stream that
    takes writes, as an [error] event, or as an error nobody caught. *)
Definition broken_pipe (h : happening) : Prop :=
  match h with
  | Writes (Throw error) stream =>
      Stdio.isEpipe error = true /\ Stdio.destroyed stream = false /\
      Stdio.writableEnded stream = false /\ Stdio.writable stream = true
  | Writes _ _ => False
  | StreamError error | Uncaught error _ | Rejected error _ =>
      Stdio.isEpipe error = true
  end.

End StdioTrace.
Import StdioTrace.

Lemma after_broken h : after true h = true.
Proof.
  destruct h as [o s|e|e r|e r]; cbn.
  - reflexivity.
  - destruct e as [m st [c|]|t]; cbn; [destruct (jsstring_eqb _ _)| |]; reflexivity.
  - unfold Stdio.onUncaughtException. destruct (Stdio.isEpipe e); reflexivity.
  - unfold Stdio.onUnhandledRejection. destruct (Stdio.isEpipe e); reflexivity.
Qed.

Lemma after_all_broken hs : fold_left after hs true = true.
Proof.
  induction hs as [|h hs IH]; [reflexivity|]. simpl. rewrite after_broken. exact IH.
Qed.

Lemma after_broken_pipe streamBroken h :
  broken_pipe h -> after streamBroken h = true.
Proof.
  destruct streamBroken; [intros _; apply after_broken|].
  destruct h as [[b|e|] s|e|e r|e r]; unfold after, broken_pipe;
    try contradiction.
  - intros (He & Hd & Hw & Hwr).
    unfold Stdio.wrappedWrite, Stdio.shouldSkipWrite. rewrite Hd, Hw, Hwr, He.
    reflexivity.
  - unfold Stdio.isEpipe, Stdio.handleStreamError.
    destruct e as [m st [c|]|t]; try discriminate.
    intros ->. reflexivity.
  - unfold Stdio.onUncaughtException. intros ->. reflexivity.
  - unfold Stdio.onUnhandledRejection. intros ->. reflexivity.
Qed.

(** X23. The flag [streamBroken] is never taken back: once a broken pipe
    has shown, in whatever way, the flag is set after anything that
    happens later, and every later write is answered [false] without a
    call of the original [write], whatever that call would do. *)
Theorem streamBroken_latches (streamBroken : bool) (before later : list happening)
  (h : happening) (originalWrite : outcome bool) (stream : Stdio.WriteStream) :
  broken_pipe h ->
  fold_left after (before ++ h :: later) streamBroken = true /\
  Stdio.wrappedWrite originalWrite
    (fold_left after (before ++ h :: later) streamBroken) stream
  = (Ok false, true).
Proof.
  intros H.
  assert (E : fold_left after (before ++ h :: later) streamBroken = true).
  { rewrite fold_left_app. cbn [fold_left].
    rewrite (after_broken_pipe _ h H). apply after_all_broken. }
  rewrite E. split; reflexivity.
Qed.

(** Witness of X23: an [error] event with code [EPIPE] between two writes
    that would succeed. *)
Lemma streamBroken_latches_witness :
  Stdio.wrappedWrite (Ok true)
    (fold_left after
       ([Writes (Ok true) (Stdio.mkStream false false true)]
          ++ StreamError WRITE_EPIPE
          :: [Writes (Ok true) (Stdio.mkStream false false true)]) false)
    (Stdio.mkStream false false true)
  = (Ok false, true).
Proof.
  apply (streamBroken_latches false
           [Writes (Ok true) (Stdio.mkStream false false true)]
           [Writes (Ok true) (Stdio.mkStream false false true)]
           (StreamError WRITE_EPIPE) (Ok true) (Stdio.mkStream false false true)).
  reflexivity.
Defined.

(** X24. On a stream that is not broken the guard changes nothing: with
    the flag down and the stream neither destroyed nor ended, a write to a
    writable stream gives what the original [write] gives, be it a value,
    no result, or an error other than a broken pipe, and the flag stays
    down; a write to a stream that is not writable is answered [false]
    without the flag being raised. *)
Theorem wrappedWrite_transparent (originalWrite : outcome bool)
  (stream : Stdio.WriteStream) :
  Stdio.destroyed stream = false -> Stdio.writableEnded stream = false ->
  (Stdio.writable stream = true ->
   (forall error, originalWrite = Throw error -> Stdio.isEpipe error = false) ->
   Stdio.wrappedWrite originalWrite false stream = (originalWrite, false)) /\
  (Stdio.writable stream = false ->
   Stdio.wrappedWrite originalWrite false stream = (Ok false, false)).
Proof.
  intros Hd He. unfold Stdio.wrappedWrite, Stdio.shouldSkipWrite.
  rewrite Hd, He. cbn [orb]. split.
  - intros -> Hn. cbn [negb]. destruct originalWrite as [b|e|]; try reflexivity.
    rewrite (Hn e eq_refl). reflexivity.
  - intros ->. reflexivity.
Qed.

(** Witness of X24: a write that succeeds. *)
Lemma wrappedWrite_transparent_witness :
  Stdio.wrappedWrite (Ok true) false (Stdio.mkStream false false true)
  = (Ok true, false).
Proof.
  destruct (wrappedWrite_transparent (Ok true) (Stdio.mkStream false false true)
              eq_refl eq_refl) as (H & _).
  apply H; [reflexivity|discriminate].
Defined.

(* ===================================================================== *)
(** * The latest release *)
(* ===================================================================== *)

Lemma startsWith_nil s : startsWith s [] = true.
Proof. destruct s; reflexivity. Qed.

(** With the case of the letters kept, a literal matches the text that
    starts with it, and no other. *)
Lemma rmatch_lit_exact p : forall r,
  rmatch false (lit p) (p ++ r) = [MRes p r None].
Proof.
  induction p as [|x p IH]; intros r; [reflexivity|].
  cbn [lit app]. rewrite rmatch_seq. cbn [rmatch atom_ok].
  rewrite N.eqb_refl. cbn [flat_map rest]. rewrite IH. reflexivity.
Qed.

Lemma rmatch_lit_differs p : forall s,
  startsWith s p = false -> rmatch false (lit p) s = [].
Proof.
  induction p as [|x p IH]; intros s H.
  - rewrite startsWith_nil in H. discriminate.
  - cbn [lit]. rewrite rmatch_seq. cbn [rmatch atom_ok].
    destruct s as [|c s]; [reflexivity|]. cbn [startsWith] in H.
    destruct (N.eqb x c); [|reflexivity]. cbn [andb flat_map rest] in *.
    rewrite (IH s H). reflexivity.
Qed.

Lemma in_rmatch_lit_exact p : forall s m,
  In m (rmatch false (lit p) s) -> m = MRes p (rest m) None /\ s = p ++ rest m.
Proof.
  induction p as [|x p IH]; intros s m H.
  - destruct H as [<-|[]]. auto.
  - cbn [lit] in H. apply in_rmatch_seq in H.
    destruct H as (m1 & m2 & H1 & H2 & ->).
    cbn [rmatch atom_ok] in H1. destruct s as [|c s]; [contradiction|].
    destruct (N.eqb_spec x c) as [->|]; [|contradiction].
    destruct H1 as [<-|[]]. cbn [rest] in H2.
    destruct (IH _ _ H2) as [E ->]. rewrite E. cbn. auto.
Qed.

Lemma includes_false s p :
  includes s p = false -> forall a b, s = a ++ b -> startsWith b p = false.
Proof.
  intros H a. revert s H. induction a as [|x a IH]; intros s H b E.
  - simpl in E. subst b. destruct s; simpl in H;
      apply orb_false_iff in H as [H _]; exact H.
  - subst s. simpl in H. apply orb_false_iff in H as [_ H].
    apply (IH _ H). reflexivity.
Qed.

Lemma startsWith_longer p : forall s t,
  length p <= length s -> startsWith (s ++ t) p = startsWith s p.
Proof.
  induction p as [|x p IH]; intros s t H.
  - rewrite !startsWith_nil. reflexivity.
  - destruct s as [|c s]; [simpl in H; lia|]. simpl.
    rewrite IH; [reflexivity|simpl in H; lia].
Qed.

(** A class that all of the text is in takes all of it first. *)
Lemma star_class_all ic p ds :
  all_true p ds -> exists more, star ic (AClass p) ds = (ds, []) :: more.
Proof.
  induction 1 as [|d ds Hd Hds (more & IH)]; simpl.
  - exists []. reflexivity.
  - rewrite Hd, IH. simpl. eexists. reflexivity.
Qed.

Lemma in_rmatch_plus_class ic p s m :
  In m (rmatch ic (RPlus (AClass p)) s) ->
  consumed m <> [] /\ all_true p (consumed m) /\ group1 m = None.
Proof.
  simpl. destruct s as [|c s]; [contradiction|].
  destruct (p c) eqn:E; [|contradiction]. intros H.
  apply in_map_iff in H. destruct H as (q & <- & H).
  apply in_map_iff in H. destruct H as (q' & <- & H).
  destruct (star_class_sound _ _ _ _ H) as [Ha _].
  simpl. repeat split; [discriminate|]. constructor; assumption.
Qed.

Import Net.

Arguments httpsGet {World} https_get requests url w.
Arguments getLatestVersion {World} https_get w.

Lemma LATEST_TAG_REGEX_source :
  source LATEST_TAG_REGEX =
  RSeq (lit (js "/tag/"))
    (RSeq (RAlt (RAtom (AChar 118%N)) REps)
          (RGroup (RPlus (AClass not_line_terminator)))).
Proof. reflexivity. Qed.

(** What a match of the pattern is made of. *)
Lemma in_latest_tag s m :
  In m (rmatch false (source LATEST_TAG_REGEX) s) ->
  exists v, group1 m = Some v /\ v <> [] /\ all_true not_line_terminator v /\
            (consumed m = js "/tag/" ++ v \/ consumed m = js "/tag/v" ++ v).
Proof.
  rewrite LATEST_TAG_REGEX_source. intros H.
  apply in_rmatch_seq in H. destruct H as (m1 & m' & H1 & H & ->).
  apply in_rmatch_seq in H. destruct H as (m2 & m3 & H2 & H3 & ->).
  apply in_rmatch_lit_exact in H1. destruct H1 as [E1 _].
  rewrite rmatch_group in H3. apply in_map_iff in H3.
  destruct H3 as (m3' & <- & H3). apply in_rmatch_plus_class in H3.
  destruct H3 as (Hne & Ha & _).
  exists (consumed m3'). rewrite E1. cbn [then_ group1 consumed].
  split; [reflexivity|]. split; [exact Hne|]. split; [exact Ha|].
  rewrite rmatch_alt in H2. apply in_app_or in H2. destruct H2 as [H2|H2].
  - right. cbn [rmatch atom_ok] in H2. destruct (rest m1) as [|c r];
      [contradiction|].
    destruct (N.eqb_spec 118 c) as [<-|]; [|contradiction].
    destruct H2 as [<-|[]]. reflexivity.
  - left. destruct H2 as [<-|[]]. reflexivity.
Qed.

Lemma match_here_end_in re s m :
  match_here_end re s = Some m ->
  In m (rmatch (ignoreCase re) (source re) s) /\ rest m = [].
Proof.
  unfold match_here_end. intros H. apply find_some in H. destruct H as [Hi Hr].
  split; [exact Hi|]. unfold at_end in Hr. destruct (rest m); [reflexivity|discriminate].
Qed.

Lemma match_end_some re : forall s pre m,
  match_end re s = Some (pre, m) ->
  s = pre ++ consumed m /\ In m (rmatch (ignoreCase re) (source re) (consumed m))
  /\ rest m = [].
Proof.
  induction s as [|c s IH]; intros pre m H; simpl in H.
  - destruct (match_here_end re []) as [m'|] eqn:E; [|discriminate].
    injection H as <- <-. destruct (match_here_end_in _ _ _ E) as [Hi Hr].
    pose proof (rmatch_split _ _ _ _ Hi) as Hs. rewrite Hr, app_nil_r in Hs.
    rewrite Hs. auto.
  - destruct (match_here_end re (c :: s)) as [m'|] eqn:E.
    + injection H as <- <-. destruct (match_here_end_in _ _ _ E) as [Hi Hr].
      pose proof (rmatch_split _ _ _ _ Hi) as Hs. rewrite Hr, app_nil_r in Hs.
      rewrite Hs. auto.
    + destruct (match_end re s) as [[pre' m']|]; [|discriminate].
      injection H as <- <-. destruct (IH _ _ eq_refl) as (-> & Hi & Hr). auto.
Qed.

(** The text before the tag has no [/tag/] in it, nor at its end with
    the [/tag] that follows. *)
Definition before_tag (u : jsstring) : Prop :=
  includes (u ++ js "/tag") (js "/tag/") = false.

Lemma match_end_skips re u t m :
  (forall a c b, u = a ++ c :: b ->
     rmatch (ignoreCase re) (source re) (c :: b ++ t) = []) ->
  match_here_end re t = Some m ->
  match_end re (u ++ t) = Some (u, m).
Proof.
  induction u as [|c u IH]; intros Hu Ht.
  - destruct t; simpl; rewrite Ht; reflexivity.
  - cbn [app match_end]. unfold match_here_end at 1.
    rewrite (Hu [] c u eq_refl). cbn [find].
    rewrite IH; [reflexivity| |exact Ht].
    intros a x b E. apply (Hu (c :: a)). rewrite E. reflexivity.
Qed.

Lemma no_tag_before u t :
  before_tag u ->
  forall a c b, u = a ++ c :: b ->
    rmatch false (source LATEST_TAG_REGEX) (c :: b ++ js "/tag/" ++ t) = [].
Proof.
  intros Hu a c b E. rewrite LATEST_TAG_REGEX_source, rmatch_seq.
  rewrite rmatch_lit_differs; [reflexivity|].
  change (c :: b ++ js "/tag/" ++ t)
    with ((c :: b) ++ (js "/tag" ++ js "/") ++ t).
  rewrite <- app_assoc, (app_assoc (c :: b)), startsWith_longer.
  - apply (includes_false _ _ Hu a). rewrite E, <- app_assoc. reflexivity.
  - rewrite length_app. simpl. lia.
Qed.

Lemma plus_to_end v :
  v <> [] -> all_true not_line_terminator v ->
  exists more,
    rmatch false (RGroup (RPlus (AClass not_line_terminator))) v
    = MRes v [] (Some v) :: more.
Proof.
  intros Hne Ha. destruct Ha as [|c v Hc Ha]; [congruence|].
  rewrite rmatch_group. cbn [rmatch atom_ok]. rewrite Hc.
  destruct (star_class_all false not_line_terminator v Ha) as (more & ->).
  cbn. eexists. reflexivity.
Qed.

Lemma rmatch_eps ic s : rmatch ic REps s = [MRes [] s None].
Proof. reflexivity. Qed.

Lemma rmatch_char_here c s :
  rmatch false (RAtom (AChar c)) (c :: s) = [MRes [c] s None].
Proof. cbn [rmatch atom_ok]. rewrite N.eqb_refl. reflexivity. Qed.

Lemma rmatch_char_other c x s :
  x <> c -> rmatch false (RAtom (AChar c)) (x :: s) = [].
Proof.
  intros H. cbn [rmatch atom_ok].
  destruct (N.eqb_spec c x); [congruence|reflexivity].
Qed.

Lemma match_here_end_tag_v ver :
  ver <> [] -> all_true not_line_terminator ver ->
  exists m, match_here_end LATEST_TAG_REGEX (js "/tag/" ++ js "v" ++ ver) = Some m /\
            group1 m = Some ver.
Proof.
  intros Hne Ha. unfold match_here_end.
  change (ignoreCase LATEST_TAG_REGEX) with false.
  rewrite LATEST_TAG_REGEX_source, rmatch_seq, rmatch_lit_exact.
  cbn [flat_map rest]. rewrite rmatch_seq, rmatch_alt.
  change (js "v" ++ ver) with (118%N :: ver).
  rewrite rmatch_char_here. cbn [app flat_map rest].
  destruct (plus_to_end ver Hne Ha) as (more & ->).
  cbn [List.map app find at_end then_ rest]. eexists. split; reflexivity.
Qed.

Lemma match_here_end_tag ver :
  ver <> [] -> all_true not_line_terminator ver ->
  startsWith ver (js "v") = false ->
  exists m, match_here_end LATEST_TAG_REGEX (js "/tag/" ++ ver) = Some m /\
            group1 m = Some ver.
Proof.
  intros Hne Ha Hv. unfold match_here_end.
  change (ignoreCase LATEST_TAG_REGEX) with false.
  rewrite LATEST_TAG_REGEX_source, rmatch_seq, rmatch_lit_exact.
  cbn [flat_map rest]. rewrite rmatch_seq, rmatch_alt.
  destruct (plus_to_end ver Hne Ha) as (more & E).
  destruct ver as [|c ver]; [congruence|].
  rewrite rmatch_char_other.
  - rewrite rmatch_eps. cbn [app flat_map rest]. rewrite E.
    cbn [List.map app find at_end then_ rest]. eexists. split; reflexivity.
  - intros ->. cbn in Hv. destruct ver; discriminate.
Qed.

Definition LatestVersionUnknown : exn :=
  new_Error (js "Failed to determine latest version").

(** X25. What [getLatestVersion] makes of the response to its request,
    which is for the address of the releases followed by [/latest]. From
    a redirect whose [location] is some text without [/tag/], then
    [/tag/], then a version that is not empty and has no line terminator,
    it resolves the version, without the [v] before it if there is one.
    Whatever it resolves is such a version: not empty, without line
    terminator, and the end of the [location] after [/tag/] or [/tag/v].
    From a response that is no redirect it fails with
    [Failed to determine latest version], and every error it makes itself
    is this one, which the retry policy would not retry. *)
Theorem getLatestVersion_tag W (https_get : jsstring -> W -> reply * W)
  (w : W) (response : IncomingMessage) (w' : W) :
  https_get (GITHUB_RELEASES_BASE ++ js "/latest") w = (Response response, w') ->
  (forall x, fst (getLatestVersion https_get w) = Ok x ->
     is_redirect response = true /\
     exists v u,
       x = Some v /\ v <> [] /\ all_true not_line_terminator v /\
       (location response = u ++ js "/tag/" ++ v \/
        location response = u ++ js "/tag/v" ++ v)) /\
  (is_redirect response = true ->
   forall u ver,
     before_tag u -> ver <> [] -> all_true not_line_terminator ver ->
     (location response = u ++ js "/tag/v" ++ ver ->
      fst (getLatestVersion https_get w) = Ok (Some ver)) /\
     (startsWith ver (js "v") = false ->
      location response = u ++ js "/tag/" ++ ver ->
      fst (getLatestVersion https_get w) = Ok (Some ver))) /\
  (is_redirect response = false ->
   fst (getLatestVersion https_get w) = Throw LatestVersionUnknown) /\
  (forall e, fst (getLatestVersion https_get w) = Throw e ->
     e = LatestVersionUnknown /\ isRetryableError e = false).
Proof.
  intros Hg. unfold getLatestVersion. rewrite Hg. cbn [fst].
  split; [|split; [|split]].
  - intros x. unfold latestVersion_of.
    destruct (is_redirect response); [|discriminate].
    destruct (match_end LATEST_TAG_REGEX (location response)) as [[pre m]|] eqn:E;
      [|discriminate].
    intros H. injection H as <-. split; [reflexivity|].
    destruct (match_end_some _ _ _ _ E) as (Hs & Hi & _).
    change (ignoreCase LATEST_TAG_REGEX) with false in Hi.
    destruct (in_latest_tag _ _ Hi) as (v & Hv & Hne & Ha & Hc).
    exists v, pre. rewrite Hs. split; [exact Hv|]. split; [exact Hne|].
    split; [exact Ha|]. destruct Hc as [-> | ->]; auto.
  - intros Hr u ver Hu Hne Ha. unfold latestVersion_of. rewrite Hr. split.
    + intros ->. destruct (match_here_end_tag_v ver Hne Ha) as (m & Hm & Hv).
      change (js "/tag/v" ++ ver) with (js "/tag/" ++ js "v" ++ ver).
      rewrite (match_end_skips LATEST_TAG_REGEX u _ m);
        [rewrite Hv; reflexivity| |exact Hm].
      apply no_tag_before. exact Hu.
    + intros Hv ->. destruct (match_here_end_tag ver Hne Ha Hv) as (m & Hm & Hm1).
      rewrite (match_end_skips LATEST_TAG_REGEX u _ m);
        [rewrite Hm1; reflexivity| |exact Hm].
      apply no_tag_before. exact Hu.
  - intros Hr. unfold latestVersion_of. rewrite Hr. reflexivity.
  - intros e. unfold latestVersion_of.
    destruct (if is_redirect response then _ else None) as [[pre m]|];
      [discriminate|].
    intros H. injection H as <-. split; reflexivity.
Qed.

Definition LATEST_REDIRECT : IncomingMessage :=
  mkIncomingMessage (Some 302%Z)
    (Some (GITHUB_RELEASES_BASE ++ js "/tag/v" ++ js "0.40.0")) (Ok []).

(** A server that answers every request with [LATEST_REDIRECT]; the
    world counts the requests. *)
Definition latest_server (url : jsstring) (w : nat) : reply * nat :=
  (Response LATEST_REDIRECT, S w).

(** Witness of X25: the redirect of the hosting platform. *)
Lemma getLatestVersion_tag_witness :
  fst (getLatestVersion latest_server 0) = Ok (Some (js "0.40.0")).
Proof.
  destruct (getLatestVersion_tag nat latest_server 0 LATEST_REDIRECT 1 eq_refl)
    as (_ & H & _).
  destruct (H eq_refl GITHUB_RELEASES_BASE (js "0.40.0")) as (H1 & _).
  - reflexivity.
  - discriminate.
  - repeat constructor.
  - apply H1. reflexivity.
Defined.

(* ===================================================================== *)
(** * Following redirects *)
(* ===================================================================== *)

(** From the request for [url] in the world [w], [hops] redirects lead to
    the request for [url'] in the world [w']. *)
Inductive redirects {W} (https_get : jsstring -> W -> reply * W)
  : nat -> jsstring -> W -> jsstring -> W -> Prop :=
| redirects_here url w : redirects https_get 0 url w url w
| redirects_hop hops url w response w1 url' w' :
    https_get url w = (Response response, w1) ->
    is_redirect response = true ->
    redirects https_get hops (location response) w1 url' w' ->
    redirects https_get (S hops) url w url' w'.

Lemma httpsGet_redirects W (https_get : jsstring -> W -> reply * W)
  hops url w url' w' :
  redirects https_get hops url w url' w' ->
  forall requests, hops < requests ->
    httpsGet https_get requests url w
    = httpsGet https_get (requests - hops) url' w'.
Proof.
  induction 1 as [url w|hops url w response w1 url' w' Hg Hr _ IH];
    intros requests Hlt.
  - rewrite Nat.sub_0_r. reflexivity.
  - destruct requests as [|n]; [lia|]. cbn [httpsGet]. rewrite Hg, Hr.
    rewrite IH by lia. reflexivity.
Qed.

(** X26. [httpsGet] follows redirects: after any number of them, with
    requests enough, it gives what the last address gives. A response
    there that is no redirect and has not the status 200 is an error
    [HTTP], the status, [for], and the last address, not the first; the
    error has no status of its own, so the retry policy would not retry
    it. A response with status 200 gives the chunks of its body, put
    together in their order. *)
Theorem httpsGet_follows W (https_get : jsstring -> W -> reply * W)
  hops url w url' w' response w'' requests :
  redirects https_get hops url w url' w' ->
  https_get url' w' = (Response response, w'') ->
  is_redirect response = false ->
  hops < requests ->
  (statusCode response <> Some 200%Z ->
   httpsGet https_get requests url w
   = (Throw (new_Error (js "HTTP " ++ render_status (statusCode response)
                          ++ js " for " ++ url')), w'') /\
   isRetryableError (new_Error (js "HTTP " ++ render_status (statusCode response)
                                  ++ js " for " ++ url')) = false) /\
  (statusCode response = Some 200%Z ->
   httpsGet https_get requests url w
   = (match body response with
      | Ok chunks => Ok (List.concat chunks)
      | Throw error => Throw error
      | Hang => Hang
      end, w'')).
Proof.
  intros Hr Hg Hn Hlt. rewrite (httpsGet_redirects _ _ _ _ _ _ _ Hr _ Hlt).
  destruct (requests - hops) as [|n] eqn:E; [lia|].
  cbn [httpsGet]. rewrite Hg, Hn. split.
  - intros Hs. split; [|reflexivity].
    destruct (statusCode response) as [code|]; [|reflexivity].
    destruct (Z.eqb_spec code 200) as [->|]; [congruence|reflexivity].
  - intros ->. reflexivity.
Qed.

(** A server whose address [a] redirects to [b], which has two chunks;
    the world counts the requests. *)
Definition two_hops (url : jsstring) (w : nat) : reply * nat :=
  if jsstring_eqb url (js "a")
  then (Response (mkIncomingMessage (Some 302%Z) (Some (js "b")) (Ok [])), S w)
  else (Response (mkIncomingMessage (Some 200%Z) None (Ok [js "x"; js "y"])), S w).

(** Witness of X26. *)
Lemma httpsGet_follows_witness :
  httpsGet two_hops 5 (js "a") 0 = (Ok (js "xy"), 2).
Proof.
  destruct (httpsGet_follows nat two_hops 1 (js "a") 0 (js "b") 1
              (mkIncomingMessage (Some 200%Z) None (Ok [js "x"; js "y"])) 2 5)
    as (_ & H).
  - eapply redirects_hop; [reflexivity|reflexivity|apply redirects_here].
  - reflexivity.
  - reflexivity.
  - lia.
  - apply H. reflexivity.
Defined.
